(** * Beam-vehicle selection with multi-armed bandits: a shallow embedding

    This development embeds the decision core of [paper-cmab.py] (the
    selection algorithms [RandomSelection], [HighestCQI], [CMAB] and [MAB],
    the per-beam [Stats] accumulators and the allocation loop
    [MyScenario.do_mobility]) and proves properties of it.

    Numbers.  Simulation times, channel qualities, speeds, distances and
    azimuths are Python floats.  They are embedded as exact rationals [Q]:
    the comparisons of the source are kept as they are written and the
    arithmetic is exact; rounding is not modelled.  Counters are [nat].

    Objects.  Beams and vehicles are objects compared and hashed by
    identity; they are embedded as references ([nat]).  The mutable fields
    [serving_node] and [associated_bs] live in a store ([World]) indexed by
    these references, an absent entry standing for [None].

    Exceptions.  Code that can raise returns a [result]. *)

From Stdlib Require Import QArith Lqa.
From Stdlib Require Import String Ascii DecimalString.
From stdpp Require Import gmap strings list fin_maps.

Local Open Scope string_scope.

(** ** Exceptions *)

Inductive exn : Type :=
| KeyError           (* a dictionary lookup [d[k]] with [k] missing *)
| TypeError          (* an arithmetic operand that is [None] *)
| AttributeError     (* a method called on [None] *)
| ZeroDivisionError. (* a float division by zero *)

Inductive result (A : Type) : Type :=
| Ok (a : A)
| Raise (e : exn).
Arguments Ok {A} a.
Arguments Raise {A} e.

Definition rbind {A B} (m : result A) (k : A -> result B) : result B :=
  match m with
  | Ok a => k a
  | Raise e => Raise e
  end.

Notation "'do' x <- m ; k" := (rbind m (fun x => k))
  (at level 10, x name, m at level 100, k at level 200).
Notation "'do' ' p <- m ; k" := (rbind m (fun x => match x with p => k end))
  (at level 10, p pattern, m at level 100, k at level 200).

(** [d[k]] on a Python dictionary. *)
Definition getitem `{Countable K} {V} (d : gmap K V) (k : K) : result V :=
  match d !! k with
  | Some v => Ok v
  | None => Raise KeyError
  end.

Definition raises {A} (m : result A) : Prop := exists e, m = Raise e.

(** ** [VehicleSelectionAlgorithm.Stats] *)

Module Stats.

Record t : Type := mk {
  conn_start_time : option Q;
  total_time : Q;      (* total connection time *)
  total_conn : nat     (* total number of connections *)
}.

(** [__init__] *)
Definition init : t := mk None 0 0.

Definition conn_begin (sim_time : Q) (s : t) : result t :=
  Ok (mk (Some sim_time) (total_time s) (total_conn s)).

(** [sim_time - self.conn_start_time] raises [TypeError] when the start
    time is [None]. *)
Definition conn_end (sim_time : Q) (s : t) : result t :=
  match conn_start_time s with
  | None => Raise TypeError
  | Some start =>
      Ok (mk (conn_start_time s)
             (total_time s + (sim_time - start))
             (total_conn s + 1))
  end.

Definition get_average_connection_time (s : t) : Q :=
  if Nat.eqb (total_conn s) 0 then 0
  else total_time s / inject_Z (Z.of_nat (total_conn s)).

Definition get_connection_count (s : t) : nat := total_conn s.

Definition reset (s : t) : t := mk (conn_start_time s) 0 0.

(** A tracker is open when it holds a start time. *)
Definition is_open (s : t) : Prop := conn_start_time s <> None.

End Stats.

(** ** Numbers and strings *)

(** [x < y] on floats, for the comparisons of the source. *)
Definition Qlt_bool (x y : Q) : bool := negb (Qle_bool y x).

(** The format ["%02d"] on a natural number. *)
Definition fmt_02d (n : nat) : string :=
  let s := NilEmpty.string_of_uint (Nat.to_uint n) in
  if Nat.ltb (String.length s) 2 then "0" ++ s else s.

(** ** Nodes, the store of their mutable fields, and the collaborators *)

Definition beam : Type := nat.
Definition vehicle : Type := nat.

(** A [BaseNode] is a base-station beam or a vehicle ([node.type]). *)
Inductive node : Type :=
| BS (b : beam)
| Veh (v : vehicle).

(** The fields [MyBaseStationBeam.serving_node] and
    [MyVehicle.associated_bs] of every object; no entry is [None]. *)
Record World : Type := mkWorld {
  serving_node : gmap beam vehicle;
  associated_bs : gmap vehicle beam
}.

(** What the simulator supplies at one simulation time.  [unicast src dst]
    is the quality of the signal received by [dst], [None] when it cannot be
    detected; [broadcast b] lists the nodes a beacon of [b] reaches, each
    with its received signal. *)
Record Env : Type := mkEnv {
  beam_id : beam -> string;
  unicast : node -> node -> option Q;
  broadcast : beam -> list (node * Q);
  speed : vehicle -> Q;
  dist_by_timing_advance : vehicle -> beam -> Q;
  azimuth : vehicle -> Q
}.

(** [CommModule.send_hello_to].  The tuple [(False, None)] is [None] and
    [(True, cqi)] is [Some cqi]. *)
Definition send_hello_to (env : Env) (me other : node) : option Q :=
  match unicast env me other with
  | None => None
  | Some _ =>
      match unicast env other me with
      | None => None
      | Some quality => Some quality
      end
  end.

(** [MyVehicle.lost_bs] and [MyVehicle.connect_bs]. *)
Definition lost_bs (v : vehicle) (w : World) : World :=
  mkWorld (serving_node w) (delete v (associated_bs w)).

Definition connect_bs (v : vehicle) (bs : beam) (w : World) : World :=
  mkWorld (serving_node w) (<[v := bs]> (associated_bs w)).

(** [MyBaseStationBeam.lost_vehicle] and [connect_vehicle]. *)
Definition lost_vehicle (b : beam) (w : World) : result World :=
  match serving_node w !! b with
  | None => Raise AttributeError
  | Some v =>
      let w := lost_bs v w in
      Ok (mkWorld (delete b (serving_node w)) (associated_bs w))
  end.

Definition connect_vehicle (b : beam) (v : vehicle) (w : World) : World :=
  let w := mkWorld (<[b := v]> (serving_node w)) (associated_bs w) in
  connect_bs v b w.

(** [[beam for beam in self.all_beams if beam.serving_node==None]] *)
Definition available_beams (all_beams : list beam) (w : World) : list beam :=
  List.filter (fun b => bool_decide (serving_node w !! b = None)) all_beams.

(** A pairing [(beam, vehicle, cqi)]. *)
Definition pairing : Type := beam * vehicle * Q.

(** ** Context encoders *)

Definition encoder : Type := Env -> beam -> vehicle -> Q -> string.

(** The loop [for i in range(dir_group)] of [CMAB.get_context], over the
    remaining values of [i]. *)
Fixpoint dir_loop (dir dir_width : Q) (range : list nat) (context_str : string)
  : string :=
  match range with
  | [] => context_str
  | i :: range' =>
      if Qle_bool dir (dir_width * inject_Z (Z.of_nat (i + 1)))%Q
      then context_str ++ "dir=" ++ fmt_02d (i + 1) ++ "]"
      else dir_loop dir dir_width range' context_str
  end.

(** The context string before the direction is appended. *)
Definition context_prefix (use_speed : bool) (env : Env) (b : beam) (v : vehicle)
  : string :=
  let context_str := "[" ++ beam_id env b ++ "; " in
  let context_str :=
    if use_speed then
      let speed := speed env v in
      let speed_str :=
        if Qlt_bool speed 40 then "slow"
        else if Qlt_bool speed 50 then "med "
        else "fast" in
      context_str ++ "speed=" ++ speed_str ++ "; "
    else context_str in
  let dist := dist_by_timing_advance env v b in
  let dist_str :=
    if Qlt_bool dist 180 then "near"
    else if Qlt_bool dist 360 then "med "
    else "far " in
  context_str ++ "dist=" ++ dist_str ++ "; ".

(** [CMAB.get_context] *)
Definition CMAB_get_context (use_speed : bool) : encoder :=
  fun env b v cqi =>
    let context_str := context_prefix use_speed env b v in
    let dir := azimuth env v in
    let dir_group := 4%nat in
    let dir_width := (360 / inject_Z (Z.of_nat dir_group))%Q in
    dir_loop dir dir_width (seq 0 dir_group) context_str.

(** [MAB.get_context] *)
Definition MAB_get_context : encoder :=
  fun env b v cqi => "[" ++ beam_id env b ++ "]".

(** ** The random source *)

(** [random] is a stream of draws read at a position. *)
Record Rng : Type := mkRng {
  draws : nat -> nat;
  pos : nat
}.

(** [random.choice(seq)] on the non-empty sequence [x :: xs]: an element at
    an index below [len(seq)]. *)
Definition choice {A} (x : A) (xs : list A) (g : Rng) : A * Rng :=
  (nth (draws g (pos g) mod length (x :: xs)) (x :: xs) x,
   mkRng (draws g) (S (pos g))).

(** [list.remove(x)]: the first occurrence goes. *)
Fixpoint list_remove (x : beam) (l : list beam) : list beam :=
  match l with
  | [] => []
  | y :: l' => if Nat.eqb x y then l' else y :: list_remove x l'
  end.

(** ** [RandomSelection] *)

(** One step of [for (vehicle,signal) in vehicle_list] in
    [RandomSelection.do_pairing], on [available_vehicle_list]. *)
Definition hello_step (env : Env) (w : World) (b : beam)
    (available_vehicle_list : list (vehicle * Q)) (entry : node * Q)
  : list (vehicle * Q) :=
  match fst entry with
  | BS _ => available_vehicle_list              (* skip if not Vehicle *)
  | Veh v =>
      match associated_bs w !! v with
      | Some _ => available_vehicle_list        (* skip if already being served *)
      | None =>
          match send_hello_to env (BS b) (Veh v) with
          | None => available_vehicle_list      (* skip if failed *)
          | Some cqi => (available_vehicle_list ++ [(v, cqi)])%list
          end
      end
  end.

Definition hello_scan (env : Env) (w : World) (b : beam) : list (vehicle * Q) :=
  fold_left (hello_step env w b) (broadcast env b) [].

(** The [while True] loop.  Every iteration that does not return removes a
    beam from [available_beams]; [fuel] bounds the iterations and [None] is
    the loop cut short. *)
Fixpoint RandomSelection_loop (fuel : nat) (env : Env) (w : World)
    (available_beams : list beam) (g : Rng) : option (option pairing * Rng) :=
  match available_beams with
  | [] => Some (None, g)
  | b0 :: bs =>
      match fuel with
      | O => None
      | S fuel =>
          let (b, g) := choice b0 bs g in
          match hello_scan env w b with
          | [] => RandomSelection_loop fuel env w (list_remove b available_beams) g
          | vc0 :: vcs =>
              let (vc, g) := choice vc0 vcs g in
              Some (Some (b, fst vc, snd vc), g)
          end
      end
  end.

(** [RandomSelection.do_pairing].  The loop runs with as much fuel as there
    are available beams, which is enough ([RandomSelection_loop_total]). *)
Definition RandomSelection_do_pairing (all_beams : list beam) (env : Env)
    (w : World) (g : Rng) : option pairing * Rng :=
  let available_beams := available_beams all_beams w in
  match RandomSelection_loop (length available_beams) env w available_beams g with
  | Some r => r
  | None => (None, g)
  end.

(** ** [HighestCQI] *)

(** The body of the inner loop of [HighestCQI.do_pairing], on
    [(max_cqi, selected_pair)]. *)
Definition cqi_step (env : Env) (w : World) (b : beam)
    (st : option Q * option pairing) (entry : node * Q)
  : option Q * option pairing :=
  match fst entry with
  | BS _ => st
  | Veh v =>
      match associated_bs w !! v with
      | Some _ => st
      | None =>
          match unicast env (Veh v) (BS b) with
          | None => st
          | Some cqi =>
              match fst st with
              | None => (Some cqi, Some (b, v, cqi))
              | Some max_cqi =>
                  if Qlt_bool max_cqi cqi
                  then (Some cqi, Some (b, v, cqi))
                  else st
              end
          end
      end
  end.

Definition HighestCQI_do_pairing (all_beams : list beam) (env : Env) (w : World)
  : option pairing :=
  let available_beams := available_beams all_beams w in
  match available_beams with
  | [] => None
  | _ =>
      snd (fold_left
             (fun st b => fold_left (cqi_step env w b) (broadcast env b) st)
             available_beams (None, None))
  end.

(** ** [CMAB] and [MAB] *)

(** The fields [CMAB.__init__] adds to the base class. *)
Record Bandit : Type := mkBandit {
  arm_total_reward : gmap string Q;        (* for each context *)
  arm_total_count : gmap string nat;       (* for each context *)
  arm_info : gmap vehicle (string * Q);    (* [vehicle]=>(context,start_time) *)
  total_pulled : nat;                      (* number of arms pulled so far *)
  time_unit : Q;
  exploration_stop_time : Q;
  use_speed : bool
}.

Definition Bandit_init (time_unit : Q) : Bandit :=
  mkBandit ∅ ∅ ∅ 0 time_unit 0 false.

(** [CMAB.mab_setting] *)
Definition mab_setting (stop_time : option Q) (use_speed' : option bool)
    (s : Bandit) : Bandit :=
  let s :=
    match stop_time with
    | Some t => mkBandit (arm_total_reward s) (arm_total_count s) (arm_info s)
                         (total_pulled s) (time_unit s) t (use_speed s)
    | None => s
    end in
  match use_speed' with
  | Some u => mkBandit (arm_total_reward s) (arm_total_count s) (arm_info s)
                       (total_pulled s) (time_unit s) (exploration_stop_time s) u
  | None => s
  end.

Definition pulled (s : Bandit) : Bandit :=
  mkBandit (arm_total_reward s) (arm_total_count s) (arm_info s)
           (total_pulled s + 1) (time_unit s) (exploration_stop_time s)
           (use_speed s).

(** [CMAB.get_past_reward] *)
Definition get_past_reward (s : Bandit) (context : string) : result (option Q) :=
  match arm_total_reward s !! context with
  | None => Ok None
  | Some reward =>
      do count <- getitem (arm_total_count s) context;
      if Nat.eqb count 0 then Ok None
      else Ok (Some (reward / inject_Z (Z.of_nat count) * time_unit s)%Q)
  end.

(** The body of the inner loop of the exploitation branch of
    [CMAB.do_pairing], on [(highest_reward, selected_pair)]; [get_context]
    is the method of the object's class. *)
Definition reward_step (get_context : encoder) (s : Bandit) (env : Env)
    (w : World) (b : beam) (st : Q * option pairing) (entry : node * Q)
  : result (Q * option pairing) :=
  match fst entry with
  | BS _ => Ok st
  | Veh v =>
      match associated_bs w !! v with
      | Some _ => Ok st
      | None =>
          match unicast env (Veh v) (BS b) with
          | None => Ok st
          | Some cqi =>
              let context := get_context env b v cqi in
              do predicted_reward <- get_past_reward s context;
              match predicted_reward with
              | None => Ok st
              | Some predicted_reward =>
                  if Qlt_bool (fst st) predicted_reward
                  then Ok (predicted_reward, Some (b, v, cqi))
                  else Ok st
              end
          end
      end
  end.

(** A [for] loop whose body can raise. *)
Fixpoint for_each {A S} (body : S -> A -> result S) (l : list A) (st : S)
  : result S :=
  match l with
  | [] => Ok st
  | x :: l' => do st <- body st x; for_each body l' st
  end.

(** [CMAB.do_pairing], inherited by [MAB]. *)
Definition CMAB_do_pairing (get_context : encoder) (all_beams : list beam)
    (env : Env) (sim_time : Q) (w : World) (s : Bandit) (g : Rng)
  : result (option pairing * Bandit * Rng) :=
  if Qlt_bool sim_time (exploration_stop_time s) then
    (* exploration *)
    let (sel, g) := RandomSelection_do_pairing all_beams env w g in
    Ok (sel, pulled s, g)
  else
    (* exploitation *)
    let available_beams := available_beams all_beams w in
    match available_beams with
    | [] => Ok (None, s, g)
    | _ =>
        do st <- for_each
                   (fun st b =>
                      for_each (reward_step get_context s env w b)
                               (broadcast env b) st)
                   available_beams ((-1)%Q, None);
        Ok (snd st, pulled s, g)
    end.

(** ** The algorithm object *)

(** The two bandit classes: [MAB] inherits [CMAB] and overrides
    [get_context]. *)
Inductive BanditClass : Type :=
| CMAB
| MAB.

(** The class of the algorithm, with the fields of that class. *)
Inductive Policy : Type :=
| PRandom
| PHighestCQI
| PBandit (cls : BanditClass) (s : Bandit).

(** A [VehicleSelectionAlgorithm]: the fields of the base class and the
    class-specific part. *)
Record Algorithm : Type := mkAlgorithm {
  all_beams : list beam;
  max_active_sector : nat;
  stats : gmap beam Stats.t;    (* from start to end, for the overall outcome *)
  stats2 : gmap beam Stats.t;   (* reset periodically, for the sessional outcome *)
  policy : Policy
}.

Definition get_name (alg : Algorithm) : string :=
  match policy alg with
  | PRandom => "Random"
  | PHighestCQI => "HighestCQI"
  | PBandit CMAB _ => "CMAB"
  | PBandit MAB _ => "MAB"
  end.

(** [self.get_context] as the class of the object resolves it. *)
Definition get_context (cls : BanditClass) (s : Bandit) : encoder :=
  match cls with
  | CMAB => CMAB_get_context (use_speed s)
  | MAB => MAB_get_context
  end.

(** [VehicleSelectionAlgorithm.__init__] *)
Definition VehicleSelectionAlgorithm_init (bs_beams : list beam)
    (max_active_beam : nat) (p : Policy) : Algorithm :=
  let fresh :=
    fold_left (fun d b => <[b := Stats.init]> d) bs_beams (∅ : gmap beam Stats.t) in
  mkAlgorithm bs_beams max_active_beam fresh fresh p.

Definition with_policy (alg : Algorithm) (p : Policy) : Algorithm :=
  mkAlgorithm (all_beams alg) (max_active_sector alg) (stats alg) (stats2 alg) p.

(** [VehicleSelectionAlgorithm.report_conn_confirmed] *)
Definition VSA_report_conn_confirmed (sim_time : Q) (b : beam) (v : vehicle)
    (cqi : Q) (alg : Algorithm) : result Algorithm :=
  do st <- getitem (stats alg) b;
  do st <- Stats.conn_begin sim_time st;
  let stats := <[b := st]> (stats alg) in
  do st2 <- getitem (stats2 alg) b;
  do st2 <- Stats.conn_begin sim_time st2;
  let stats2 := <[b := st2]> (stats2 alg) in
  Ok (mkAlgorithm (all_beams alg) (max_active_sector alg) stats stats2
                  (policy alg)).

(** [VehicleSelectionAlgorithm.report_conn_lost] *)
Definition VSA_report_conn_lost (sim_time : Q) (b : beam) (v : vehicle)
    (alg : Algorithm) : result Algorithm :=
  do st <- getitem (stats alg) b;
  do st <- Stats.conn_end sim_time st;
  let stats := <[b := st]> (stats alg) in
  do st2 <- getitem (stats2 alg) b;
  do st2 <- Stats.conn_end sim_time st2;
  let stats2 := <[b := st2]> (stats2 alg) in
  Ok (mkAlgorithm (all_beams alg) (max_active_sector alg) stats stats2
                  (policy alg)).

(** The part of [CMAB.report_conn_confirmed] after the call to the base
    class; [get_context] is the method of the object's class. *)
Definition CMAB_confirmed (get_context : encoder) (env : Env) (sim_time : Q)
    (b : beam) (v : vehicle) (cqi : Q) (s : Bandit) : Bandit :=
  let context := get_context env b v cqi in
  let '(reward, count) :=
    match arm_total_reward s !! context with
    | None => (<[context := 0%Q]> (arm_total_reward s),
               <[context := 0]> (arm_total_count s))
    | Some _ => (arm_total_reward s, arm_total_count s)
    end in
  mkBandit reward count (<[v := (context, sim_time)]> (arm_info s))
           (total_pulled s) (time_unit s) (exploration_stop_time s)
           (use_speed s).

(** The part of [CMAB.report_conn_lost] after the call to the base class. *)
Definition CMAB_lost (sim_time : Q) (b : beam) (v : vehicle) (s : Bandit)
  : result Bandit :=
  do '(context, start_time) <- getitem (arm_info s) v;
  do reward <- getitem (arm_total_reward s) context;
  let reward := <[context := (reward + (sim_time - start_time))%Q]>
                  (arm_total_reward s) in
  do count <- getitem (arm_total_count s) context;
  let count := <[context := count + 1]> (arm_total_count s) in
  Ok (mkBandit reward count (arm_info s) (total_pulled s) (time_unit s)
               (exploration_stop_time s) (use_speed s)).

(** [do_pairing], [report_conn_confirmed] and [report_conn_lost] as the
    class of the object resolves them. *)
Definition do_pairing (env : Env) (sim_time : Q) (w : World)
    (alg : Algorithm) (g : Rng) : result (option pairing * Algorithm * Rng) :=
  match policy alg with
  | PRandom =>
      let (sel, g) := RandomSelection_do_pairing (all_beams alg) env w g in
      Ok (sel, alg, g)
  | PHighestCQI => Ok (HighestCQI_do_pairing (all_beams alg) env w, alg, g)
  | PBandit cls s =>
      do '(sel, s, g) <- CMAB_do_pairing (get_context cls s)
                           (all_beams alg) env sim_time w s g;
      Ok (sel, with_policy alg (PBandit cls s), g)
  end.

Definition report_conn_confirmed (env : Env) (sim_time : Q) (b : beam)
    (v : vehicle) (cqi : Q) (alg : Algorithm) : result Algorithm :=
  match policy alg with
  | PRandom | PHighestCQI => VSA_report_conn_confirmed sim_time b v cqi alg
  | PBandit cls s =>
      do alg <- VSA_report_conn_confirmed sim_time b v cqi alg;
      Ok (with_policy alg
            (PBandit cls (CMAB_confirmed (get_context cls s) env
                                         sim_time b v cqi s)))
  end.

Definition report_conn_lost (sim_time : Q) (b : beam) (v : vehicle)
    (alg : Algorithm) : result Algorithm :=
  match policy alg with
  | PRandom | PHighestCQI => VSA_report_conn_lost sim_time b v alg
  | PBandit cls s =>
      do alg <- VSA_report_conn_lost sim_time b v alg;
      do s <- CMAB_lost sim_time b v s;
      Ok (with_policy alg (PBandit cls s))
  end.

(** ** [MyScenario] *)

(** The fields of the scenario the allocation loop uses, with the store and
    the random source. *)
Record Scenario : Type := mkScenario {
  bs_beams : list beam;
  max_active_beam : nat;
  my_algorithm : Algorithm;
  sim_show_progress : Q;     (* show progress every x% *)
  sim_next_progress : Q;
  stop_time : Q;             (* [self.get_setting("stop time")] *)
  world : World;
  rng : Rng
}.

Definition with_state (sc : Scenario) (alg : Algorithm) (w : World) (g : Rng)
  : Scenario :=
  mkScenario (bs_beams sc) (max_active_beam sc) alg (sim_show_progress sc)
             (sim_next_progress sc) (stop_time sc) w g.

(** One line of the table [show_outcome] prints:
    beam, overall mean, overall count, session mean, session count. *)
Definition outcome_row : Type := beam * Q * nat * Q * nat.

(** The body of [for beam in self.bs_beams] in [show_outcome]. *)
Definition show_outcome_step (st : Algorithm * list outcome_row) (b : beam)
  : result (Algorithm * list outcome_row) :=
  let (alg, rows) := st in
  (* for overall stats *)
  do s <- getitem (stats alg) b;
  let this_average := Stats.get_average_connection_time s in
  let this_count := Stats.get_connection_count s in
  (* for this session only *)
  do s2 <- getitem (stats2 alg) b;
  let this_average2 := Stats.get_average_connection_time s2 in
  let this_count2 := Stats.get_connection_count s2 in
  let stats2 := <[b := Stats.reset s2]> (stats2 alg) in
  Ok (mkAlgorithm (all_beams alg) (max_active_sector alg) (stats alg) stats2
                  (policy alg),
      (rows ++ [(b, this_average, this_count, this_average2, this_count2)])%list).

(** [get_final_average] of [show_outcome]. *)
Definition get_final_average (conn_info : list (Q * nat)) : Q :=
  let '(the_total, the_count) :=
    fold_left (fun '(the_total, the_count) '(average, count) =>
                 ((the_total + average * inject_Z (Z.of_nat count))%Q,
                  the_count + count))
              conn_info (0%Q, 0) in
  if Nat.eqb the_count 0 then 0%Q
  else (the_total / inject_Z (Z.of_nat the_count))%Q.

(** The two averages [show_outcome] prints under the table. *)
Definition overall_average (rows : list outcome_row) : Q :=
  get_final_average
    (map (fun '(_, this_average, this_count, _, _) => (this_average, this_count))
         rows).

Definition session_average (rows : list outcome_row) : Q :=
  get_final_average
    (map (fun '(_, _, _, this_average, this_count) => (this_average, this_count))
         rows).

(** [MyScenario.show_outcome]: the rows printed and the session statistics
    reset. *)
Definition show_outcome (sc : Scenario) : result (Scenario * list outcome_row) :=
  do '(alg, rows) <- for_each show_outcome_step (bs_beams sc)
                              (my_algorithm sc, []);
  Ok (with_state sc alg (world sc) (rng sc), rows).

(** The body of the first loop of [do_mobility]: check the connectivity of
    the vehicle a beam serves. *)
Definition check_step (env : Env) (sim_time : Q) (st : World * Algorithm)
    (b : beam) : result (World * Algorithm) :=
  let (w, alg) := st in
  match serving_node w !! b with
  | None => Ok st                                    (* skip if none *)
  | Some v =>
      match send_hello_to env (BS b) (Veh v) with
      | Some _ => Ok st
      | None =>                                      (* lost connection *)
          do w <- lost_vehicle b w;
          do alg <- report_conn_lost sim_time b v alg;
          Ok (w, alg)
      end
  end.

(** [num_active_beam] after the second loop of [do_mobility]. *)
Definition count_active (bs : list beam) (w : World) : nat :=
  fold_left (fun num_active_beam b =>
               match serving_node w !! b with
               | Some _ => num_active_beam + 1
               | None => num_active_beam
               end)
            bs 0.

(** The loop [while num_active_beam<self.max_active_beam], by recursion on
    [room = max_active_beam - num_active_beam], which every iteration that
    does not break decreases by one. *)
Fixpoint select_loop (room : nat) (env : Env) (sim_time : Q) (w : World)
    (alg : Algorithm) (g : Rng) : result (World * Algorithm * Rng) :=
  match room with
  | O => Ok (w, alg, g)
  | S room =>
      do '(sel, alg, g) <- do_pairing env sim_time w alg g;
      match sel with
      | None => Ok (w, alg, g)           (* no more available pairing *)
      | Some (b, v, cqi) =>
          let w := connect_vehicle b v w in
          do alg <- report_conn_confirmed env sim_time b v cqi alg;
          select_loop room env sim_time w alg g
      end
  end.

(** [MyScenario.do_mobility], without the drawing. *)
Definition do_mobility (env : Env) (sim_time : Q) (sc : Scenario)
  : result Scenario :=
  do '(w, alg) <- for_each (check_step env sim_time) (bs_beams sc)
                           (world sc, my_algorithm sc);
  let num_active_beam := count_active (bs_beams sc) w in
  do '(w, alg, g) <- select_loop (max_active_beam sc - num_active_beam)
                                 env sim_time w alg (rng sc);
  let sc := with_state sc alg w g in
  if Qeq_bool (stop_time sc) 0 then Raise ZeroDivisionError
  else if Qlt_bool (sim_next_progress sc) (sim_time / stop_time sc)%Q then
    do '(sc, _) <- show_outcome sc;
    Ok (mkScenario (bs_beams sc) (max_active_beam sc) (my_algorithm sc)
                   (sim_show_progress sc)
                   (sim_next_progress sc + sim_show_progress sc)%Q
                   (stop_time sc) (world sc) (rng sc))
  else Ok sc.

(** The events delivered to [on_event]. *)
Inductive Event : Type :=
| MOBILITY_END
| SIM_MOBILITY
| SIM_END.

(** [MyScenario.on_event]; [do_restart_node] only sets a route. *)
Definition on_event (env : Env) (sim_time : Q) (event_obj : Event)
    (sc : Scenario) : result Scenario :=
  match event_obj with
  | MOBILITY_END => Ok sc
  | SIM_MOBILITY => do_mobility env sim_time sc
  | SIM_END => do '(sc, _) <- show_outcome sc; Ok sc
  end.

(** A run: the events the scheduler delivers, in order. *)
Definition run (events : list (Env * Q * Event)) (sc : Scenario)
  : result Scenario :=
  for_each (fun sc '(env, sim_time, event_obj) =>
              on_event env sim_time event_obj sc)
           events sc.

(** The parameters of [on_create]. *)
Record Param : Type := mkParam {
  p_algo : string;
  p_timescale : Q;
  p_duration : Q;
  p_mab_exploration_stop_time : Q;
  p_mab_speed : bool
}.

(** The algorithm [on_create] sets up for the beams [bs_beams]. *)
Definition create_algorithm (bs_beams : list beam) (max_active_beam : nat)
    (param : Param) : Algorithm :=
  let settings :=
    mab_setting (Some (p_mab_exploration_stop_time param))
                (Some (p_mab_speed param)) in
  let p :=
    if String.eqb (p_algo param) "random" then PRandom
    else if String.eqb (p_algo param) "bestsnr" then PHighestCQI
    else if String.eqb (p_algo param) "mab"
         then PBandit MAB (settings (Bandit_init (p_timescale param)))
    else if String.eqb (p_algo param) "cmab"
         then PBandit CMAB (settings (Bandit_init (p_timescale param)))
    else PRandom in
  VehicleSelectionAlgorithm_init bs_beams max_active_beam p.

(** The scenario after [on_create], for the beams [bs_beams] and the limit
    [max_active_beam]: nothing is connected. *)
Definition create (bs_beams : list beam) (max_active_beam : nat)
    (param : Param) (g : Rng) : Scenario :=
  mkScenario bs_beams max_active_beam
             (create_algorithm bs_beams max_active_beam param)
             (5 # 100) (5 # 100) (p_duration param)
             (mkWorld ∅ ∅) g.

(** [MyScenario.on_create]: a base station with 6 beams, of which 2 may be
    active. *)
Definition on_create (param : Param) (g : Rng) : Scenario :=
  create (seq 1 6) 2 param g.

(** ** Notions the properties are stated with *)

(** *** Candidates of a scan *)

(** The pairings the scan of beam [b] reaches the last step with: reachable
    vehicles without service whose reply is received, in the order of
    [broadcast]. *)
Definition reply_candidates (env : Env) (w : World) (b : beam) : list pairing :=
  flat_map
    (fun entry : node * Q =>
       match fst entry with
       | BS _ => []
       | Veh v =>
           match associated_bs w !! v with
           | Some _ => []
           | None =>
               match unicast env (Veh v) (BS b) with
               | None => []
               | Some cqi => [(b, v, cqi)]
               end
           end
       end)
    (broadcast env b).

(** The candidates of a scan of all available beams, in encounter order. *)
Definition candidates (all_beams : list beam) (env : Env) (w : World)
  : list pairing :=
  flat_map (reply_candidates env w) (available_beams all_beams w).

Definition cqi_of (c : pairing) : Q := snd c.

(** [c] is the first candidate of [cs] with the highest [score]; candidates
    without a score do not compete. *)
Definition first_highest (score : pairing -> option Q) (cs : list pairing)
    (c : pairing) : Prop :=
  exists pre post p,
    cs = (pre ++ c :: post)%list /\
    score c = Some p /\
    (forall x q, x ∈ pre -> score x = Some q -> (q < p)%Q) /\
    (forall x q, x ∈ post -> score x = Some q -> (q <= p)%Q).

(** The update of [(max_cqi, selected_pair)] a candidate makes in
    [HighestCQI.do_pairing]. *)
Definition highest_step (st : option Q * option pairing) (c : pairing)
  : option Q * option pairing :=
  match fst st with
  | None => (Some (cqi_of c), Some c)
  | Some max_cqi =>
      if Qlt_bool max_cqi (cqi_of c) then (Some (cqi_of c), Some c) else st
  end.

(** The update of [(highest_reward, selected_pair)] a candidate with the
    prediction [score c] makes in [CMAB.do_pairing]. *)
Definition reward_pick (score : pairing -> option Q) (st : Q * option pairing)
    (c : pairing) : Q * option pairing :=
  match score c with
  | None => st
  | Some predicted_reward =>
      if Qlt_bool (fst st) predicted_reward
      then (predicted_reward, Some c)
      else st
  end.

(** *** Predictions *)

(** The predicted reward of a context when both dictionaries know it or
    neither does. *)
Definition predict (s : Bandit) (context : string) : option Q :=
  match arm_total_reward s !! context, arm_total_count s !! context with
  | Some reward, Some count =>
      if Nat.eqb count 0 then None
      else Some (reward / inject_Z (Z.of_nat count) * time_unit s)%Q
  | _, _ => None
  end.

(** The prediction for a candidate under the encoder [enc]. *)
Definition predicted (enc : encoder) (s : Bandit) (env : Env) (c : pairing)
  : option Q :=
  predict s (enc env (fst (fst c)) (snd (fst c)) (snd c)).

(** The two dictionaries of the arm table have the same keys. *)
Definition arm_sync (s : Bandit) : Prop :=
  forall k, is_Some (arm_total_reward s !! k) <-> is_Some (arm_total_count s !! k).

(** Rewards are durations: they are not negative, and neither is the time
    unit. *)
Definition arm_nonneg (s : Bandit) : Prop :=
  (0 <= time_unit s)%Q /\
  forall k r, arm_total_reward s !! k = Some r -> (0 <= r)%Q.

(** *** Sequences of bookkeeping calls *)

Inductive call : Type :=
| Confirmed (env : Env) (sim_time : Q) (b : beam) (v : vehicle) (cqi : Q)
| Lost (sim_time : Q) (b : beam) (v : vehicle).

(** A call on the bandit's own fields. *)
Definition Bandit_call (get_context : encoder) (s : Bandit) (c : call)
  : result Bandit :=
  match c with
  | Confirmed env sim_time b v cqi =>
      Ok (CMAB_confirmed get_context env sim_time b v cqi s)
  | Lost sim_time b v => CMAB_lost sim_time b v s
  end.

(** A call on the algorithm object. *)
Definition Algorithm_call (alg : Algorithm) (c : call) : result Algorithm :=
  match c with
  | Confirmed env sim_time b v cqi =>
      report_conn_confirmed env sim_time b v cqi alg
  | Lost sim_time b v => report_conn_lost sim_time b v alg
  end.

(** The connection a vehicle has pending after a sequence of calls: the
    context and the start time of the last [Confirmed] for it. *)
Fixpoint last_confirmed (get_context : encoder) (v : vehicle)
    (calls : list call) (pending : option (string * Q)) : option (string * Q) :=
  match calls with
  | [] => pending
  | Confirmed env sim_time b v' cqi :: calls =>
      last_confirmed get_context v calls
        (if Nat.eqb v v' then Some (get_context env b v' cqi, sim_time)
         else pending)
  | Lost _ _ _ :: calls => last_confirmed get_context v calls pending
  end.

(** The completed connections of a sequence of calls, oldest first: each
    [Lost] completes the pending connection of its vehicle, with the context
    of its start and its duration. *)
Fixpoint records (get_context : encoder) (pending : gmap vehicle (string * Q))
    (calls : list call) : list (string * Q) :=
  match calls with
  | [] => []
  | Confirmed env sim_time b v cqi :: calls =>
      records get_context
              (<[v := (get_context env b v cqi, sim_time)]> pending) calls
  | Lost sim_time b v :: calls =>
      match pending !! v with
      | Some (context, start_time) =>
          (context, (sim_time - start_time)%Q) :: records get_context pending calls
      | None => []
      end
  end.

(** The rewards recorded for a context, oldest first, and their sum as the
    code accumulates it. *)
Definition rewards_of (context : string) (recs : list (string * Q)) : list Q :=
  map snd (List.filter (fun r => String.eqb context (fst r)) recs).

Definition sum_rewards (rs : list Q) : Q := fold_left Qplus rs 0%Q.

(** The running average of a context times the time unit, [None] before its
    first completed connection. *)
Definition running_average (time_unit : Q) (context : string)
    (recs : list (string * Q)) : option Q :=
  match rewards_of context recs with
  | [] => None
  | rs => Some (sum_rewards rs / inject_Z (Z.of_nat (length rs)) * time_unit)%Q
  end.

(** *** The contextual bandit with a given encoder *)

(** The key of the context-free encoder: the beam identity alone. *)
Definition beam_key (id : string) : string := "[" ++ id ++ "]".

Definition context_free : encoder :=
  fun env b _ _ => beam_key (beam_id env b).

(** The three operations of the contextual bandit run with the encoder
    [enc] on an algorithm object of class [cls] with bandit fields [s]. *)
Definition bandit_choose (enc : encoder) (cls : BanditClass) (env : Env)
    (sim_time : Q) (w : World) (alg : Algorithm) (s : Bandit) (g : Rng)
  : result (option pairing * Algorithm * Rng) :=
  do '(sel, s, g) <- CMAB_do_pairing enc (all_beams alg) env sim_time w s g;
  Ok (sel, with_policy alg (PBandit cls s), g).

Definition bandit_started (enc : encoder) (cls : BanditClass) (env : Env)
    (sim_time : Q) (b : beam) (v : vehicle) (cqi : Q) (alg : Algorithm)
    (s : Bandit) : result Algorithm :=
  do alg <- VSA_report_conn_confirmed sim_time b v cqi alg;
  Ok (with_policy alg (PBandit cls (CMAB_confirmed enc env sim_time b v cqi s))).

Definition bandit_ended (cls : BanditClass) (sim_time : Q) (b : beam)
    (v : vehicle) (alg : Algorithm) (s : Bandit) : result Algorithm :=
  do alg <- VSA_report_conn_lost sim_time b v alg;
  do s <- CMAB_lost sim_time b v s;
  Ok (with_policy alg (PBandit cls s)).

(** *** The arm table against the completed connections *)

(** The arm table holds, for every context, the sum and the number of the
    rewards of [log]; a context without an entry has no reward in [log]. *)
Definition arm_table_logs (s : Bandit) (log : list (string * Q)) : Prop :=
  forall k,
    match arm_total_reward s !! k with
    | None => arm_total_count s !! k = None /\ rewards_of k log = []
    | Some r =>
        r = sum_rewards (rewards_of k log) /\
        arm_total_count s !! k = Some (length (rewards_of k log))
    end.

(** *** Calls in the order of time *)

Definition call_time (c : call) : Q :=
  match c with
  | Confirmed _ sim_time _ _ _ => sim_time
  | Lost sim_time _ _ => sim_time
  end.

(** The times of the calls do not decrease, from [now] on. *)
Fixpoint calls_in_order (now : Q) (calls : list call) : Prop :=
  match calls with
  | [] => True
  | c :: calls => (now <= call_time c)%Q /\ calls_in_order (call_time c) calls
  end.

(** Every pending connection started at [now] or before. *)
Definition pending_before (s : Bandit) (now : Q) : Prop :=
  forall v context start,
    arm_info s !! v = Some (context, start) -> (start <= now)%Q.

(** *** Well-formed bandit fields *)

(** Every pending connection has its context in the arm table. *)
Definition arm_info_known (s : Bandit) : Prop :=
  forall v context start,
    arm_info s !! v = Some (context, start) ->
    is_Some (arm_total_reward s !! context).

Definition Bandit_ok (s : Bandit) : Prop := arm_sync s /\ arm_info_known s.

(** The trackers of a beam hold a start time. *)
Definition tracker_started (alg : Algorithm) (b : beam) : Prop :=
  exists st st2,
    stats alg !! b = Some st /\ Stats.is_open st /\
    stats2 alg !! b = Some st2 /\ Stats.is_open st2.

(** *** The invariant of the allocation loop *)

(** A beam refers to a vehicle exactly when the vehicle refers back to it. *)
Definition one_to_one (w : World) : Prop :=
  forall b v, serving_node w !! b = Some v <-> associated_bs w !! v = Some b.

(** Every beam has its two trackers. *)
Definition trackers_known (beams : list beam) (alg : Algorithm) : Prop :=
  forall b, b ∈ beams -> is_Some (stats alg !! b) /\ is_Some (stats2 alg !! b).

(** A bandit has well-formed fields and a pending connection for every
    served vehicle. *)
Definition policy_ok (p : Policy) (w : World) : Prop :=
  match p with
  | PBandit _ s =>
      Bandit_ok s /\
      forall b v, serving_node w !! b = Some v -> is_Some (arm_info s !! v)
  | _ => True
  end.

Definition state_ok (beams : list beam) (w : World) (alg : Algorithm) : Prop :=
  one_to_one w /\
  all_beams alg = beams /\
  trackers_known beams alg /\
  (forall b v, serving_node w !! b = Some v -> tracker_started alg b) /\
  policy_ok (policy alg) w.

Definition scenario_ok (sc : Scenario) : Prop :=
  state_ok (bs_beams sc) (world sc) (my_algorithm sc) /\
  ~ (stop_time sc == 0)%Q.

(** ** [MyVehicle.set_visible_beam] *)

(** The fields of a vehicle for the recording of visible beams. *)
Record Visible : Type := mkVisible {
  visible_beam : option string;
  visible_beam_start : Q;
  visible_beam_list : list (string * Q)
}.

(** As [MyVehicle.__init__] leaves them. *)
Definition Visible_init : Visible := mkVisible None 0 [].

(** [MyVehicle.set_visible_beam]; the argument is a beam or [None]. *)
Definition set_visible_beam (env : Env) (sim_time : Q) (b : option beam)
    (s : Visible) : Visible :=
  let beam := match b with Some b => Some (beam_id env b) | None => None end in
  match visible_beam s, beam with
  | None, Some beam =>                                      (* new beam? *)
      mkVisible (Some beam) sim_time (visible_beam_list s)
  | Some visible, None =>                                   (* lost beam *)
      let conn_tuple := (visible, (sim_time - visible_beam_start s)%Q) in
      mkVisible None (visible_beam_start s)
                (visible_beam_list s ++ [conn_tuple])%list
  | Some visible, Some beam =>
      if String.eqb visible beam then s
      else                                                  (* changed beam *)
        let conn_tuple := (visible, (sim_time - visible_beam_start s)%Q) in
        mkVisible (Some beam) sim_time
                  (visible_beam_list s ++ [conn_tuple])%list
  | None, None => s
  end.

(** *** Calls on one tracker *)

Inductive tracker_call : Type :=
| TBegin (sim_time : Q)
| TEnd (sim_time : Q)
| TReset.

Definition tracker_step (s : Stats.t) (c : tracker_call) : result Stats.t :=
  match c with
  | TBegin sim_time => Stats.conn_begin sim_time s
  | TEnd sim_time => Stats.conn_end sim_time s
  | TReset => Ok (Stats.reset s)
  end.

(** The calls of connections made one after the other, each given by its
    begin and its end time. *)
Definition connections_calls (cs : list (Q * Q)) : list tracker_call :=
  flat_map (fun c : Q * Q => [TBegin (fst c); TEnd (snd c)]) cs.

Definition durations (cs : list (Q * Q)) : list Q :=
  map (fun c : Q * Q => (snd c - fst c)%Q) cs.

Definition is_TBegin (c : tracker_call) : bool :=
  match c with TBegin _ => true | _ => false end.

(** A tracker without a completed connection has no cumulative duration. *)
Definition tracker_sound (s : Stats.t) : Prop :=
  Stats.total_conn s = 0 -> (Stats.total_time s == 0)%Q.




(** *** The buckets of the contextual encoder *)

Definition speed_str (speed : Q) : string :=
  if Qlt_bool speed 40 then "slow"
  else if Qlt_bool speed 50 then "med "
  else "fast".

Definition dist_str (dist : Q) : string :=
  if Qlt_bool dist 180 then "near"
  else if Qlt_bool dist 360 then "med "
  else "far ".

(** The direction group of a heading of at most 360 degrees. *)
Definition dir_group_of (dir : Q) : nat :=
  if Qle_bool dir 90 then 1
  else if Qle_bool dir 180 then 2
  else if Qle_bool dir 270 then 3
  else 4.

(** What follows the beam identity in a key with these buckets. *)
Definition key_tail (use_speed : bool) (speed dist : string) (dir : nat)
  : string :=
  "; " ++ (if use_speed then "speed=" ++ speed ++ "; " else "")
       ++ "dist=" ++ dist ++ "; " ++ "dir=" ++ fmt_02d dir ++ "]".

(** *** Further invariants of a run *)

(** The trackers of a serving beam and, for a bandit, the pending
    connection of the vehicle it serves hold the same start time. *)
Definition starts_agree (w : World) (alg : Algorithm) : Prop :=
  forall b v,
    serving_node w !! b = Some v ->
    exists st st2 start,
      stats alg !! b = Some st /\ Stats.conn_start_time st = Some start /\
      stats2 alg !! b = Some st2 /\ Stats.conn_start_time st2 = Some start /\
      match policy alg with
      | PBandit _ s => exists context, arm_info s !! v = Some (context, start)
      | _ => True
      end.

(** The session tracker of a beam follows its lifetime tracker. *)
Definition trackers_agree (alg : Algorithm) : Prop :=
  forall b st st2,
    stats alg !! b = Some st -> stats2 alg !! b = Some st2 ->
    Stats.conn_start_time st2 = Stats.conn_start_time st /\
    Stats.total_conn st2 <= Stats.total_conn st /\
    tracker_sound st /\ tracker_sound st2.

(** Only beams of the scenario serve. *)
Definition serving_in (beams : list beam) (w : World) : Prop :=
  forall b, is_Some (serving_node w !! b) -> b ∈ beams.

(** A row of the report with its session columns at zero. *)
Definition clear_session (r : outcome_row) : outcome_row :=
  let '(b, this_average, this_count, _, _) := r in
  (b, this_average, this_count, 0%Q, 0).

(** The beam a row of the report is about. *)
Definition row_beam (r : outcome_row) : beam :=
  let '(b, _, _, _, _) := r in b.

(** The session tracker of a beam has no completed connection. *)
Definition session_clear (alg : Algorithm) (b : beam) : Prop :=
  exists s2, stats2 alg !! b = Some s2 /\ Stats.total_conn s2 = 0.

(** The scenario of a bandit that has connected nothing and knows no arm. *)
Definition never_connected (stop : Q) (d : gmap beam Stats.t) (sc : Scenario)
  : Prop :=
  world sc = mkWorld ∅ ∅ /\
  stats (my_algorithm sc) = d /\
  exists cls s,
    policy (my_algorithm sc) = PBandit cls s /\
    arm_total_reward s = ∅ /\
    exploration_stop_time s = stop.

(** ** Concrete inputs *)

(** A vehicle heading exactly 360 degrees, 100 units from beam 1. *)
Definition env_heading_360 : Env :=
  mkEnv (fun b => "BS-" ++ fmt_02d b) (fun _ _ => None) (fun _ => [])
        (fun _ => 45%Q) (fun _ _ => 100%Q) (fun _ => 360%Q).

(** Three beams; vehicle [k] is reached by beam [k] only, and its reply is
    received with quality 10, 25 and 25 for [k] = 1, 2 and 3. *)
Definition env_three : Env :=
  mkEnv (fun b => "BS-" ++ fmt_02d b)
        (fun src dst =>
           match src, dst with
           | Veh 1, BS 1 => Some 10%Q
           | Veh 2, BS 2 => Some 25%Q
           | Veh 3, BS 3 => Some 25%Q
           | BS b, Veh v => if Nat.eqb b v then Some 1%Q else None
           | _, _ => None
           end)
        (fun b => [(Veh b, 0%Q)])
        (fun _ => 45%Q) (fun _ _ => 100%Q) (fun _ => 90%Q).

(** Nothing is connected. *)
Definition world_idle : World := mkWorld ∅ ∅.

(** A [CMAB] and an [MAB] object over the beams 1, 2 and 3, as created. *)
Definition fresh_bandit (cls : BanditClass) : Algorithm :=
  VehicleSelectionAlgorithm_init [1; 2; 3] 2 (PBandit cls (Bandit_init 1)).

(** Vehicle 1 connects to beam 1 at time 2. *)
Definition calls_confirmed : list call := [Confirmed env_three 2 1 1 10].

(** The object after [calls_confirmed]. *)
Definition bandit_confirmed (cls : BanditClass) : Algorithm :=
  match for_each Algorithm_call calls_confirmed (fresh_bandit cls) with
  | Ok alg => alg
  | Raise _ => fresh_bandit cls
  end.

(** Beam 1 serves vehicle 1. *)
Definition world_busy : World := mkWorld {[1 := 1]} {[1 := 1]}.

(** A random source. *)
Definition rng_example : Rng := mkRng (fun n => n * 7 + 3) 0.

(** Bandit fields as created, exploring until time 3. *)
Definition bandit_until_3 : Bandit :=
  mab_setting (Some 3%Q) None (Bandit_init 1).

(** Bandit fields with two known arms: beam 1 with one connection of
    duration 3, beam 2 with two connections of total duration 10. *)
Definition bandit_known : Bandit :=
  mkBandit (<["[BS-01]" := 3%Q]> (<["[BS-02]" := 10%Q]> ∅))
           (<["[BS-01]" := 1]> (<["[BS-02]" := 2]> ∅))
           ∅ 0 1 0 false.

(** Nothing is reachable. *)
Definition env_dead : Env :=
  mkEnv (fun b => "BS-" ++ fmt_02d b) (fun _ _ => None) (fun _ => [])
        (fun _ => 45%Q) (fun _ _ => 100%Q) (fun _ => 90%Q).

(** A run of 100 seconds with [CMAB], exploring until time 30. *)
Definition param_example : Param := mkParam "cmab" 1 100 30 false.

(** Two connections are made, both are lost, and two are made again. *)
Definition events_example : list (Env * Q * Event) :=
  [(env_three, 1%Q, SIM_MOBILITY);
   (env_dead, 4%Q, SIM_MOBILITY);
   (env_three, 50%Q, SIM_MOBILITY);
   (env_three, 100%Q, SIM_END)].

(** Vehicle 1 completes two connections on beam 1, of durations 3 and 4. *)
Definition calls_completed : list call :=
  [Confirmed env_three 2 1 1 10; Lost 5 1 1;
   Confirmed env_three 6 1 1 10; Lost 10 1 1].

(** The bandit fields after [calls_completed], under [MAB]. *)
Definition bandit_completed : Bandit :=
  match for_each (Bandit_call MAB_get_context) calls_completed
                 (mab_setting None None (Bandit_init 1)) with
  | Ok s => s
  | Raise _ => Bandit_init 1
  end.


(** A vehicle that sees beam 1 since time 2. *)
Definition visible_example : Visible := mkVisible (Some "BS-01") 2 [].

(** Two vehicles in the same buckets: speeds 42 and 48, distances 200 and
    300, headings 100 and 170. *)
Definition env_twins : Env :=
  mkEnv (fun b => "BS-" ++ fmt_02d b) (fun _ _ => Some 7%Q)
        (fun _ => [(Veh 1, 0%Q); (Veh 2, 0%Q)])
        (fun v => if Nat.eqb v 1 then 42%Q else 48%Q)
        (fun v _ => if Nat.eqb v 1 then 200%Q else 300%Q)
        (fun v => if Nat.eqb v 1 then 100%Q else 170%Q).

(** A [HighestCQI] object over the beams 1, 2 and 3, as created. *)
Definition fresh_highest : Algorithm :=
  VehicleSelectionAlgorithm_init [1; 2; 3] 2 PHighestCQI.

(** The scenario the events of [events_example] lead to. *)
Definition scenario_example : Scenario :=
  match run events_example (create [1; 2; 3] 2 param_example rng_example) with
  | Ok sc => sc
  | Raise _ => create [1; 2; 3] 2 param_example rng_example
  end.

(** A contextual bandit with the exploration stop time at zero, and the
    scenario the events of [events_example] lead it to. *)
Definition param_cold : Param := mkParam "cmab" 1 100 0 false.

Definition scenario_cold : Scenario :=
  match run events_example (create [1; 2; 3] 2 param_cold rng_example) with
  | Ok sc => sc
  | Raise _ => create [1; 2; 3] 2 param_cold rng_example
  end.

(** The [CMAB] object [on_create] builds: six beams, of which two may be
    active, exploring until time 30. *)
Definition bandit_six : Algorithm :=
  create_algorithm (seq 1 6) 2 param_example.

(** After [calls_completed]: vehicle 2 completes a connection on beam 2, and
    vehicle 1 a third one on beam 1. *)
Definition calls_later : list call :=
  [Confirmed env_three 12 2 2 25; Lost 15 2 2;
   Confirmed env_three 16 1 1 10; Lost 20 1 1].

(** The bandit fields after [calls_completed] and then [calls_later]. *)
Definition bandit_later : Bandit :=
  match for_each (Bandit_call MAB_get_context) calls_later bandit_completed with
  | Ok s => s
  | Raise _ => bandit_completed
  end.

(** * Properties *)

(** ** Comparisons *)

Lemma Qlt_bool_iff (x y : Q) : Qlt_bool x y = true <-> (x < y)%Q.
Proof.
  unfold Qlt_bool. rewrite negb_true_iff.
  split.
  - intros H. apply Qnot_le_lt. intros Hle.
    apply Qle_bool_iff in Hle. congruence.
  - intros H. destruct (Qle_bool y x) eqn:E; [|reflexivity].
    apply Qle_bool_iff in E. exfalso. apply (Qlt_not_le _ _ H E).
Qed.

Lemma Qlt_bool_false_iff (x y : Q) : Qlt_bool x y = false <-> (y <= x)%Q.
Proof.
  unfold Qlt_bool. rewrite negb_false_iff. apply Qle_bool_iff.
Qed.

Lemma Qle_bool_false_iff (x y : Q) : Qle_bool x y = false <-> (y < x)%Q.
Proof.
  split.
  - intros H. apply Qnot_le_lt. intros Hle.
    apply Qle_bool_iff in Hle. congruence.
  - intros H. destruct (Qle_bool x y) eqn:E; [|reflexivity].
    apply Qle_bool_iff in E. exfalso. apply (Qlt_not_le _ _ H E).
Qed.

(** ** The reward tracker *)

Module StatsFacts.
Import Stats.

Lemma conn_begin_ok (t : Q) (s : Stats.t) :
  conn_begin t s = Ok (mk (Some t) (total_time s) (total_conn s)).
Proof. reflexivity. Qed.

Lemma conn_end_open (t start : Q) (s : Stats.t) :
  conn_start_time s = Some start ->
  conn_end t s =
    Ok (mk (Some start) (total_time s + (t - start)) (total_conn s + 1)).
Proof. intros H. unfold conn_end. rewrite H. reflexivity. Qed.

Lemma conn_end_never_begun (t : Q) (s : Stats.t) :
  conn_start_time s = None -> conn_end t s = Raise TypeError.
Proof. intros H. unfold conn_end. rewrite H. reflexivity. Qed.

Lemma conn_end_is_open (t : Q) (s : Stats.t) :
  is_open s -> exists s', conn_end t s = Ok s' /\ is_open s'.
Proof.
  unfold is_open. intros H.
  destruct (conn_start_time s) as [start|] eqn:E; [|congruence].
  eexists. split; [apply conn_end_open; eassumption|].
  simpl. congruence.
Qed.

Lemma reset_is_open (s : Stats.t) : is_open s -> is_open (reset s).
Proof. unfold is_open. destruct s; simpl. auto. Qed.

End StatsFacts.

(** C7, as the code has it.  [conn_begin] never fails: it stores the new
    start time whether or not one is stored already.  [conn_end] fails, with
    a [TypeError], exactly when no start time is stored, that is when
    [conn_begin] was never called on the tracker.  A successful [conn_end]
    adds [sim_time - start] to the cumulative duration and increments the
    count; the stored start time stays in place. *)
Theorem tracker_begin_end (s : Stats.t) (t : Q) :
  Stats.conn_begin t s =
    Ok (Stats.mk (Some t) (Stats.total_time s) (Stats.total_conn s)) /\
  (Stats.conn_start_time s = None -> Stats.conn_end t s = Raise TypeError) /\
  (forall start, Stats.conn_start_time s = Some start ->
     Stats.conn_end t s =
       Ok (Stats.mk (Some start)
                    (Stats.total_time s + (t - start))
                    (Stats.total_conn s + 1))).
Proof.
  split; [apply StatsFacts.conn_begin_ok|].
  split; [apply StatsFacts.conn_end_never_begun|].
  intros start. apply StatsFacts.conn_end_open.
Qed.

Lemma tracker_begin_end_witness :
  Stats.conn_end 7 (Stats.mk None 0 0) = Raise TypeError /\
  Stats.conn_end 7 (Stats.mk (Some 3%Q) 10 2) =
    Ok (Stats.mk (Some 3%Q) (10 + (7 - 3)) 3).
Proof.
  split.
  - apply (proj1 (proj2 (tracker_begin_end (Stats.mk None 0 0) 7))).
    reflexivity.
  - apply (proj2 (proj2 (tracker_begin_end (Stats.mk (Some 3%Q) 10 2) 7)) 3%Q).
    reflexivity.
Defined.

(** C7, as stated, fails on a tracker with an open connection: [conn_begin]
    succeeds on it, and the [conn_end] that follows leaves the start time
    stored, so that a second [conn_end] succeeds as well. *)
Lemma tracker_not_guarded :
  let s := Stats.mk (Some 3%Q) 0 0 in
  Stats.is_open s /\
  ~ raises (Stats.conn_begin 5 s) /\
  exists s',
    Stats.conn_end 7 s = Ok s' /\
    Stats.conn_start_time s' <> None /\
    ~ raises (Stats.conn_end 9 s').
Proof.
  simpl. split; [unfold Stats.is_open; simpl; congruence|].
  split.
  - intros [e He]. discriminate He.
  - eexists. split; [reflexivity|]. simpl.
    split; [congruence|]. intros [e He]. discriminate He.
Qed.

(** C8.  [reset] zeroes the cumulative duration and the count and leaves
    the start time as it is; on a tracker with an open connection, a
    [conn_end] after a [reset] succeeds and the cumulative duration is then
    the time from the original start to the end, for one connection. *)
Theorem reset_keeps_start (s : Stats.t) :
  Stats.total_time (Stats.reset s) = 0%Q /\
  Stats.total_conn (Stats.reset s) = 0 /\
  Stats.conn_start_time (Stats.reset s) = Stats.conn_start_time s /\
  forall start t, Stats.conn_start_time s = Some start ->
    exists s',
      Stats.conn_end t (Stats.reset s) = Ok s' /\
      Stats.total_time s' = (0 + (t - start))%Q /\
      (Stats.total_time s' == t - start)%Q /\
      Stats.total_conn s' = 1.
Proof.
  repeat split.
  intros start t H.
  eexists. split.
  - apply StatsFacts.conn_end_open. simpl. exact H.
  - simpl. repeat split. apply Qplus_0_l.
Qed.

Lemma reset_keeps_start_witness :
  exists s',
    Stats.conn_end 9 (Stats.reset (Stats.mk (Some 4%Q) 30 5)) = Ok s' /\
    Stats.total_time s' = (0 + (9 - 4))%Q /\
    (Stats.total_time s' == 9 - 4)%Q /\
    Stats.total_conn s' = 1.
Proof.
  apply (proj2 (proj2 (proj2 (reset_keeps_start (Stats.mk (Some 4%Q) 30 5))))
           4%Q 9%Q).
  reflexivity.
Defined.

(** ** The context encoders *)

Lemma dir_width_1 : (360 / inject_Z (Z.of_nat 4) * inject_Z (Z.of_nat (0 + 1)) == 90)%Q.
Proof. reflexivity. Qed.
Lemma dir_width_2 : (360 / inject_Z (Z.of_nat 4) * inject_Z (Z.of_nat (1 + 1)) == 180)%Q.
Proof. reflexivity. Qed.
Lemma dir_width_3 : (360 / inject_Z (Z.of_nat 4) * inject_Z (Z.of_nat (2 + 1)) == 270)%Q.
Proof. reflexivity. Qed.
Lemma dir_width_4 : (360 / inject_Z (Z.of_nat 4) * inject_Z (Z.of_nat (3 + 1)) == 360)%Q.
Proof. reflexivity. Qed.

(** The direction loop as a case analysis on the heading. *)
Lemma CMAB_get_context_cases (us : bool) (env : Env) (b : beam) (v : vehicle)
    (cqi : Q) :
  CMAB_get_context us env b v cqi =
    let pre := context_prefix us env b v in
    let h := azimuth env v in
    if Qle_bool h 90 then pre ++ "dir=01]"
    else if Qle_bool h 180 then pre ++ "dir=02]"
    else if Qle_bool h 270 then pre ++ "dir=03]"
    else if Qle_bool h 360 then pre ++ "dir=04]"
    else pre.
Proof.
  unfold CMAB_get_context. cbn [seq dir_loop].
  assert (E : forall x y y', (y == y')%Q -> Qle_bool x y = Qle_bool x y').
  { intros x y y' Hy.
    destruct (Qle_bool x y') eqn:E'.
    - apply Qle_bool_iff. apply Qle_bool_iff in E'. rewrite Hy. exact E'.
    - apply Qle_bool_false_iff. apply Qle_bool_false_iff in E'.
      rewrite Hy. exact E'. }
  rewrite (E _ _ _ dir_width_1), (E _ _ _ dir_width_2),
          (E _ _ _ dir_width_3), (E _ _ _ dir_width_4).
  reflexivity.
Qed.

(** C6, as the code has it.  The direction bucket is the first of the four
    sectors, with upper boundaries 90, 180, 270 and 360 degrees, whose upper
    boundary the heading does not exceed.  A heading of exactly 360 degrees
    is in the fourth bucket; only a heading above 360 degrees is outside all
    buckets, and the key then ends without a direction. *)
Theorem direction_bucket (us : bool) (env : Env) (b : beam) (v : vehicle)
    (cqi : Q) :
  let h := azimuth env v in
  let pre := context_prefix us env b v in
  let key := CMAB_get_context us env b v cqi in
  ((h <= 90)%Q -> key = pre ++ "dir=01]") /\
  ((90 < h)%Q -> (h <= 180)%Q -> key = pre ++ "dir=02]") /\
  ((180 < h)%Q -> (h <= 270)%Q -> key = pre ++ "dir=03]") /\
  ((270 < h)%Q -> (h <= 360)%Q -> key = pre ++ "dir=04]") /\
  ((360 < h)%Q -> key = pre).
Proof.
  intros h pre key. subst key. rewrite CMAB_get_context_cases.
  fold h. fold pre. cbv zeta.
  destruct (Qle_bool h 90) eqn:E1;
    [apply Qle_bool_iff in E1 | apply Qle_bool_false_iff in E1];
  (destruct (Qle_bool h 180) eqn:E2;
    [apply Qle_bool_iff in E2 | apply Qle_bool_false_iff in E2]);
  (destruct (Qle_bool h 270) eqn:E3;
    [apply Qle_bool_iff in E3 | apply Qle_bool_false_iff in E3]);
  (destruct (Qle_bool h 360) eqn:E4;
    [apply Qle_bool_iff in E4 | apply Qle_bool_false_iff in E4]);
  repeat split; intros; try reflexivity; exfalso; lra.
Qed.

Lemma direction_bucket_witness :
  CMAB_get_context false env_heading_360 1 1 0%Q
  = context_prefix false env_heading_360 1 1 ++ "dir=04]".
Proof.
  apply (proj1 (proj2 (proj2 (proj2
           (direction_bucket false env_heading_360 1 1 0%Q)))));
    simpl; lra.
Defined.

(** C6, as stated, fails at a heading of exactly 360 degrees: the key gets
    the fourth bucket, it is not left without one. *)
Lemma heading_360_in_last_bucket :
  (azimuth env_heading_360 1%nat == 360)%Q /\
  CMAB_get_context false env_heading_360 1 1 0%Q = "[BS-01; dist=near; dir=04]" /\
  CMAB_get_context false env_heading_360 1 1 0%Q
    <> context_prefix false env_heading_360 1 1.
Proof.
  split; [reflexivity|].
  split; [reflexivity|].
  intros H. vm_compute in H. discriminate H.
Qed.

Lemma beam_key_inj (id1 id2 : string) : beam_key id1 = beam_key id2 -> id1 = id2.
Proof.
  unfold beam_key. simpl. intros H. injection H as H.
  revert id2 H. induction id1 as [|c id1 IH]; intros [|c2 id2] H; simpl in H.
  - reflexivity.
  - destruct id2; discriminate H.
  - destruct id1; discriminate H.
  - injection H as -> H. f_equal. apply IH. exact H.
Qed.

(** The operations of a [CMAB] object are those of the contextual bandit
    with the contextual encoder. *)
Lemma CMAB_operations (env : Env) (t : Q) (w : World) (g : Rng) (b : beam)
    (v : vehicle) (cqi : Q) (alg : Algorithm) (s : Bandit) :
  policy alg = PBandit CMAB s ->
  do_pairing env t w alg g
    = bandit_choose (CMAB_get_context (use_speed s)) CMAB env t w alg s g /\
  report_conn_confirmed env t b v cqi alg
    = bandit_started (CMAB_get_context (use_speed s)) CMAB env t b v cqi alg s /\
  report_conn_lost t b v alg = bandit_ended CMAB t b v alg s.
Proof.
  intros H. unfold do_pairing, report_conn_confirmed, report_conn_lost.
  rewrite H. repeat split.
Qed.

(** C9.  The key [MAB] computes is made of the beam identity alone: it is
    the same for every vehicle and every quality, and the same as for any
    beam with that identity.  Every operation of an [MAB] object is the
    operation of the contextual bandit run with the context-free encoder. *)
Theorem MAB_is_CMAB_with_context_free_encoder :
  (forall s env b v1 v2 q1 q2,
     get_context MAB s env b v1 q1 = get_context MAB s env b v2 q2) /\
  (forall s env b v q, get_context MAB s env b v q = beam_key (beam_id env b)) /\
  (forall env t w g b v cqi alg s,
     policy alg = PBandit MAB s ->
     do_pairing env t w alg g = bandit_choose context_free MAB env t w alg s g /\
     report_conn_confirmed env t b v cqi alg
       = bandit_started context_free MAB env t b v cqi alg s /\
     report_conn_lost t b v alg = bandit_ended MAB t b v alg s).
Proof.
  split; [reflexivity|].
  split; [reflexivity|].
  intros env t w g b v cqi alg s H.
  unfold do_pairing, report_conn_confirmed, report_conn_lost.
  rewrite H. repeat split.
Qed.

(** ** The arm table *)

Lemma rbind_Ok {A B} (m : result A) (k : A -> result B) (r : B) :
  rbind m k = Ok r -> exists a, m = Ok a /\ k a = Ok r.
Proof. destruct m as [a|e]; simpl; [eauto | discriminate]. Qed.

Lemma getitem_Ok `{Countable K} {V} (d : gmap K V) (k : K) (v : V) :
  getitem d k = Ok v <-> d !! k = Some v.
Proof.
  unfold getitem. destruct (d !! k); split; intros E; congruence.
Qed.

Lemma getitem_missing `{Countable K} {V} (d : gmap K V) (k : K) :
  d !! k = None -> getitem d k = Raise KeyError.
Proof. unfold getitem. intros ->. reflexivity. Qed.

Lemma rewards_of_app (k : string) (l1 l2 : list (string * Q)) :
  rewards_of k (l1 ++ l2) = (rewards_of k l1 ++ rewards_of k l2)%list.
Proof. unfold rewards_of. rewrite List.filter_app, map_app. reflexivity. Qed.

Lemma rewards_of_same (k : string) (d : Q) : rewards_of k [(k, d)] = [d].
Proof. unfold rewards_of. simpl. rewrite String.eqb_refl. reflexivity. Qed.

Lemma rewards_of_other (k k' : string) (d : Q) :
  k <> k' -> rewards_of k [(k', d)] = [].
Proof.
  intros Hne. unfold rewards_of. simpl.
  destruct (String.eqb k k') eqn:E; [|reflexivity].
  apply String.eqb_eq in E. contradiction.
Qed.

Lemma sum_rewards_snoc (rs : list Q) (d : Q) :
  sum_rewards (rs ++ [d]) = (sum_rewards rs + d)%Q.
Proof. unfold sum_rewards. rewrite fold_left_app. reflexivity. Qed.

Lemma arm_table_logs_init (stop : option Q) (us : option bool) (tu : Q) :
  arm_table_logs (mab_setting stop us (Bandit_init tu)) [].
Proof.
  intros k. destruct stop, us; simpl; rewrite !lookup_empty; auto.
Qed.

Lemma arm_table_logs_confirmed (enc : encoder) (env : Env) (t : Q) (b : beam)
    (v : vehicle) (cqi : Q) (s : Bandit) (log : list (string * Q)) :
  arm_table_logs s log ->
  arm_table_logs (CMAB_confirmed enc env t b v cqi s) log.
Proof.
  intros Hinv k. unfold CMAB_confirmed.
  destruct (arm_total_reward s !! enc env b v cqi) as [r0|] eqn:E; simpl.
  - apply Hinv.
  - destruct (decide (enc env b v cqi = k)) as [<-|Hne].
    + rewrite !lookup_insert_eq. specialize (Hinv (enc env b v cqi)).
      rewrite E in Hinv. destruct Hinv as [_ ->]. split; reflexivity.
    + rewrite !lookup_insert_ne by assumption. apply Hinv.
Qed.

Lemma CMAB_confirmed_fields (enc : encoder) (env : Env) (t : Q) (b : beam)
    (v : vehicle) (cqi : Q) (s : Bandit) :
  let s' := CMAB_confirmed enc env t b v cqi s in
  arm_info s' = <[v := (enc env b v cqi, t)]> (arm_info s) /\
  total_pulled s' = total_pulled s /\
  time_unit s' = time_unit s /\
  exploration_stop_time s' = exploration_stop_time s /\
  use_speed s' = use_speed s.
Proof.
  unfold CMAB_confirmed.
  destruct (arm_total_reward s !! enc env b v cqi); repeat split.
Qed.

Lemma CMAB_lost_Ok (t : Q) (b : beam) (v : vehicle) (s s' : Bandit) :
  CMAB_lost t b v s = Ok s' ->
  exists context start r c,
    arm_info s !! v = Some (context, start) /\
    arm_total_reward s !! context = Some r /\
    arm_total_count s !! context = Some c /\
    s' = mkBandit (<[context := (r + (t - start))%Q]> (arm_total_reward s))
                  (<[context := c + 1]> (arm_total_count s))
                  (arm_info s) (total_pulled s) (time_unit s)
                  (exploration_stop_time s) (use_speed s).
Proof.
  unfold CMAB_lost. intros H.
  apply rbind_Ok in H as ([context start] & Hi & H).
  apply rbind_Ok in H as (r & Hr & H).
  apply rbind_Ok in H as (c & Hc & H).
  apply getitem_Ok in Hi, Hr, Hc.
  exists context, start, r, c. repeat split; try assumption. congruence.
Qed.

Lemma arm_table_logs_lost (t : Q) (b : beam) (v : vehicle) (s s' : Bandit)
    (log : list (string * Q)) :
  arm_table_logs s log ->
  CMAB_lost t b v s = Ok s' ->
  exists context start,
    arm_info s !! v = Some (context, start) /\
    arm_info s' = arm_info s /\
    arm_table_logs s' (log ++ [(context, (t - start)%Q)]).
Proof.
  intros Hinv H.
  apply CMAB_lost_Ok in H as (context & start & r & c & Hi & Hr & Hc & ->).
  exists context, start. split; [exact Hi|]. split; [reflexivity|].
  intros k. simpl. rewrite rewards_of_app.
  destruct (decide (context = k)) as [<-|Hne].
  - rewrite !lookup_insert_eq, rewards_of_same.
    specialize (Hinv context). rewrite Hr, Hc in Hinv.
    destruct Hinv as [-> Hlen]. injection Hlen as ->.
    rewrite sum_rewards_snoc, length_app. simpl. split; reflexivity.
  - rewrite !lookup_insert_ne by assumption.
    rewrite rewards_of_other by congruence. rewrite app_nil_r. apply Hinv.
Qed.

Lemma Bandit_calls_log (enc : encoder) (calls : list call) :
  forall (s s' : Bandit) (log : list (string * Q)),
    arm_table_logs s log ->
    for_each (Bandit_call enc) calls s = Ok s' ->
    arm_table_logs s' (log ++ records enc (arm_info s) calls) /\
    time_unit s' = time_unit s.
Proof.
  induction calls as [|c calls IH]; intros s s' log Hinv Hrun; simpl in *.
  - injection Hrun as <-. rewrite app_nil_r. auto.
  - apply rbind_Ok in Hrun as (s1 & Hc & Hrun).
    destruct c as [env t b v cqi | t b v]; simpl in Hc.
    + injection Hc as <-.
      apply (IH _ _ log) in Hrun;
        [|apply arm_table_logs_confirmed; exact Hinv].
      destruct Hrun as [Hlog Htu].
      destruct (CMAB_confirmed_fields enc env t b v cqi s)
        as (Hi & _ & Htu' & _).
      rewrite Hi in Hlog. split; [exact Hlog|]. congruence.
    + destruct (arm_table_logs_lost _ _ _ _ _ _ Hinv Hc)
        as (context & start & Hi & Hinfo & Hinv1).
      apply (IH _ _ _ Hinv1) in Hrun. destruct Hrun as [Hlog Htu].
      rewrite Hi. rewrite Hinfo in Hlog.
      rewrite <- app_assoc in Hlog. simpl in Hlog. split; [exact Hlog|].
      rewrite Htu. apply CMAB_lost_Ok in Hc as (? & ? & ? & ? & _ & _ & _ & ->).
      reflexivity.
Qed.

Lemma get_past_reward_logs (s : Bandit) (log : list (string * Q)) (k : string) :
  arm_table_logs s log ->
  get_past_reward s k = Ok (running_average (time_unit s) k log).
Proof.
  intros Hinv. specialize (Hinv k).
  unfold get_past_reward, running_average.
  destruct (arm_total_reward s !! k) as [r|].
  - destruct Hinv as [-> Hc]. rewrite (proj2 (getitem_Ok _ _ _) Hc). simpl.
    destruct (rewards_of k log) as [|d rs]; reflexivity.
  - destruct Hinv as [_ ->]. reflexivity.
Qed.

Lemma Bandit_calls_predict (enc : encoder) (tu : Q) (stop : option Q)
    (us : option bool) (calls : list call) (s : Bandit) :
  for_each (Bandit_call enc) calls (mab_setting stop us (Bandit_init tu)) = Ok s ->
  forall k : string,
    get_past_reward s k = Ok (running_average tu k (records enc ∅ calls)).
Proof.
  intros Hrun k.
  destruct (Bandit_calls_log enc calls _ _ [] (arm_table_logs_init stop us tu) Hrun)
    as [Hlog Htu].
  simpl in Hlog.
  assert (Hinfo : arm_info (mab_setting stop us (Bandit_init tu)) = ∅)
    by (destruct stop, us; reflexivity).
  assert (Htu0 : time_unit (mab_setting stop us (Bandit_init tu)) = tu)
    by (destruct stop, us; reflexivity).
  rewrite Hinfo in Hlog. rewrite Htu0 in Htu.
  rewrite <- Htu. apply get_past_reward_logs, Hlog.
Qed.

(** C5.  After any sequence of bookkeeping calls that goes through, the
    predicted reward of a context is [None] when no connection was completed
    under it, and otherwise the sum of the rewards recorded for it divided
    by their number, times the time unit. *)
Theorem predict_is_running_average (enc : encoder) (tu : Q) (stop : option Q)
    (us : option bool) (calls : list call) (s : Bandit) :
  for_each (Bandit_call enc) calls (mab_setting stop us (Bandit_init tu)) = Ok s ->
  forall k : string,
    get_past_reward s k = Ok (running_average tu k (records enc ∅ calls)) /\
    (rewards_of k (records enc ∅ calls) = [] -> get_past_reward s k = Ok None) /\
    (rewards_of k (records enc ∅ calls) <> [] ->
     get_past_reward s k =
       Ok (Some (sum_rewards (rewards_of k (records enc ∅ calls))
                 / inject_Z (Z.of_nat (length (rewards_of k (records enc ∅ calls))))
                 * tu)%Q)).
Proof.
  intros Hrun k.
  pose proof (Bandit_calls_predict enc tu stop us calls s Hrun k) as Hp.
  split; [exact Hp|]. unfold running_average in Hp. split.
  - intros E. rewrite E in Hp. exact Hp.
  - intros E. destruct (rewards_of k (records enc ∅ calls)); [congruence|exact Hp].
Qed.

(** ** Well-formed bandit fields are kept *)

Lemma Bandit_ok_init (stop : option Q) (us : option bool) (tu : Q) :
  Bandit_ok (mab_setting stop us (Bandit_init tu)).
Proof.
  split.
  - intros k. destruct stop, us; simpl; rewrite !lookup_empty;
      split; intros [x Hx]; discriminate Hx.
  - intros v context start. destruct stop, us; simpl;
      rewrite lookup_empty; discriminate.
Qed.

Lemma Bandit_ok_pulled (s : Bandit) : Bandit_ok s -> Bandit_ok (pulled s).
Proof. intros H. exact H. Qed.

Lemma Bandit_ok_confirmed (enc : encoder) (env : Env) (t : Q) (b : beam)
    (v : vehicle) (cqi : Q) (s : Bandit) :
  Bandit_ok s -> Bandit_ok (CMAB_confirmed enc env t b v cqi s).
Proof.
  intros [Hsync Hknown]. unfold CMAB_confirmed.
  destruct (arm_total_reward s !! enc env b v cqi) as [r0|] eqn:E; split;
    unfold arm_sync, arm_info_known; simpl.
  - exact Hsync.
  - intros v' context start. destruct (decide (v = v')) as [<-|Hne].
    + rewrite lookup_insert_eq. intros [= <- <-]. rewrite E. eauto.
    + rewrite lookup_insert_ne by assumption. apply Hknown.
  - intros k. destruct (decide (enc env b v cqi = k)) as [<-|Hne].
    + rewrite !lookup_insert_eq. split; eauto.
    + rewrite !lookup_insert_ne by assumption. apply Hsync.
  - intros v' context start. destruct (decide (v = v')) as [<-|Hne].
    + rewrite lookup_insert_eq. intros [= <- <-].
      rewrite lookup_insert_eq. eauto.
    + rewrite lookup_insert_ne by assumption. intros Hi.
      destruct (decide (enc env b v cqi = context)) as [<-|Hne'].
      * rewrite lookup_insert_eq. eauto.
      * rewrite lookup_insert_ne by assumption. eapply Hknown, Hi.
Qed.

Lemma Bandit_ok_lost (t : Q) (b : beam) (v : vehicle) (s s' : Bandit) :
  Bandit_ok s -> CMAB_lost t b v s = Ok s' -> Bandit_ok s'.
Proof.
  intros [Hsync Hknown] H.
  apply CMAB_lost_Ok in H as (context & start & r & c & Hi & Hr & Hc & ->).
  split; unfold arm_sync, arm_info_known; simpl.
  - intros k. destruct (decide (context = k)) as [<-|Hne].
    + rewrite !lookup_insert_eq. split; eauto.
    + rewrite !lookup_insert_ne by assumption. apply Hsync.
  - intros v' context' start' Hi'. simpl in Hi'.
    destruct (decide (context = context')) as [<-|Hne].
    + rewrite lookup_insert_eq. eauto.
    + rewrite lookup_insert_ne by assumption. eapply Hknown, Hi'.
Qed.

(** With well-formed fields, [CMAB_lost] goes through for a vehicle with a
    pending connection, and adds its duration to the context stored. *)
Lemma CMAB_lost_pending (t : Q) (b : beam) (v : vehicle) (s : Bandit)
    (context : string) (start : Q) :
  Bandit_ok s ->
  arm_info s !! v = Some (context, start) ->
  exists r c,
    arm_total_reward s !! context = Some r /\
    arm_total_count s !! context = Some c /\
    CMAB_lost t b v s =
      Ok (mkBandit (<[context := (r + (t - start))%Q]> (arm_total_reward s))
                   (<[context := c + 1]> (arm_total_count s))
                   (arm_info s) (total_pulled s) (time_unit s)
                   (exploration_stop_time s) (use_speed s)).
Proof.
  intros [Hsync Hknown] Hi.
  destruct (Hknown _ _ _ Hi) as [r Hr].
  destruct (proj1 (Hsync context) (ex_intro _ r Hr)) as [c Hc].
  exists r, c. split; [exact Hr|]. split; [exact Hc|].
  unfold CMAB_lost.
  rewrite (proj2 (getitem_Ok _ _ _) Hi). simpl.
  rewrite (proj2 (getitem_Ok _ _ _) Hr). simpl.
  rewrite (proj2 (getitem_Ok _ _ _) Hc). reflexivity.
Qed.

Lemma CMAB_lost_not_pending (t : Q) (b : beam) (v : vehicle) (s : Bandit) :
  arm_info s !! v = None -> CMAB_lost t b v s = Raise KeyError.
Proof.
  intros Hi. unfold CMAB_lost. rewrite (getitem_missing _ _ Hi). reflexivity.
Qed.

Lemma Bandit_calls_ok (enc : encoder) (calls : list call) :
  forall s s' : Bandit,
    Bandit_ok s ->
    for_each (Bandit_call enc) calls s = Ok s' ->
    Bandit_ok s' /\ use_speed s' = use_speed s /\
    forall v, arm_info s' !! v = last_confirmed enc v calls (arm_info s !! v).
Proof.
  induction calls as [|c calls IH]; intros s s' Hok Hrun; simpl in *.
  - injection Hrun as <-. auto.
  - apply rbind_Ok in Hrun as (s1 & Hc & Hrun).
    destruct c as [env t b v cqi | t b v]; simpl in Hc.
    + injection Hc as <-.
      apply IH in Hrun; [|apply Bandit_ok_confirmed; exact Hok].
      destruct Hrun as (Hok' & Hus & Hinfo).
      destruct (CMAB_confirmed_fields enc env t b v cqi s)
        as (Hi & _ & _ & _ & Hus').
      split; [exact Hok'|]. split; [congruence|].
      intros v'. rewrite Hinfo, Hi.
      destruct (Nat.eqb v' v) eqn:E.
      * apply Nat.eqb_eq in E as ->. rewrite lookup_insert_eq. reflexivity.
      * apply Nat.eqb_neq in E. rewrite lookup_insert_ne by congruence.
        reflexivity.
    + pose proof (Bandit_ok_lost _ _ _ _ _ Hok Hc) as Hok1.
      apply IH in Hrun; [|exact Hok1].
      destruct Hrun as (Hok' & Hus & Hinfo).
      apply CMAB_lost_Ok in Hc as (? & ? & ? & ? & _ & _ & _ & ->).
      simpl in *. auto.
Qed.

(** ** Bookkeeping on the algorithm object *)

Lemma VSA_report_conn_confirmed_Ok (t : Q) (b : beam) (v : vehicle) (cqi : Q)
    (alg alg' : Algorithm) :
  VSA_report_conn_confirmed t b v cqi alg = Ok alg' ->
  exists st st2,
    stats alg !! b = Some st /\ stats2 alg !! b = Some st2 /\
    alg' = mkAlgorithm (all_beams alg) (max_active_sector alg)
             (<[b := Stats.mk (Some t) (Stats.total_time st) (Stats.total_conn st)]>
                (stats alg))
             (<[b := Stats.mk (Some t) (Stats.total_time st2) (Stats.total_conn st2)]>
                (stats2 alg))
             (policy alg).
Proof.
  unfold VSA_report_conn_confirmed. intros H.
  apply rbind_Ok in H as (st & Hst & H). simpl in H.
  apply rbind_Ok in H as (st2 & Hst2 & H). simpl in H.
  apply getitem_Ok in Hst, Hst2.
  exists st, st2. repeat split; try assumption. congruence.
Qed.

Lemma VSA_report_conn_confirmed_known (t : Q) (b : beam) (v : vehicle)
    (cqi : Q) (alg : Algorithm) :
  is_Some (stats alg !! b) -> is_Some (stats2 alg !! b) ->
  exists alg', VSA_report_conn_confirmed t b v cqi alg = Ok alg'.
Proof.
  intros [st Hst] [st2 Hst2]. unfold VSA_report_conn_confirmed.
  rewrite (proj2 (getitem_Ok _ _ _) Hst). simpl.
  rewrite (proj2 (getitem_Ok _ _ _) Hst2). simpl. eauto.
Qed.

Lemma VSA_report_conn_lost_Ok (t : Q) (b : beam) (v : vehicle)
    (alg alg' : Algorithm) :
  VSA_report_conn_lost t b v alg = Ok alg' ->
  exists st st2 start start2,
    stats alg !! b = Some st /\ stats2 alg !! b = Some st2 /\
    Stats.conn_start_time st = Some start /\
    Stats.conn_start_time st2 = Some start2 /\
    alg' = mkAlgorithm (all_beams alg) (max_active_sector alg)
             (<[b := Stats.mk (Some start)
                              (Stats.total_time st + (t - start))
                              (Stats.total_conn st + 1)]> (stats alg))
             (<[b := Stats.mk (Some start2)
                              (Stats.total_time st2 + (t - start2))
                              (Stats.total_conn st2 + 1)]> (stats2 alg))
             (policy alg).
Proof.
  unfold VSA_report_conn_lost. intros H.
  apply rbind_Ok in H as (st & Hst & H).
  apply rbind_Ok in H as (st' & Hend & H).
  apply rbind_Ok in H as (st2 & Hst2 & H).
  apply rbind_Ok in H as (st2' & Hend2 & H).
  apply getitem_Ok in Hst, Hst2.
  unfold Stats.conn_end in Hend, Hend2.
  destruct (Stats.conn_start_time st) as [start|] eqn:E; [|discriminate].
  destruct (Stats.conn_start_time st2) as [start2|] eqn:E2; [|discriminate].
  exists st, st2, start, start2. repeat split; try assumption. congruence.
Qed.

Lemma VSA_report_conn_lost_started (t : Q) (b : beam) (v : vehicle)
    (alg : Algorithm) :
  tracker_started alg b ->
  exists alg', VSA_report_conn_lost t b v alg = Ok alg'.
Proof.
  intros (st & st2 & Hst & Ho & Hst2 & Ho2).
  unfold VSA_report_conn_lost, Stats.is_open in *.
  rewrite (proj2 (getitem_Ok _ _ _) Hst). simpl.
  unfold Stats.conn_end.
  destruct (Stats.conn_start_time st) as [start|]; [|congruence]. simpl.
  rewrite (proj2 (getitem_Ok _ _ _) Hst2). simpl.
  destruct (Stats.conn_start_time st2) as [start2|]; [|congruence]. simpl.
  eauto.
Qed.

(** Both trackers of the beam were just written with a start time. *)
Ltac started_here :=
  do 2 eexists; simpl; rewrite !lookup_insert_eq;
  (split; [reflexivity|]);
  (split; [unfold Stats.is_open; simpl; congruence|]);
  (split; [reflexivity|unfold Stats.is_open; simpl; congruence]).

Lemma tracker_started_confirmed (t : Q) (b b' : beam) (v : vehicle) (cqi : Q)
    (alg alg' : Algorithm) :
  VSA_report_conn_confirmed t b v cqi alg = Ok alg' ->
  tracker_started alg' b /\ (tracker_started alg b' -> tracker_started alg' b').
Proof.
  intros H. apply VSA_report_conn_confirmed_Ok in H
    as (st & st2 & Hst & Hst2 & ->).
  assert (Hb : tracker_started
                 (mkAlgorithm (all_beams alg) (max_active_sector alg)
                    (<[b := Stats.mk (Some t) (Stats.total_time st) (Stats.total_conn st)]>
                       (stats alg))
                    (<[b := Stats.mk (Some t) (Stats.total_time st2) (Stats.total_conn st2)]>
                       (stats2 alg))
                    (policy alg)) b).
  { started_here. }
  split; [exact Hb|].
  intros Hs. destruct (decide (b = b')) as [<-|Hne]; [exact Hb|].
  destruct Hs as (s1 & s2 & H1 & Ho1 & H2 & Ho2).
  exists s1, s2. simpl. rewrite !lookup_insert_ne by assumption. auto.
Qed.

Lemma tracker_started_lost (t : Q) (b b' : beam) (v : vehicle)
    (alg alg' : Algorithm) :
  VSA_report_conn_lost t b v alg = Ok alg' ->
  tracker_started alg b' -> tracker_started alg' b'.
Proof.
  intros H Hs. apply VSA_report_conn_lost_Ok in H
    as (st & st2 & start & start2 & Hst & Hst2 & E & E2 & ->).
  destruct (decide (b = b')) as [<-|Hne].
  - started_here.
  - destruct Hs as (s1 & s2 & H1 & Ho1 & H2 & Ho2).
    exists s1, s2. simpl. rewrite !lookup_insert_ne by assumption. auto.
Qed.

Lemma VSA_report_conn_lost_not_started (t : Q) (b : beam) (v : vehicle)
    (alg : Algorithm) :
  ~ tracker_started alg b -> raises (VSA_report_conn_lost t b v alg).
Proof.
  intros Hn. destruct (VSA_report_conn_lost t b v alg) as [alg'|e] eqn:E.
  - exfalso. apply Hn. apply VSA_report_conn_lost_Ok in E
      as (st & st2 & start & start2 & Hst & Hst2 & E1 & E2 & _).
    exists st, st2. unfold Stats.is_open. repeat split; congruence.
  - exists e. reflexivity.
Qed.

Lemma get_context_use_speed (cls : BanditClass) (s s' : Bandit) :
  use_speed s' = use_speed s -> get_context cls s' = get_context cls s.
Proof. intros H. destruct cls; simpl; [rewrite H|]; reflexivity. Qed.

(** The calls on an object of a bandit class are the calls on its bandit
    fields, with the encoder of the class. *)
Lemma Algorithm_calls_bandit (cls : BanditClass) (calls : list call) :
  forall (alg alg' : Algorithm) (s : Bandit),
    Bandit_ok s ->
    policy alg = PBandit cls s ->
    for_each Algorithm_call calls alg = Ok alg' ->
    exists s',
      policy alg' = PBandit cls s' /\
      for_each (Bandit_call (get_context cls s)) calls s = Ok s'.
Proof.
  induction calls as [|c calls IH]; intros alg alg' s Hok Hp Hrun; simpl in *.
  - injection Hrun as <-. eauto.
  - apply rbind_Ok in Hrun as (alg1 & Hc & Hrun).
    destruct c as [env t b v cqi | t b v]; simpl in Hc.
    + unfold report_conn_confirmed in Hc. rewrite Hp in Hc.
      apply rbind_Ok in Hc as (alg2 & Hv & Hc). injection Hc as <-.
      eapply IH in Hrun;
        [| apply Bandit_ok_confirmed; exact Hok | reflexivity].
      destruct Hrun as (s' & Hp' & Hrun). exists s'. split; [exact Hp'|].
      simpl. rewrite (get_context_use_speed cls s) in Hrun; [exact Hrun|].
      apply (CMAB_confirmed_fields (get_context cls s) env t b v cqi s).
    + unfold report_conn_lost in Hc. rewrite Hp in Hc.
      apply rbind_Ok in Hc as (alg2 & Hv & Hc).
      apply rbind_Ok in Hc as (s1 & Hl & Hc). injection Hc as <-.
      pose proof (Bandit_ok_lost _ _ _ _ _ Hok Hl) as Hok1.
      eapply IH in Hrun; [| exact Hok1 | reflexivity].
      destruct Hrun as (s' & Hp' & Hrun). exists s'. split; [exact Hp'|].
      simpl. rewrite Hl. simpl.
      rewrite (get_context_use_speed cls s) in Hrun; [exact Hrun|].
      apply CMAB_lost_Ok in Hl as (? & ? & ? & ? & _ & _ & _ & ->).
      reflexivity.
Qed.

(** The prediction after bookkeeping calls on a bandit object, made through
    [report_conn_confirmed] and [report_conn_lost]. *)
Lemma predict_after_bookkeeping (cls : BanditClass) (beams : list beam)
    (K : nat) (tu : Q) (stop : option Q) (us : option bool)
    (calls : list call) (alg : Algorithm) :
  let s0 := mab_setting stop us (Bandit_init tu) in
  for_each Algorithm_call calls
           (VehicleSelectionAlgorithm_init beams K (PBandit cls s0)) = Ok alg ->
  exists s,
    policy alg = PBandit cls s /\
    forall k : string,
      get_past_reward s k
      = Ok (running_average tu k (records (get_context cls s0) ∅ calls)).
Proof.
  intros s0 Hrun.
  destruct (Algorithm_calls_bandit cls calls
              (VehicleSelectionAlgorithm_init beams K (PBandit cls s0))
              alg s0 (Bandit_ok_init stop us tu) eq_refl Hrun)
    as (s & Hp & Hb).
  exists s. split; [exact Hp|].
  apply (Bandit_calls_predict _ tu stop us calls s Hb).
Qed.

Lemma report_conn_lost_bandit (cls : BanditClass) (t : Q) (b : beam)
    (v : vehicle) (alg : Algorithm) (s : Bandit) :
  policy alg = PBandit cls s ->
  tracker_started alg b ->
  exists alg1,
    VSA_report_conn_lost t b v alg = Ok alg1 /\
    report_conn_lost t b v alg =
      (do s <- CMAB_lost t b v s; Ok (with_policy alg1 (PBandit cls s))).
Proof.
  intros Hp Hs.
  destruct (VSA_report_conn_lost_started t b v alg Hs) as [alg1 H1].
  exists alg1. split; [exact H1|].
  unfold report_conn_lost. rewrite Hp, H1. reflexivity.
Qed.

(** C10, as the code has it.  After any sequence of bookkeeping calls on a
    bandit object: when no [report_conn_confirmed] was made for the vehicle,
    [report_conn_lost] fails, and it fails with a [KeyError] when the
    trackers of the beam hold a start time (otherwise the tracker fails
    before the lookup); when one was made and the trackers of the beam hold
    a start time, [report_conn_lost] goes through and adds the end time
    minus the start time of the last [report_conn_confirmed] for the
    vehicle to the cumulative reward of the context stored at that call,
    and one to its count. *)
Theorem lost_uses_last_confirmed (cls : BanditClass) (beams : list beam)
    (K : nat) (tu : Q) (stop : option Q) (us : option bool)
    (calls : list call) (alg : Algorithm) :
  let s0 := mab_setting stop us (Bandit_init tu) in
  let enc := get_context cls s0 in
  for_each Algorithm_call calls
           (VehicleSelectionAlgorithm_init beams K (PBandit cls s0)) = Ok alg ->
  forall (t : Q) (b : beam) (v : vehicle),
    (last_confirmed enc v calls None = None ->
       raises (report_conn_lost t b v alg) /\
       (tracker_started alg b -> report_conn_lost t b v alg = Raise KeyError)) /\
    (forall context start,
       last_confirmed enc v calls None = Some (context, start) ->
       tracker_started alg b ->
       exists s r c alg' s',
         policy alg = PBandit cls s /\
         arm_total_reward s !! context = Some r /\
         arm_total_count s !! context = Some c /\
         report_conn_lost t b v alg = Ok alg' /\
         policy alg' = PBandit cls s' /\
         arm_total_reward s'
           = <[context := (r + (t - start))%Q]> (arm_total_reward s) /\
         arm_total_count s' = <[context := c + 1]> (arm_total_count s) /\
         arm_info s' = arm_info s).
Proof.
  intros s0 enc Hrun t b v.
  pose proof (Bandit_ok_init stop us tu) as Hok0. fold s0 in Hok0.
  destruct (Algorithm_calls_bandit cls calls
              (VehicleSelectionAlgorithm_init beams K (PBandit cls s0))
              alg s0 Hok0 eq_refl Hrun)
    as (s & Hp & Hb).
  destruct (Bandit_calls_ok _ calls _ _ Hok0 Hb) as (Hok & _ & Hinfo).
  assert (E0 : arm_info s0 !! v = None)
    by (subst s0; destruct stop, us; apply lookup_empty).
  specialize (Hinfo v). rewrite E0 in Hinfo. fold enc in Hinfo.
  split.
  - intros Hlast. rewrite Hlast in Hinfo.
    assert (Hkey : tracker_started alg b ->
                   report_conn_lost t b v alg = Raise KeyError).
    { intros Hs.
      destruct (report_conn_lost_bandit cls t b v alg s Hp Hs)
        as (alg1 & _ & ->).
      rewrite (CMAB_lost_not_pending _ _ _ _ Hinfo). reflexivity. }
    split; [|exact Hkey].
    unfold report_conn_lost. rewrite Hp.
    destruct (VSA_report_conn_lost t b v alg) as [alg1|e].
    + exists KeyError. simpl.
      rewrite (CMAB_lost_not_pending _ _ _ _ Hinfo). reflexivity.
    + exists e. reflexivity.
  - intros context start Hlast Hs. rewrite Hlast in Hinfo.
    destruct (CMAB_lost_pending t b v s context start Hok Hinfo)
      as (r & c & Hr & Hc & Hl).
    destruct (report_conn_lost_bandit cls t b v alg s Hp Hs)
      as (alg1 & _ & Hrep).
    rewrite Hl in Hrep. simpl in Hrep.
    do 5 eexists. split; [exact Hp|]. split; [exact Hr|]. split; [exact Hc|].
    split; [exact Hrep|]. simpl. repeat split.
Qed.

Lemma bandit_confirmed_run (cls : BanditClass) :
  for_each Algorithm_call calls_confirmed
    (VehicleSelectionAlgorithm_init [1; 2; 3] 2
       (PBandit cls (mab_setting None None (Bandit_init 1))))
  = Ok (bandit_confirmed cls).
Proof. destruct cls; vm_compute; reflexivity. Qed.

Lemma bandit_confirmed_started (cls : BanditClass) :
  tracker_started (bandit_confirmed cls) 1.
Proof.
  destruct cls;
    (eexists _, _; split; [vm_compute; reflexivity|];
     split; [vm_compute; congruence|];
     split; [vm_compute; reflexivity|vm_compute; congruence]).
Qed.

Lemma lost_uses_last_confirmed_witness :
  report_conn_lost 9 1 2 (bandit_confirmed CMAB) = Raise KeyError /\
  exists s r c alg' s',
    policy (bandit_confirmed CMAB) = PBandit CMAB s /\
    arm_total_reward s !! "[BS-01; dist=near; dir=01]" = Some r /\
    arm_total_count s !! "[BS-01; dist=near; dir=01]" = Some c /\
    report_conn_lost 9 1 1 (bandit_confirmed CMAB) = Ok alg' /\
    policy alg' = PBandit CMAB s' /\
    arm_total_reward s'
      = <["[BS-01; dist=near; dir=01]" := (r + (9 - 2))%Q]> (arm_total_reward s) /\
    arm_total_count s'
      = <["[BS-01; dist=near; dir=01]" := c + 1]> (arm_total_count s) /\
    arm_info s' = arm_info s.
Proof.
  split.
  - apply (proj1 (lost_uses_last_confirmed CMAB [1; 2; 3] 2 1 None None
                    calls_confirmed (bandit_confirmed CMAB)
                    (bandit_confirmed_run CMAB) 9 1 2)).
    + reflexivity.
    + apply bandit_confirmed_started.
  - apply (proj2 (lost_uses_last_confirmed CMAB [1; 2; 3] 2 1 None None
                    calls_confirmed (bandit_confirmed CMAB)
                    (bandit_confirmed_run CMAB) 9 1 1)).
    + reflexivity.
    + apply bandit_confirmed_started.
Defined.

(** C10, as stated, fails in two places.  On a bandit object on which no
    [report_conn_confirmed] was ever made, [report_conn_lost] fails with a
    [TypeError] of the tracker, not with a missing-key error.  And after a
    [report_conn_confirmed] for vehicle 1 on beam 1, a [report_conn_lost]
    for the same vehicle on beam 2 adds no reward: it fails with the same
    [TypeError]. *)
Lemma lost_fails_in_the_tracker :
  report_conn_lost 5 1 1 (fresh_bandit CMAB) = Raise TypeError /\
  report_conn_lost 5 1 1 (fresh_bandit CMAB) <> Raise KeyError /\
  for_each Algorithm_call calls_confirmed (fresh_bandit CMAB)
    = Ok (bandit_confirmed CMAB) /\
  report_conn_lost 9 2 1 (bandit_confirmed CMAB) = Raise TypeError.
Proof.
  split; [vm_compute; reflexivity|].
  split; [vm_compute; discriminate|].
  split; vm_compute; reflexivity.
Qed.

(** ** Scans and their candidates *)

Lemma for_each_pure {A S} (body : S -> A -> result S) (f : S -> A -> S)
    (l : list A) :
  (forall st x, x ∈ l -> body st x = Ok (f st x)) ->
  forall st, for_each body l st = Ok (fold_left f l st).
Proof.
  induction l as [|x l IH]; intros Hb st; simpl; [reflexivity|].
  rewrite Hb by apply list_elem_of_here. simpl.
  apply IH. intros st' y Hy. apply Hb. apply list_elem_of_further, Hy.
Qed.

Lemma fold_left_flat_map {A B S} (f : S -> B -> S) (g : A -> list B)
    (l : list A) (st : S) :
  fold_left (fun st a => fold_left f (g a) st) l st
  = fold_left f (flat_map g l) st.
Proof.
  revert st. induction l as [|a l IH]; intros st; simpl; [reflexivity|].
  rewrite fold_left_app. apply IH.
Qed.

Lemma cqi_scan_candidates (env : Env) (w : World) (b : beam)
    (entries : list (node * Q)) (st : option Q * option pairing) :
  fold_left (cqi_step env w b) entries st
  = fold_left highest_step
      (flat_map
         (fun entry : node * Q =>
            match fst entry with
            | BS _ => []
            | Veh v =>
                match associated_bs w !! v with
                | Some _ => []
                | None =>
                    match unicast env (Veh v) (BS b) with
                    | None => []
                    | Some cqi => [(b, v, cqi)]
                    end
                end
            end) entries) st.
Proof.
  revert st. induction entries as [|[n sig] entries IH]; intros st; simpl;
    [reflexivity|].
  rewrite fold_left_app, <- IH. f_equal.
  unfold cqi_step. simpl.
  destruct n as [b'|v]; [reflexivity|].
  destruct (associated_bs w !! v); [reflexivity|].
  destruct (unicast env (Veh v) (BS b)); reflexivity.
Qed.

Lemma HighestCQI_do_pairing_candidates (beams : list beam) (env : Env)
    (w : World) :
  HighestCQI_do_pairing beams env w
  = snd (fold_left highest_step (candidates beams env w) (None, None)).
Proof.
  unfold HighestCQI_do_pairing, candidates.
  destruct (available_beams beams w) as [|b0 bs] eqn:E; [reflexivity|].
  rewrite <- fold_left_flat_map. f_equal.
  generalize (b0 :: bs). intros l. generalize (@None Q, @None pairing).
  induction l as [|b l IH]; intros st; simpl; [reflexivity|].
  rewrite cqi_scan_candidates. apply IH.
Qed.

(** *** The first highest candidate *)

Lemma first_highest_below (score : pairing -> option Q) (cs : list pairing)
    (c : pairing) (p : Q) :
  first_highest score cs c -> score c = Some p ->
  forall x q, x ∈ cs -> score x = Some q -> (q <= p)%Q.
Proof.
  intros (pre & post & p' & -> & Hc & Hpre & Hpost) Hp x q Hx Hq.
  assert (p' = p) as -> by congruence.
  apply elem_of_app in Hx as [Hx|Hx].
  - apply Qlt_le_weak. eapply Hpre; eassumption.
  - apply elem_of_cons in Hx as [->|Hx].
    + assert (q = p) as -> by congruence. apply Qle_refl.
    + eapply Hpost; eassumption.
Qed.

Lemma first_highest_keep (score : pairing -> option Q) (cs : list pairing)
    (c x : pairing) (p : Q) :
  first_highest score cs c -> score c = Some p ->
  (forall q, score x = Some q -> (q <= p)%Q) ->
  first_highest score (cs ++ [x]) c.
Proof.
  intros (pre & post & p' & -> & Hc & Hpre & Hpost) Hp Hx.
  assert (p' = p) as -> by congruence.
  exists pre, (post ++ [x])%list, p.
  split; [rewrite <- app_assoc; reflexivity|].
  split; [exact Hc|]. split; [exact Hpre|].
  intros y q Hy Hq. apply elem_of_app in Hy as [Hy|Hy].
  - eapply Hpost; eassumption.
  - apply list_elem_of_singleton in Hy as ->. apply Hx, Hq.
Qed.

Lemma first_highest_new (score : pairing -> option Q) (cs : list pairing)
    (x : pairing) (p : Q) :
  score x = Some p ->
  (forall y q, y ∈ cs -> score y = Some q -> (q < p)%Q) ->
  first_highest score (cs ++ [x]) x.
Proof.
  intros Hx Hcs. exists cs, [], p.
  split; [reflexivity|]. split; [exact Hx|]. split; [exact Hcs|].
  intros y q Hy. apply elem_of_nil in Hy. contradiction.
Qed.

(** What the scan of [HighestCQI] holds after the candidates [cs]. *)
Lemma highest_scan (cs : list pairing) :
  match cs with
  | [] => fold_left highest_step cs (None, None) = (None, None)
  | _ =>
      exists c,
        fold_left highest_step cs (None, None) = (Some (cqi_of c), Some c) /\
        first_highest (fun c => Some (cqi_of c)) cs c
  end.
Proof.
  induction cs as [|x cs IH] using rev_ind; [reflexivity|].
  assert (Hgoal : exists c,
            fold_left highest_step (cs ++ [x]) (None, None)
              = (Some (cqi_of c), Some c) /\
            first_highest (fun c => Some (cqi_of c)) (cs ++ [x]) c).
  { rewrite fold_left_app. simpl.
    destruct cs as [|c0 cs'].
    - simpl. exists x. split; [reflexivity|].
      apply (first_highest_new _ [] x (cqi_of x)); [reflexivity|].
      intros y q Hy. apply elem_of_nil in Hy. contradiction.
    - destruct IH as (c & -> & Hfirst). unfold highest_step. simpl.
      destruct (Qlt_bool (cqi_of c) (cqi_of x)) eqn:E.
      + apply Qlt_bool_iff in E. exists x. split; [reflexivity|].
        apply (first_highest_new (fun c => Some (cqi_of c)) (c0 :: cs') x
                 (cqi_of x)); [reflexivity|].
        intros y q Hy [= <-].
        eapply Qle_lt_trans; [|exact E].
        eapply (first_highest_below _ _ c (cqi_of c) Hfirst); eauto.
      + apply Qlt_bool_false_iff in E. exists c. split; [reflexivity|].
        apply (first_highest_keep (fun c => Some (cqi_of c)) (c0 :: cs') c x
                 (cqi_of c) Hfirst); [reflexivity|].
        intros q [= <-]. exact E. }
  destruct (cs ++ [x])%list eqn:E; [|exact Hgoal].
  apply app_eq_nil in E as [_ E]. discriminate E.
Qed.

Lemma HighestCQI_do_pairing_first_highest (beams : list beam) (env : Env)
    (w : World) :
  (candidates beams env w = [] ->
   HighestCQI_do_pairing beams env w = None) /\
  (candidates beams env w <> [] ->
   exists c,
     HighestCQI_do_pairing beams env w = Some c /\
     first_highest (fun c => Some (cqi_of c)) (candidates beams env w) c).
Proof.
  rewrite HighestCQI_do_pairing_candidates.
  pose proof (highest_scan (candidates beams env w)) as H.
  split.
  - intros E. rewrite E. reflexivity.
  - intros Hne. destruct (candidates beams env w) as [|c0 cs];
      [congruence|].
    destruct H as (c & -> & Hfirst). exists c. split; [reflexivity|].
    exact Hfirst.
Qed.

(** C2.  [HighestCQI.do_pairing] returns no pairing when the scan has no
    candidate, and otherwise the first candidate, in encounter order, whose
    quality no other candidate exceeds: the candidates before it have a
    strictly lower quality.  For the candidates (B1,C1,10), (B2,C2,25),
    (B3,C3,25) it returns (B2,C2,25). *)
Theorem HighestCQI_first_maximum :
  (forall (beams : list beam) (env : Env) (w : World),
     (candidates beams env w = [] ->
      HighestCQI_do_pairing beams env w = None) /\
     (candidates beams env w <> [] ->
      exists c,
        HighestCQI_do_pairing beams env w = Some c /\
        first_highest (fun c => Some (cqi_of c)) (candidates beams env w) c)) /\
  candidates [1; 2; 3] env_three world_idle
    = [(1, 1, 10%Q); (2, 2, 25%Q); (3, 3, 25%Q)] /\
  HighestCQI_do_pairing [1; 2; 3] env_three world_idle = Some (2, 2, 25%Q).
Proof.
  split.
  - apply HighestCQI_do_pairing_first_highest.
  - split; vm_compute; reflexivity.
Qed.

Lemma HighestCQI_first_maximum_witness :
  exists c,
    HighestCQI_do_pairing [1; 2; 3] env_three world_idle = Some c /\
    first_highest (fun c => Some (cqi_of c))
                  (candidates [1; 2; 3] env_three world_idle) c.
Proof.
  apply (proj2 (proj1 HighestCQI_first_maximum [1; 2; 3] env_three world_idle)).
  vm_compute. discriminate.
Defined.

(** ** The exploitation scan *)

Lemma get_past_reward_predict (s : Bandit) (k : string) :
  arm_sync s -> get_past_reward s k = Ok (predict s k).
Proof.
  intros Hsync. unfold get_past_reward, predict.
  destruct (arm_total_reward s !! k) as [r|] eqn:E; [|reflexivity].
  destruct (proj1 (Hsync k)) as [c Hc]; [rewrite E; eauto|].
  rewrite Hc, (proj2 (getitem_Ok _ _ _) Hc). simpl.
  destruct (Nat.eqb c 0); reflexivity.
Qed.

Lemma get_past_reward_cold (s : Bandit) (k : string) :
  arm_total_reward s = ∅ -> get_past_reward s k = Ok None.
Proof.
  intros E. unfold get_past_reward. rewrite E, lookup_empty. reflexivity.
Qed.

Lemma predict_nonneg (s : Bandit) (k : string) (q : Q) :
  arm_nonneg s -> predict s k = Some q -> (0 <= q)%Q.
Proof.
  intros [Htu Hr]. unfold predict.
  destruct (arm_total_reward s !! k) as [r|] eqn:E; [|discriminate].
  destruct (arm_total_count s !! k) as [c|]; [|discriminate].
  destruct (Nat.eqb c 0) eqn:Ec; [discriminate|]. intros [= <-].
  apply Nat.eqb_neq in Ec.
  apply Qmult_le_0_compat; [|exact Htu].
  apply Qmult_le_0_compat; [eapply Hr; exact E|].
  apply Qinv_le_0_compat.
  change 0%Q with (inject_Z 0). rewrite <- Zle_Qle. lia.
Qed.

(** The scan of the exploitation branch, when every lookup of a prediction
    returns [score]. *)
Lemma reward_scan_candidates (enc : encoder) (s : Bandit) (env : Env)
    (w : World) (score : pairing -> option Q) :
  (forall b v cqi, get_past_reward s (enc env b v cqi) = Ok (score (b, v, cqi))) ->
  forall (beams : list beam) (st : Q * option pairing),
    for_each (fun st b =>
                for_each (reward_step enc s env w b) (broadcast env b) st)
             beams st
    = Ok (fold_left (reward_pick score)
                    (flat_map (reply_candidates env w) beams) st).
Proof.
  intros Hscore.
  assert (Hin : forall b entries st,
            for_each (reward_step enc s env w b) entries st
            = Ok (fold_left (reward_pick score)
                    (flat_map
                       (fun entry : node * Q =>
                          match fst entry with
                          | BS _ => []
                          | Veh v =>
                              match associated_bs w !! v with
                              | Some _ => []
                              | None =>
                                  match unicast env (Veh v) (BS b) with
                                  | None => []
                                  | Some cqi => [(b, v, cqi)]
                                  end
                              end
                          end) entries) st)).
  { intros b entries. induction entries as [|[n sig] entries IH]; intros st;
      simpl; [reflexivity|].
    rewrite fold_left_app.
    assert (E : reward_step enc s env w b st (n, sig)
                = Ok (fold_left (reward_pick score)
                        match n with
                        | BS _ => []
                        | Veh v =>
                            match associated_bs w !! v with
                            | Some _ => []
                            | None =>
                                match unicast env (Veh v) (BS b) with
                                | None => []
                                | Some cqi => [(b, v, cqi)]
                                end
                            end
                        end st)).
    { unfold reward_step. simpl.
      destruct n as [b'|v]; [reflexivity|].
      destruct (associated_bs w !! v); [reflexivity|].
      destruct (unicast env (Veh v) (BS b)) as [cqi|]; [|reflexivity].
      rewrite Hscore. simpl. unfold reward_pick.
      destruct (score (b, v, cqi)) as [p|]; [|reflexivity].
      destruct (Qlt_bool (fst st) p); reflexivity. }
    rewrite E. simpl. apply IH. }
  induction beams as [|b beams IH]; intros st; simpl; [reflexivity|].
  rewrite Hin. simpl. rewrite fold_left_app. apply IH.
Qed.

(** What the exploitation scan holds after the candidates [cs], when every
    prediction is above the initial [highest_reward]. *)
Lemma reward_scan (score : pairing -> option Q) (cs : list pairing) :
  (forall c q, c ∈ cs -> score c = Some q -> (-1 < q)%Q) ->
  (fold_left (reward_pick score) cs ((-1)%Q, None) = ((-1)%Q, None) /\
   forall c, c ∈ cs -> score c = None) \/
  (exists c p,
     fold_left (reward_pick score) cs ((-1)%Q, None) = (p, Some c) /\
     score c = Some p /\
     first_highest score cs c).
Proof.
  induction cs as [|x cs IH] using rev_ind; intros Habove.
  - left. split; [reflexivity|]. intros c Hc.
    apply elem_of_nil in Hc. contradiction.
  - rewrite fold_left_app. simpl.
    destruct IH as [[-> Hnone] | (c & p & -> & Hc & Hfirst)].
    + intros c q Hc. apply Habove. apply elem_of_app. left. exact Hc.
    + unfold reward_pick. simpl.
      destruct (score x) as [q|] eqn:Ex.
      * assert (Hq : (-1 < q)%Q).
        { eapply Habove; [|exact Ex]. apply elem_of_app. right.
          apply list_elem_of_here. }
        rewrite (proj2 (Qlt_bool_iff _ _) Hq).
        right. exists x, q. split; [reflexivity|]. split; [exact Ex|].
        apply (first_highest_new score cs x q Ex).
        intros y q' Hy Hq'. rewrite (Hnone y Hy) in Hq'. discriminate.
      * left. split; [reflexivity|]. intros c Hc.
        apply elem_of_app in Hc as [Hc|Hc]; [apply Hnone, Hc|].
        apply list_elem_of_singleton in Hc as ->. exact Ex.
    + unfold reward_pick. simpl.
      destruct (score x) as [q|] eqn:Ex.
      * destruct (Qlt_bool p q) eqn:E.
        -- apply Qlt_bool_iff in E. right. exists x, q.
           split; [reflexivity|]. split; [exact Ex|].
           apply (first_highest_new score cs x q Ex).
           intros y q' Hy Hq'. eapply Qle_lt_trans; [|exact E].
           eapply (first_highest_below score cs c p Hfirst Hc); eauto.
        -- apply Qlt_bool_false_iff in E. right. exists c, p.
           split; [reflexivity|]. split; [exact Hc|].
           apply (first_highest_keep score cs c x p Hfirst Hc).
           intros q' Hq'. congruence.
      * right. exists c, p. split; [reflexivity|]. split; [exact Hc|].
        apply (first_highest_keep score cs c x p Hfirst Hc).
        intros q' Hq'. congruence.
Qed.

(** ** [CMAB.do_pairing] *)

Lemma candidates_no_beam (beams : list beam) (env : Env) (w : World) :
  available_beams beams w = [] -> candidates beams env w = [].
Proof. unfold candidates. intros ->. reflexivity. Qed.

(** Before the exploration stop time the result is that of
    [RandomSelection.do_pairing], and the arm is counted. *)
Lemma CMAB_do_pairing_exploration (enc : encoder) (beams : list beam)
    (env : Env) (t : Q) (w : World) (s : Bandit) (g : Rng) :
  (t < exploration_stop_time s)%Q ->
  CMAB_do_pairing enc beams env t w s g =
    Ok (fst (RandomSelection_do_pairing beams env w g), pulled s,
        snd (RandomSelection_do_pairing beams env w g)).
Proof.
  intros H. unfold CMAB_do_pairing.
  rewrite (proj2 (Qlt_bool_iff _ _) H).
  destruct (RandomSelection_do_pairing beams env w g). reflexivity.
Qed.

(** From the exploration stop time on, the result is that of the scan of the
    candidates by predicted reward; the arm is counted when a beam is
    available. *)
Lemma CMAB_do_pairing_exploitation (enc : encoder) (beams : list beam)
    (env : Env) (t : Q) (w : World) (s : Bandit) (g : Rng)
    (score : pairing -> option Q) :
  (exploration_stop_time s <= t)%Q ->
  (forall b v cqi, get_past_reward s (enc env b v cqi) = Ok (score (b, v, cqi))) ->
  CMAB_do_pairing enc beams env t w s g =
    Ok (snd (fold_left (reward_pick score) (candidates beams env w)
                       ((-1)%Q, None)),
        match available_beams beams w with [] => s | _ => pulled s end,
        g).
Proof.
  intros H Hscore. unfold CMAB_do_pairing.
  rewrite (proj2 (Qlt_bool_false_iff _ _) H).
  destruct (available_beams beams w) as [|b0 bs] eqn:E.
  - rewrite (candidates_no_beam _ _ _ E). reflexivity.
  - rewrite (reward_scan_candidates enc s env w score Hscore). simpl.
    unfold candidates. rewrite E. reflexivity.
Qed.

Lemma CMAB_do_pairing_no_beam (enc : encoder) (beams : list beam)
    (env : Env) (t : Q) (w : World) (s : Bandit) (g : Rng) :
  (exploration_stop_time s <= t)%Q ->
  available_beams beams w = [] ->
  CMAB_do_pairing enc beams env t w s g = Ok (None, s, g).
Proof.
  intros H E. unfold CMAB_do_pairing.
  rewrite (proj2 (Qlt_bool_false_iff _ _) H), E. reflexivity.
Qed.

(** C4.  From the exploration stop time on, with an arm table whose two
    dictionaries have the same keys and whose rewards are not negative,
    [CMAB.do_pairing] returns the first candidate with the highest
    predicted reward among the candidates that have one, and no pairing
    when no candidate has one.  With an empty arm table it returns no
    pairing, whatever the candidates. *)
Theorem exploitation_picks_best_known (enc : encoder) (beams : list beam)
    (env : Env) (t : Q) (w : World) (s : Bandit) (g : Rng) :
  (exploration_stop_time s <= t)%Q ->
  (arm_sync s -> arm_nonneg s ->
   exists sel s',
     CMAB_do_pairing enc beams env t w s g = Ok (sel, s', g) /\
     match sel with
     | Some c => first_highest (predicted enc s env) (candidates beams env w) c
     | None =>
         forall c, c ∈ candidates beams env w -> predicted enc s env c = None
     end) /\
  (arm_total_reward s = ∅ ->
   exists s', CMAB_do_pairing enc beams env t w s g = Ok (None, s', g)).
Proof.
  intros Ht. split.
  - intros Hsync Hnonneg.
    rewrite (CMAB_do_pairing_exploitation enc beams env t w s g
               (predicted enc s env) Ht)
      by (intros b v cqi; apply get_past_reward_predict, Hsync).
    do 2 eexists. split; [reflexivity|].
    destruct (reward_scan (predicted enc s env) (candidates beams env w))
      as [[-> Hnone] | (c & p & -> & Hc & Hfirst)].
    + intros c q _ Hq. apply (Qlt_le_trans _ 0); [reflexivity|].
      eapply predict_nonneg; [exact Hnonneg | exact Hq].
    + exact Hnone.
    + exact Hfirst.
  - intros Hcold.
    rewrite (CMAB_do_pairing_exploitation enc beams env t w s g
               (fun _ => None) Ht)
      by (intros b v cqi; apply get_past_reward_cold, Hcold).
    eexists. do 2 f_equal.
    destruct (reward_scan (fun _ => None) (candidates beams env w))
      as [[-> _] | (c & p & _ & Hc & _)]; [discriminate | | discriminate].
    reflexivity.
Qed.

Lemma bandit_known_sync : arm_sync bandit_known.
Proof.
  intros k. unfold bandit_known. simpl.
  destruct (decide ("[BS-01]" = k)) as [<-|Hne1].
  - rewrite !lookup_insert_eq. split; eauto.
  - rewrite !(lookup_insert_ne _ "[BS-01]") by assumption.
    destruct (decide ("[BS-02]" = k)) as [<-|Hne2].
    + rewrite !lookup_insert_eq. split; eauto.
    + rewrite !lookup_insert_ne by assumption. rewrite !lookup_empty.
      split; intros [x Hx]; discriminate Hx.
Qed.

Lemma bandit_known_nonneg : arm_nonneg bandit_known.
Proof.
  split; [simpl; lra|]. intros k r. unfold bandit_known. simpl.
  destruct (decide ("[BS-01]" = k)) as [<-|Hne1].
  - rewrite lookup_insert_eq. intros [= <-]. lra.
  - rewrite lookup_insert_ne by assumption.
    destruct (decide ("[BS-02]" = k)) as [<-|Hne2].
    + rewrite lookup_insert_eq. intros [= <-]. lra.
    + rewrite lookup_insert_ne by assumption. rewrite lookup_empty.
      discriminate.
Qed.

Lemma exploitation_picks_best_known_witness :
  (exists sel s',
     CMAB_do_pairing MAB_get_context [1; 2; 3] env_three 5 world_idle
                     bandit_known rng_example = Ok (sel, s', rng_example) /\
     match sel with
     | Some c =>
         first_highest (predicted MAB_get_context bandit_known env_three)
                       (candidates [1; 2; 3] env_three world_idle) c
     | None =>
         forall c, c ∈ candidates [1; 2; 3] env_three world_idle ->
                   predicted MAB_get_context bandit_known env_three c = None
     end) /\
  (exists s',
     CMAB_do_pairing MAB_get_context [1; 2; 3] env_three 5 world_idle
                     (Bandit_init 1) rng_example = Ok (None, s', rng_example)).
Proof.
  split.
  - apply (proj1 (exploitation_picks_best_known MAB_get_context [1; 2; 3]
                    env_three 5 world_idle bandit_known rng_example
                    ltac:(simpl; lra))).
    + exact bandit_known_sync.
    + exact bandit_known_nonneg.
  - apply (proj2 (exploitation_picks_best_known MAB_get_context [1; 2; 3]
                    env_three 5 world_idle (Bandit_init 1) rng_example
                    ltac:(simpl; lra))).
    reflexivity.
Defined.

(** On the concrete inputs: the arm of beam 2 has the higher average, and a
    fresh bandit leaves the three candidates alone. *)
Example exploitation_known_arms :
  CMAB_do_pairing MAB_get_context [1; 2; 3] env_three 5 world_idle
                  bandit_known rng_example
  = Ok (Some (2, 2, 25%Q), pulled bandit_known, rng_example).
Proof. vm_compute. reflexivity. Qed.

Example exploitation_cold_start :
  candidates [1; 2; 3] env_three world_idle
    = [(1, 1, 10%Q); (2, 2, 25%Q); (3, 3, 25%Q)] /\
  CMAB_do_pairing (CMAB_get_context false) [1; 2; 3] env_three 5 world_idle
                  (Bandit_init 1) rng_example
  = Ok (None, pulled (Bandit_init 1), rng_example).
Proof. split; vm_compute; reflexivity. Qed.

(** Rewards stay non-negative when the calls come in the order of time. *)
Lemma Bandit_calls_nonneg (enc : encoder) (calls : list call) :
  forall (s s' : Bandit) (now : Q),
    arm_nonneg s -> pending_before s now -> calls_in_order now calls ->
    for_each (Bandit_call enc) calls s = Ok s' ->
    arm_nonneg s'.
Proof.
  induction calls as [|c calls IH]; intros s s' now Hn Hp Ho Hrun;
    simpl in *.
  - injection Hrun as <-. exact Hn.
  - destruct Ho as [Hnow Ho].
    apply rbind_Ok in Hrun as (s1 & Hc & Hrun).
    destruct c as [env t b v cqi | t b v]; simpl in *.
    + injection Hc as <-.
      destruct (CMAB_confirmed_fields enc env t b v cqi s)
        as (Hi & _ & Htu & _).
      apply (IH _ _ t) in Hrun; [exact Hrun | | | exact Ho].
      * destruct Hn as [Hn1 Hn2]. split; [rewrite Htu; exact Hn1|].
        intros k r. unfold CMAB_confirmed.
        destruct (arm_total_reward s !! enc env b v cqi) eqn:E; simpl;
          [apply Hn2|].
        destruct (decide (enc env b v cqi = k)) as [<-|Hne].
        -- rewrite lookup_insert_eq. intros [= <-]. apply Qle_refl.
        -- rewrite lookup_insert_ne by assumption. apply Hn2.
      * intros v' context start. rewrite Hi.
        destruct (decide (v = v')) as [<-|Hne].
        -- rewrite lookup_insert_eq. intros [= <- <-]. apply Qle_refl.
        -- rewrite lookup_insert_ne by assumption. intros Hv'.
           eapply Qle_trans; [eapply Hp; exact Hv' | exact Hnow].
    + apply CMAB_lost_Ok in Hc as (context & start & r & c & Hi & Hr & Hc & ->).
      apply (IH _ _ t) in Hrun; [exact Hrun | | | exact Ho].
      * destruct Hn as [Hn1 Hn2]. split; [exact Hn1|]. simpl.
        intros k r'.
        destruct (decide (context = k)) as [<-|Hne].
        -- rewrite lookup_insert_eq. intros [= <-].
           pose proof (Hn2 _ _ Hr). pose proof (Hp _ _ _ Hi). lra.
        -- rewrite lookup_insert_ne by assumption. apply Hn2.
      * intros v' context' start' Hv'. simpl in Hv'.
        eapply Qle_trans; [eapply Hp; exact Hv' | exact Hnow].
Qed.

(** Outside the allocation loop.  On an object of one beam that serves, which
    the loop never calls, [CMAB.do_pairing] returns at its guard from the
    exploration stop time on, before the counter is touched; before the
    exploration stop time the same call counts the arm. *)
Example exploitation_without_beam_not_counted :
  available_beams [1] world_busy = [] /\
  exploration_stop_time bandit_until_3 = 3%Q /\
  total_pulled bandit_until_3 = 0 /\
  (exists s',
     CMAB_do_pairing (CMAB_get_context false) [1] env_three 5 world_busy
                     bandit_until_3 rng_example = Ok (None, s', rng_example) /\
     total_pulled s' = 0) /\
  (exists s',
     CMAB_do_pairing (CMAB_get_context false) [1] env_three 2 world_busy
                     bandit_until_3 rng_example = Ok (None, s', rng_example) /\
     total_pulled s' = 1).
Proof.
  split; [vm_compute; reflexivity|].
  split; [reflexivity|]. split; [reflexivity|].
  split; eexists; (split; [vm_compute; reflexivity|reflexivity]).
Qed.

(** The counter goes up by one in the exploration phase, and in the
    exploitation phase whenever a beam is available. *)
Lemma CMAB_do_pairing_counts (enc : encoder) (beams : list beam) (env : Env)
    (t : Q) (w : World) (s : Bandit) (g : Rng) :
  arm_sync s ->
  ((t < exploration_stop_time s)%Q \/ available_beams beams w <> []) ->
  exists sel s' g',
    CMAB_do_pairing enc beams env t w s g = Ok (sel, s', g') /\
    total_pulled s' = total_pulled s + 1.
Proof.
  intros Hsync H.
  destruct (Qlt_le_dec t (exploration_stop_time s)) as [Hlt|Hle].
  - rewrite (CMAB_do_pairing_exploration enc beams env t w s g Hlt).
    do 3 eexists. split; reflexivity.
  - destruct H as [Hlt|Hne]; [exfalso; lra|].
    rewrite (CMAB_do_pairing_exploitation enc beams env t w s g
               (predicted enc s env) Hle)
      by (intros b v cqi; apply get_past_reward_predict, Hsync).
    do 3 eexists. split; [reflexivity|].
    destruct (available_beams beams w); [congruence|reflexivity].
Qed.

(** When every beam serves, the count of active beams is their number. *)
Lemma count_active_all_busy (beams : list beam) (w : World) :
  available_beams beams w = [] ->
  count_active beams w = length beams.
Proof.
  unfold count_active, available_beams.
  assert (H : forall n,
            List.filter (fun b => bool_decide (serving_node w !! b = None))
                        beams = [] ->
            fold_left (fun num_active_beam b =>
                         match serving_node w !! b with
                         | Some _ => num_active_beam + 1
                         | None => num_active_beam
                         end) beams n
            = n + length beams).
  { induction beams as [|b l IH]; intros n E; simpl; [lia|].
    simpl in E. destruct (serving_node w !! b) as [v|] eqn:Eb.
    - rewrite bool_decide_eq_false_2 in E by discriminate.
      rewrite (IH (n + 1) E). lia.
    - rewrite bool_decide_eq_true_2 in E by reflexivity. discriminate. }
  intros E. apply (H 0 E).
Qed.

(** The guard of the allocation loop leaves a beam available, as long as the
    limit is not above the number of beams. *)
Lemma loop_guard_available (beams : list beam) (w : World) (K : nat) :
  count_active beams w < K ->
  K <= length beams ->
  available_beams beams w <> [].
Proof.
  intros Hlt Hle E. rewrite (count_active_all_busy beams w E) in Hlt. lia.
Qed.

(** C3.  Every call of the [do_pairing] of a bandit ([MAB] or [CMAB]) that
    the allocation loop makes goes through and adds exactly one to
    [total_pulled], whether or not a pairing is returned.  The loop calls it
    only while fewer beams serve than the limit, and the limit is not above
    the number of beams (2 of 6 in [on_create]).  Before the exploration
    stop time the result is what [RandomSelection.do_pairing] returns on the
    same beams, store and random source; from the exploration stop time on
    it is the outcome of the ranking of the candidates by the reward the arm
    table predicts, and the random source is not used. *)
Theorem bandit_do_pairing_phases (env : Env) (t : Q) (w : World)
    (alg : Algorithm) (g : Rng) (cls : BanditClass) (s : Bandit) :
  policy alg = PBandit cls s ->
  arm_sync s ->
  count_active (all_beams alg) w < max_active_sector alg ->
  max_active_sector alg <= length (all_beams alg) ->
  exists sel s' g',
    do_pairing env t w alg g
    = Ok (sel, with_policy alg (PBandit cls s'), g') /\
    total_pulled s' = total_pulled s + 1 /\
    ((t < exploration_stop_time s)%Q ->
     do_pairing env t w (with_policy alg PRandom) g
     = Ok (sel, with_policy alg PRandom, g')) /\
    ((exploration_stop_time s <= t)%Q ->
     g' = g /\
     sel = snd (fold_left (reward_pick (predicted (get_context cls s) s env))
                          (candidates (all_beams alg) env w)
                          ((-1)%Q, None))).
Proof.
  intros Hp Hsync Hguard Hlim.
  pose proof (loop_guard_available _ _ _ Hguard Hlim) as Hav.
  unfold do_pairing at 1. rewrite Hp.
  destruct (Qlt_le_dec t (exploration_stop_time s)) as [Hlt|Hle].
  - rewrite (CMAB_do_pairing_exploration (get_context cls s) (all_beams alg)
               env t w s g Hlt). simpl.
    exists (fst (RandomSelection_do_pairing (all_beams alg) env w g)),
           (pulled s),
           (snd (RandomSelection_do_pairing (all_beams alg) env w g)).
    split; [reflexivity|]. split; [reflexivity|]. split.
    + intros _. unfold do_pairing. simpl.
      destruct (RandomSelection_do_pairing (all_beams alg) env w g).
      reflexivity.
    + intros Hle. exfalso. lra.
  - rewrite (CMAB_do_pairing_exploitation (get_context cls s) (all_beams alg)
               env t w s g (predicted (get_context cls s) s env) Hle)
      by (intros b v cqi; apply get_past_reward_predict, Hsync).
    simpl.
    exists (snd (fold_left (reward_pick (predicted (get_context cls s) s env))
                           (candidates (all_beams alg) env w)
                           ((-1)%Q, None))),
           (pulled s), g.
    split.
    + destruct (available_beams (all_beams alg) w); [congruence|reflexivity].
    + split; [reflexivity|]. split; [|auto].
      intros Hlt. exfalso. lra.
Qed.

Lemma bandit_do_pairing_phases_witness :
  (exists sel s' g',
     do_pairing env_dead 50 world_busy bandit_six rng_example
     = Ok (sel, with_policy bandit_six (PBandit CMAB s'), g') /\
     total_pulled s' = 0 + 1 /\
     g' = rng_example /\
     sel = None) /\
  (exists sel s' g',
     do_pairing env_three 1 world_busy bandit_six rng_example
     = Ok (sel, with_policy bandit_six (PBandit CMAB s'), g') /\
     total_pulled s' = 0 + 1 /\
     do_pairing env_three 1 world_busy (with_policy bandit_six PRandom)
                rng_example
     = Ok (sel, with_policy bandit_six PRandom, g')).
Proof.
  assert (Hp : policy bandit_six
               = PBandit CMAB (mab_setting (Some 30%Q) (Some false)
                                           (Bandit_init 1)))
    by reflexivity.
  pose proof (proj1 (Bandit_ok_init (Some 30%Q) (Some false) 1)) as Hsync.
  assert (Hguard : count_active (all_beams bandit_six) world_busy
                   < max_active_sector bandit_six)
    by (vm_compute; lia).
  assert (Hlim : max_active_sector bandit_six <= length (all_beams bandit_six))
    by (vm_compute; lia).
  split.
  - destruct (bandit_do_pairing_phases env_dead 50 world_busy bandit_six
                rng_example CMAB _ Hp Hsync Hguard Hlim)
      as (sel & s' & g' & Hrun & Hcount & _ & Hrank).
    exists sel, s', g'. split; [exact Hrun|]. split; [exact Hcount|].
    destruct Hrank as [Hg Hsel]; [vm_compute; discriminate|].
    split; [exact Hg|]. rewrite Hsel. reflexivity.
  - destruct (bandit_do_pairing_phases env_three 1 world_busy bandit_six
                rng_example CMAB _ Hp Hsync Hguard Hlim)
      as (sel & s' & g' & Hrun & Hcount & Hrandom & _).
    exists sel, s', g'. split; [exact Hrun|]. split; [exact Hcount|].
    apply Hrandom. vm_compute. reflexivity.
Defined.

(** ** [RandomSelection.do_pairing] *)

Lemma choice_elem_of {A} (x : A) (xs : list A) (g : Rng) :
  fst (choice x xs g) ∈ x :: xs.
Proof.
  unfold choice. cbn [fst]. apply list_elem_of_In. apply nth_In.
  apply Nat.mod_upper_bound. cbn [length]. lia.
Qed.

Lemma list_remove_length (x : beam) (l : list beam) :
  x ∈ l -> S (length (list_remove x l)) = length l.
Proof.
  induction l as [|y l IH]; intros Hx; [apply elem_of_nil in Hx; contradiction|].
  simpl. destruct (Nat.eqb x y) eqn:E; [reflexivity|].
  apply Nat.eqb_neq in E. apply elem_of_cons in Hx as [->|Hx]; [congruence|].
  simpl. rewrite IH by assumption. reflexivity.
Qed.

Lemma list_remove_subseteq (x y : beam) (l : list beam) :
  y ∈ list_remove x l -> y ∈ l.
Proof.
  induction l as [|z l IH]; simpl; [auto|].
  destruct (Nat.eqb x z).
  - intros Hy. apply list_elem_of_further, Hy.
  - intros Hy. apply elem_of_cons in Hy as [->|Hy].
    + apply list_elem_of_here.
    + apply list_elem_of_further, IH, Hy.
Qed.

(** The vehicles a beam's hello scan keeps are without service. *)
Lemma hello_scan_unserved (env : Env) (w : World) (b : beam) (v : vehicle)
    (cqi : Q) :
  (v, cqi) ∈ hello_scan env w b -> associated_bs w !! v = None.
Proof.
  unfold hello_scan.
  assert (H : forall entries acc,
            (forall v cqi, (v, cqi) ∈ acc -> associated_bs w !! v = None) ->
            forall v cqi,
              (v, cqi) ∈ fold_left (hello_step env w b) entries acc ->
              associated_bs w !! v = None).
  { induction entries as [|[n sig] entries IH]; intros acc Hacc v' cqi';
      simpl; [apply Hacc|].
    apply IH. intros v1 cqi1. unfold hello_step. simpl.
    destruct n as [b'|v2]; [apply Hacc|].
    destruct (associated_bs w !! v2) eqn:E; [apply Hacc|].
    destruct (send_hello_to env (BS b) (Veh v2)); [|apply Hacc].
    intros Hin. apply elem_of_app in Hin as [Hin|Hin]; [eapply Hacc, Hin|].
    apply list_elem_of_singleton in Hin. injection Hin as -> ->. exact E. }
  apply H. intros v' cqi' Hin. apply elem_of_nil in Hin. contradiction.
Qed.

(** The loop ends within as many iterations as there are available beams. *)
Lemma RandomSelection_loop_total (env : Env) (w : World) (fuel : nat) :
  forall (avail : list beam) (g : Rng),
    length avail <= fuel ->
    exists r, RandomSelection_loop fuel env w avail g = Some r.
Proof.
  induction fuel as [|fuel IH]; intros avail g Hlen.
  - destruct avail; [simpl; eauto | simpl in Hlen; lia].
  - destruct avail as [|b0 bs]; [simpl; eauto|].
    cbn [RandomSelection_loop].
    pose proof (choice_elem_of b0 bs g) as Hin.
    destruct (choice b0 bs g) as [b g1]. cbn [fst] in Hin.
    destruct (hello_scan env w b) as [|vc0 vcs].
    + apply IH. pose proof (list_remove_length b (b0 :: bs) Hin) as Hl.
      lia.
    + destruct (choice vc0 vcs g1). eauto.
Qed.

(** A pairing the loop returns is of a beam of the list and a vehicle
    without service. *)
Lemma RandomSelection_loop_sound (env : Env) (w : World) (fuel : nat) :
  forall (avail : list beam) (g g' : Rng) (b : beam) (v : vehicle) (cqi : Q),
    RandomSelection_loop fuel env w avail g = Some (Some (b, v, cqi), g') ->
    b ∈ avail /\ associated_bs w !! v = None.
Proof.
  induction fuel as [|fuel IH]; intros avail g g' b v cqi H.
  - destruct avail; simpl in H; discriminate.
  - destruct avail as [|b0 bs]; [simpl in H; discriminate|].
    cbn [RandomSelection_loop] in H.
    pose proof (choice_elem_of b0 bs g) as Hin.
    destruct (choice b0 bs g) as [b1 g1]. cbn [fst] in Hin.
    destruct (hello_scan env w b1) as [|vc0 vcs] eqn:Es.
    + apply IH in H as [Hb Hv]. split; [|exact Hv].
      eapply list_remove_subseteq, Hb.
    + pose proof (choice_elem_of vc0 vcs g1) as Hvc.
      destruct (choice vc0 vcs g1) as [[v1 cqi1] g2]. cbn [fst snd] in Hvc, H.
      injection H as <- <- <- <-. split; [exact Hin|].
      apply (hello_scan_unserved env w b1 v1 cqi1). rewrite Es. exact Hvc.
Qed.

Lemma available_beams_spec (beams : list beam) (w : World) (b : beam) :
  b ∈ available_beams beams w <-> b ∈ beams /\ serving_node w !! b = None.
Proof.
  unfold available_beams. rewrite !list_elem_of_In, filter_In.
  rewrite bool_decide_eq_true. reflexivity.
Qed.

(** [RandomSelection.do_pairing] never cuts its loop short. *)
Lemma RandomSelection_do_pairing_total (beams : list beam) (env : Env)
    (w : World) (g : Rng) :
  RandomSelection_loop (length (available_beams beams w)) env w
                       (available_beams beams w) g
  = Some (RandomSelection_do_pairing beams env w g).
Proof.
  unfold RandomSelection_do_pairing.
  destruct (RandomSelection_loop_total env w
              (length (available_beams beams w)) (available_beams beams w) g)
    as [r ->]; [lia|]. reflexivity.
Qed.

Lemma RandomSelection_do_pairing_sound (beams : list beam) (env : Env)
    (w : World) (g g' : Rng) (b : beam) (v : vehicle) (cqi : Q) :
  RandomSelection_do_pairing beams env w g = (Some (b, v, cqi), g') ->
  b ∈ beams /\ serving_node w !! b = None /\ associated_bs w !! v = None.
Proof.
  intros H. pose proof (RandomSelection_do_pairing_total beams env w g) as Ht.
  rewrite H in Ht. apply RandomSelection_loop_sound in Ht as [Hb Hv].
  apply available_beams_spec in Hb as [Hb Hs]. auto.
Qed.

(** ** The allocation loop keeps its invariant *)

Lemma for_each_invariant {A S} (P : S -> Prop) (body : S -> A -> result S)
    (l : list A) :
  (forall st x, x ∈ l -> P st -> exists st', body st x = Ok st' /\ P st') ->
  forall st, P st -> exists st', for_each body l st = Ok st' /\ P st'.
Proof.
  induction l as [|x l IH]; intros Hb st Hst; simpl; [eauto|].
  destruct (Hb st x (list_elem_of_here _ _) Hst) as (st1 & -> & Hst1). simpl.
  apply IH; [|exact Hst1].
  intros st' y Hy. apply Hb. apply list_elem_of_further, Hy.
Qed.

Lemma one_to_one_lost (w : World) (b : beam) (v : vehicle) :
  one_to_one w ->
  serving_node w !! b = Some v ->
  one_to_one (mkWorld (delete b (serving_node w)) (delete v (associated_bs w))).
Proof.
  intros H Hb b' v'. simpl.
  destruct (decide (b = b')) as [<-|Hne].
  - rewrite lookup_delete_eq. split; [discriminate|].
    destruct (decide (v = v')) as [<-|Hnv].
    + rewrite lookup_delete_eq. discriminate.
    + rewrite lookup_delete_ne by assumption. intros Hv'.
      apply H in Hv'. congruence.
  - rewrite lookup_delete_ne by assumption.
    destruct (decide (v = v')) as [<-|Hnv].
    + rewrite lookup_delete_eq. split; [|discriminate].
      intros Hb'. apply H in Hb, Hb'. congruence.
    + rewrite lookup_delete_ne by assumption. apply H.
Qed.

Lemma one_to_one_connect (w : World) (b : beam) (v : vehicle) :
  one_to_one w ->
  serving_node w !! b = None ->
  associated_bs w !! v = None ->
  one_to_one (connect_vehicle b v w).
Proof.
  intros H Hb Hv b' v'. unfold connect_vehicle, connect_bs. simpl.
  destruct (decide (b = b')) as [<-|Hne].
  - rewrite lookup_insert_eq.
    destruct (decide (v = v')) as [<-|Hnv].
    + rewrite lookup_insert_eq. split; reflexivity.
    + rewrite lookup_insert_ne by assumption. split.
      * intros [= ->]. contradiction.
      * intros Hv'. apply H in Hv'. congruence.
  - rewrite lookup_insert_ne by assumption.
    destruct (decide (v = v')) as [<-|Hnv].
    + rewrite lookup_insert_eq. split.
      * intros Hb'. apply H in Hb'. congruence.
      * intros [= ->]. contradiction.
    + rewrite lookup_insert_ne by assumption. apply H.
Qed.

Lemma lost_vehicle_serving (w : World) (b : beam) (v : vehicle) :
  serving_node w !! b = Some v ->
  lost_vehicle b w
  = Ok (mkWorld (delete b (serving_node w)) (delete v (associated_bs w))).
Proof. intros H. unfold lost_vehicle. rewrite H. reflexivity. Qed.

Lemma tracker_started_with_policy (alg : Algorithm) (p : Policy) (b : beam) :
  tracker_started (with_policy alg p) b <-> tracker_started alg b.
Proof. reflexivity. Qed.

Lemma trackers_known_confirmed (beams : list beam) (t : Q) (b : beam)
    (v : vehicle) (cqi : Q) (alg alg' : Algorithm) :
  VSA_report_conn_confirmed t b v cqi alg = Ok alg' ->
  trackers_known beams alg -> trackers_known beams alg'.
Proof.
  intros H Hk b' Hb'.
  apply VSA_report_conn_confirmed_Ok in H as (st & st2 & Hst & Hst2 & ->).
  simpl. destruct (decide (b = b')) as [<-|Hne].
  - rewrite !lookup_insert_eq. split; eauto.
  - rewrite !lookup_insert_ne by assumption. apply Hk, Hb'.
Qed.

Lemma trackers_known_lost (beams : list beam) (t : Q) (b : beam)
    (v : vehicle) (alg alg' : Algorithm) :
  VSA_report_conn_lost t b v alg = Ok alg' ->
  trackers_known beams alg -> trackers_known beams alg'.
Proof.
  intros H Hk b' Hb'.
  apply VSA_report_conn_lost_Ok in H
    as (st & st2 & start & start2 & Hst & Hst2 & _ & _ & ->).
  simpl. destruct (decide (b = b')) as [<-|Hne].
  - rewrite !lookup_insert_eq. split; eauto.
  - rewrite !lookup_insert_ne by assumption. apply Hk, Hb'.
Qed.

Lemma VSA_report_conn_lost_frame (t : Q) (b : beam) (v : vehicle)
    (alg alg' : Algorithm) :
  VSA_report_conn_lost t b v alg = Ok alg' ->
  all_beams alg' = all_beams alg /\ policy alg' = policy alg.
Proof.
  intros H. apply VSA_report_conn_lost_Ok in H
    as (st & st2 & start & start2 & _ & _ & _ & _ & ->). auto.
Qed.

Lemma VSA_report_conn_confirmed_frame (t : Q) (b : beam) (v : vehicle)
    (cqi : Q) (alg alg' : Algorithm) :
  VSA_report_conn_confirmed t b v cqi alg = Ok alg' ->
  all_beams alg' = all_beams alg /\ policy alg' = policy alg.
Proof.
  intros H. apply VSA_report_conn_confirmed_Ok in H
    as (st & st2 & _ & _ & ->). auto.
Qed.

(** A lost connection is released and accounted for. *)
Lemma release_ok (beams : list beam) (t : Q) (w : World) (alg : Algorithm)
    (b : beam) (v : vehicle) :
  state_ok beams w alg ->
  serving_node w !! b = Some v ->
  exists alg',
    report_conn_lost t b v alg = Ok alg' /\
    state_ok beams
      (mkWorld (delete b (serving_node w)) (delete v (associated_bs w))) alg'.
Proof.
  intros (H11 & Hbeams & Hknown & Hstarted & Hpol) Hb.
  destruct (VSA_report_conn_lost_started t b v alg (Hstarted _ _ Hb))
    as [alg1 H1].
  destruct (VSA_report_conn_lost_frame _ _ _ _ _ H1) as [Hab Hp1].
  assert (Hserv : forall b' v',
            delete b (serving_node w) !! b' = Some v' ->
            serving_node w !! b' = Some v').
  { intros b' v' Hd. apply lookup_delete_Some in Hd as [_ Hd]. exact Hd. }
  unfold report_conn_lost. rewrite H1. simpl.
  destruct (policy alg) as [| |cls s] eqn:Ep.
  - exists alg1. split; [reflexivity|].
    split; [apply one_to_one_lost; assumption|].
    split; [congruence|].
    split; [eapply trackers_known_lost; eassumption|].
    split; [|rewrite Hp1; exact I].
    intros b' v' Hd. eapply tracker_started_lost; [exact H1|].
    eapply Hstarted, Hserv, Hd.
  - exists alg1. split; [reflexivity|].
    split; [apply one_to_one_lost; assumption|].
    split; [congruence|].
    split; [eapply trackers_known_lost; eassumption|].
    split; [|rewrite Hp1; exact I].
    intros b' v' Hd. eapply tracker_started_lost; [exact H1|].
    eapply Hstarted, Hserv, Hd.
  - destruct Hpol as [Hok Hpend].
    destruct (Hpend _ _ Hb) as [[context start] Hi].
    destruct (CMAB_lost_pending t b v s context start Hok Hi)
      as (r & c & Hr & Hc & Hl).
    rewrite Hl. simpl. eexists. split; [reflexivity|].
    split; [apply one_to_one_lost; assumption|].
    split; [simpl; congruence|].
    split; [intros b' Hb'; simpl;
            apply (trackers_known_lost beams _ _ _ _ _ H1 Hknown b' Hb')|].
    split.
    + intros b' v' Hd. apply tracker_started_with_policy.
      eapply tracker_started_lost; [exact H1|].
      eapply Hstarted, Hserv, Hd.
    + simpl. split.
      * eapply Bandit_ok_lost; [exact Hok | exact Hl].
      * intros b' v' Hd. simpl in Hd. simpl. eapply Hpend, Hserv, Hd.
Qed.

Lemma check_step_ok (beams : list beam) (env : Env) (t : Q) (b : beam)
    (st : World * Algorithm) :
  state_ok beams (fst st) (snd st) ->
  exists st',
    check_step env t st b = Ok st' /\ state_ok beams (fst st') (snd st').
Proof.
  destruct st as [w alg]. simpl. intros Hok. unfold check_step.
  destruct (serving_node w !! b) as [v|] eqn:Eb; [|eauto].
  destruct (send_hello_to env (BS b) (Veh v)); [eauto|].
  rewrite (lost_vehicle_serving w b v Eb). simpl.
  destruct (release_ok beams t w alg b v Hok Eb) as (alg' & -> & Hok').
  simpl. eauto.
Qed.

Lemma candidates_sound (beams : list beam) (env : Env) (w : World) (b : beam)
    (v : vehicle) (cqi : Q) :
  (b, v, cqi) ∈ candidates beams env w ->
  b ∈ beams /\ serving_node w !! b = None /\ associated_bs w !! v = None.
Proof.
  unfold candidates. intros H.
  apply list_elem_of_In, in_flat_map in H as (b1 & Hb1 & Hin).
  apply list_elem_of_In, available_beams_spec in Hb1.
  unfold reply_candidates in Hin. apply in_flat_map in Hin as ([n sig] & _ & Hin).
  simpl in Hin. destruct n as [b'|v1]; [contradiction|].
  destruct (associated_bs w !! v1) eqn:E; [contradiction|].
  destruct (unicast env (Veh v1) (BS b1)); [|contradiction].
  destruct Hin as [Hin|[]]. injection Hin as -> -> ->.
  destruct Hb1. auto.
Qed.

Lemma first_highest_elem_of (score : pairing -> option Q) (cs : list pairing)
    (c : pairing) :
  first_highest score cs c -> c ∈ cs.
Proof.
  intros (pre & post & p & -> & _). apply elem_of_app. right.
  apply list_elem_of_here.
Qed.

Lemma reward_pick_elem_of (score : pairing -> option Q) (cs : list pairing) :
  forall (st : Q * option pairing) (c : pairing),
    snd (fold_left (reward_pick score) cs st) = Some c ->
    c ∈ cs \/ snd st = Some c.
Proof.
  induction cs as [|x cs IH]; intros st c H; simpl in H; [auto|].
  apply IH in H as [H|H].
  - left. apply list_elem_of_further, H.
  - unfold reward_pick in H. destruct (score x) as [p|]; [|auto].
    destruct (Qlt_bool (fst st) p); [|auto].
    simpl in H. injection H as ->. left. apply list_elem_of_here.
Qed.

(** A policy returns pairings of an available beam and a vehicle without
    service, and keeps the invariant. *)
Lemma do_pairing_ok (beams : list beam) (env : Env) (t : Q) (w : World)
    (alg : Algorithm) (g : Rng) :
  state_ok beams w alg ->
  exists sel alg' g',
    do_pairing env t w alg g = Ok (sel, alg', g') /\
    state_ok beams w alg' /\
    forall b v cqi,
      sel = Some (b, v, cqi) ->
      b ∈ beams /\ serving_node w !! b = None /\ associated_bs w !! v = None.
Proof.
  intros Hok. pose proof Hok as (H11 & Hbeams & Hknown & Hstarted & Hpol).
  unfold do_pairing. destruct (policy alg) as [| |cls s] eqn:Ep.
  - destruct (RandomSelection_do_pairing (all_beams alg) env w g)
      as [sel g'] eqn:E.
    do 3 eexists. split; [reflexivity|]. split; [exact Hok|].
    intros b v cqi ->. rewrite <- Hbeams.
    eapply RandomSelection_do_pairing_sound, E.
  - do 3 eexists. split; [reflexivity|]. split; [exact Hok|].
    intros b v cqi Hsel. rewrite <- Hbeams.
    apply (candidates_sound _ env w b v cqi).
    destruct (HighestCQI_do_pairing_first_highest (all_beams alg) env w)
      as [Hnil Hcons].
    destruct (candidates (all_beams alg) env w) eqn:Ec.
    + rewrite Hnil in Hsel by reflexivity. discriminate.
    + destruct Hcons as (c & Hc & Hfirst); [discriminate|].
      rewrite Hc in Hsel. injection Hsel as ->.
      eapply first_highest_elem_of, Hfirst.
  - destruct Hpol as [Hbok Hpend].
    assert (Hframe : forall s', total_pulled s' = total_pulled s' ->
              arm_total_reward s' = arm_total_reward s ->
              arm_total_count s' = arm_total_count s ->
              arm_info s' = arm_info s ->
              state_ok beams w (with_policy alg (PBandit cls s'))).
    { intros s' _ Hr Hc Hi.
      split; [exact H11|]. split; [exact Hbeams|]. split; [exact Hknown|].
      split; [exact Hstarted|]. simpl. split.
      - destruct Hbok as [Hsync Hkn]. split.
        + intros k. rewrite Hr, Hc. apply Hsync.
        + intros v context start. rewrite Hi, Hr. apply Hkn.
      - intros b v Hb. rewrite Hi. eapply Hpend, Hb. }
    destruct (Qlt_le_dec t (exploration_stop_time s)) as [Hlt|Hle].
    + rewrite (CMAB_do_pairing_exploration _ _ _ _ _ _ g Hlt). simpl.
      do 3 eexists. split; [reflexivity|].
      split; [apply Hframe; reflexivity|].
      intros b v cqi Hsel. rewrite <- Hbeams.
      eapply RandomSelection_do_pairing_sound.
      rewrite <- Hsel. apply surjective_pairing.
    + rewrite (CMAB_do_pairing_exploitation _ _ _ _ _ _ g
                 (predicted (get_context cls s) s env) Hle)
        by (intros b v cqi; apply get_past_reward_predict, Hbok).
      simpl. do 3 eexists. split; [reflexivity|].
      split; [apply Hframe; destruct (available_beams (all_beams alg) w);
              reflexivity|].
      intros b v cqi Hsel. rewrite <- Hbeams.
      apply (candidates_sound _ env w b v cqi).
      apply reward_pick_elem_of in Hsel as [Hsel|Hsel]; [exact Hsel|].
      discriminate Hsel.
Qed.

(** A pairing of an available beam and a vehicle without service is
    committed and accounted for. *)
Lemma commit_ok (beams : list beam) (env : Env) (t : Q) (w : World)
    (alg : Algorithm) (b : beam) (v : vehicle) (cqi : Q) :
  state_ok beams w alg ->
  b ∈ beams ->
  serving_node w !! b = None ->
  associated_bs w !! v = None ->
  exists alg',
    report_conn_confirmed env t b v cqi alg = Ok alg' /\
    state_ok beams (connect_vehicle b v w) alg'.
Proof.
  intros (H11 & Hbeams & Hknown & Hstarted & Hpol) Hin Hb Hv.
  destruct (Hknown b Hin) as [Hs Hs2].
  destruct (VSA_report_conn_confirmed_known t b v cqi alg Hs Hs2)
    as [alg1 H1].
  destruct (VSA_report_conn_confirmed_frame _ _ _ _ _ _ H1) as [Hab Hp1].
  assert (Hserv : forall b' v',
            serving_node (connect_vehicle b v w) !! b' = Some v' ->
            (b' = b /\ v' = v) \/ (b' <> b /\ serving_node w !! b' = Some v')).
  { intros b' v'. unfold connect_vehicle, connect_bs. simpl.
    destruct (decide (b = b')) as [<-|Hne].
    - rewrite lookup_insert_eq. intros [= <-]. auto.
    - rewrite lookup_insert_ne by assumption. auto. }
  assert (Hst : forall b' v',
            serving_node (connect_vehicle b v w) !! b' = Some v' ->
            tracker_started alg1 b').
  { intros b' v' Hd. apply Hserv in Hd as [[-> ->]|[Hne Hd]].
    - apply (proj1 (tracker_started_confirmed t b b v cqi alg alg1 H1)).
    - apply (proj2 (tracker_started_confirmed t b b' v cqi alg alg1 H1)).
      eapply Hstarted, Hd. }
  unfold report_conn_confirmed. rewrite H1.
  destruct (policy alg) as [| |cls s] eqn:Ep.
  - exists alg1. split; [reflexivity|].
    split; [apply one_to_one_connect; assumption|].
    split; [congruence|].
    split; [eapply trackers_known_confirmed; eassumption|].
    split; [exact Hst|]. rewrite Hp1. exact I.
  - exists alg1. split; [reflexivity|].
    split; [apply one_to_one_connect; assumption|].
    split; [congruence|].
    split; [eapply trackers_known_confirmed; eassumption|].
    split; [exact Hst|]. rewrite Hp1. exact I.
  - destruct Hpol as [Hok Hpend]. simpl. eexists. split; [reflexivity|].
    split; [apply one_to_one_connect; assumption|].
    split; [simpl; congruence|].
    split; [intros b' Hb'; simpl;
            apply (trackers_known_confirmed beams _ _ _ _ _ _ H1 Hknown b' Hb')|].
    split; [intros b' v' Hd; apply tracker_started_with_policy;
            eapply Hst, Hd|].
    simpl. split; [apply Bandit_ok_confirmed, Hok|].
    intros b' v' Hd.
    destruct (CMAB_confirmed_fields (get_context cls s) env t b v cqi s)
      as (Hi & _).
    rewrite Hi. apply Hserv in Hd as [[-> ->]|[Hne Hd]].
    + rewrite lookup_insert_eq. eauto.
    + destruct (decide (v = v')) as [<-|Hnv].
      * rewrite lookup_insert_eq. eauto.
      * rewrite lookup_insert_ne by assumption. eapply Hpend, Hd.
Qed.

Lemma select_loop_ok (beams : list beam) (env : Env) (t : Q) (room : nat) :
  forall (w : World) (alg : Algorithm) (g : Rng),
    state_ok beams w alg ->
    exists w' alg' g',
      select_loop room env t w alg g = Ok (w', alg', g') /\
      state_ok beams w' alg'.
Proof.
  induction room as [|room IH]; intros w alg g Hok; simpl.
  - do 3 eexists. split; [reflexivity|exact Hok].
  - destruct (do_pairing_ok beams env t w alg g Hok)
      as (sel & alg1 & g1 & -> & Hok1 & Hsel). simpl.
    destruct sel as [[[b v] cqi]|].
    + destruct (Hsel b v cqi eq_refl) as (Hin & Hb & Hv).
      destruct (commit_ok beams env t w alg1 b v cqi Hok1 Hin Hb Hv)
        as (alg2 & -> & Hok2). simpl.
      apply IH, Hok2.
    + do 3 eexists. split; [reflexivity|exact Hok1].
Qed.

Lemma show_outcome_ok (sc : Scenario) :
  scenario_ok sc ->
  exists sc' rows,
    show_outcome sc = Ok (sc', rows) /\
    scenario_ok sc' /\
    bs_beams sc' = bs_beams sc /\ max_active_beam sc' = max_active_beam sc /\
    world sc' = world sc /\ stop_time sc' = stop_time sc.
Proof.
  intros [Hok Hstop]. unfold show_outcome.
  destruct (for_each_invariant
              (fun st : Algorithm * list outcome_row =>
                 state_ok (bs_beams sc) (world sc) (fst st))
              show_outcome_step (bs_beams sc)) with (st := (my_algorithm sc, @nil outcome_row))
    as ([alg rows] & -> & Hok'); [| exact Hok |].
  - intros [alg rows] b Hb (H11 & Hbeams & Hknown & Hstarted & Hpol).
    simpl in *. unfold show_outcome_step.
    destruct (Hknown b Hb) as [[s Hs] [s2 Hs2]].
    rewrite (proj2 (getitem_Ok _ _ _) Hs). simpl.
    rewrite (proj2 (getitem_Ok _ _ _) Hs2). simpl.
    eexists. split; [reflexivity|]. simpl.
    split; [exact H11|]. split; [exact Hbeams|].
    split.
    { intros b' Hb'. simpl. destruct (Hknown b' Hb') as [H1 H2].
      split; [exact H1|].
      destruct (decide (b = b')) as [<-|Hne].
      - rewrite lookup_insert_eq. eauto.
      - rewrite lookup_insert_ne by assumption. exact H2. }
    split; [|exact Hpol].
    intros b' v' Hd. destruct (Hstarted b' v' Hd) as (st & st2 & H1 & Ho1 & H2 & Ho2).
    destruct (decide (b = b')) as [<-|Hne].
    + exists st, (Stats.reset s2). simpl. rewrite lookup_insert_eq.
      assert (s2 = st2) as -> by congruence.
      split; [exact H1|]. split; [exact Ho1|]. split; [reflexivity|].
      apply StatsFacts.reset_is_open, Ho2.
    + exists st, st2. simpl. rewrite lookup_insert_ne by assumption. auto.
  - simpl. do 2 eexists. split; [reflexivity|]. simpl in Hok'.
    split; [split; assumption|]. repeat split.
Qed.

Lemma do_mobility_ok (env : Env) (t : Q) (sc : Scenario) :
  scenario_ok sc ->
  exists sc',
    do_mobility env t sc = Ok sc' /\
    scenario_ok sc' /\ bs_beams sc' = bs_beams sc.
Proof.
  intros [Hok Hstop]. unfold do_mobility.
  destruct (for_each_invariant
              (fun st : World * Algorithm =>
                 state_ok (bs_beams sc) (fst st) (snd st))
              (check_step env t) (bs_beams sc))
    with (st := (world sc, my_algorithm sc))
    as ([w alg] & -> & Hok1); [| exact Hok |].
  { intros st b _ Hst. apply check_step_ok, Hst. }
  simpl in Hok1. simpl.
  destruct (select_loop_ok (bs_beams sc) env t
              (max_active_beam sc - count_active (bs_beams sc) w)
              w alg (rng sc) Hok1)
    as (w2 & alg2 & g2 & -> & Hok2).
  simpl.
  destruct (Qeq_bool (stop_time sc) 0) eqn:Ez.
  { apply Qeq_bool_iff in Ez. contradiction. }
  destruct (Qlt_bool (sim_next_progress sc) (t / stop_time sc)).
  - destruct (show_outcome_ok (with_state sc alg2 w2 g2))
      as (sc' & rows & -> & [Hok' Hstop'] & Hb & Hm & Hw & Hs).
    { split; [exact Hok2 | exact Hstop]. }
    simpl. eexists. split; [reflexivity|].
    split; [|exact Hb]. split; [exact Hok' | exact Hstop'].
  - eexists. split; [reflexivity|].
    split; [|reflexivity]. split; [exact Hok2 | exact Hstop].
Qed.

Lemma on_event_ok (env : Env) (t : Q) (e : Event) (sc : Scenario) :
  scenario_ok sc ->
  exists sc',
    on_event env t e sc = Ok sc' /\
    scenario_ok sc' /\ bs_beams sc' = bs_beams sc.
Proof.
  intros Hok. destruct e; simpl.
  - eauto.
  - apply do_mobility_ok, Hok.
  - destruct (show_outcome_ok sc Hok)
      as (sc' & rows & -> & Hok' & Hb & _). simpl. eauto.
Qed.

Lemma run_ok (events : list (Env * Q * Event)) :
  forall sc,
    scenario_ok sc ->
    exists sc',
      run events sc = Ok sc' /\ scenario_ok sc' /\ bs_beams sc' = bs_beams sc.
Proof.
  unfold run. induction events as [|[[env t] e] events IH]; intros sc Hok;
    simpl.
  - eauto.
  - destruct (on_event_ok env t e sc Hok) as (sc1 & -> & Hok1 & Hb1). simpl.
    destruct (IH sc1 Hok1) as (sc' & Hrun & Hok' & Hb').
    exists sc'. split; [exact Hrun|]. split; [exact Hok'|]. congruence.
Qed.

Lemma fresh_stats_known (beams : list beam) :
  forall (d : gmap beam Stats.t) (b : beam),
    b ∈ beams \/ is_Some (d !! b) ->
    is_Some (fold_left (fun d b => <[b := Stats.init]> d) beams d !! b).
Proof.
  induction beams as [|b0 beams IH]; intros d b H; simpl.
  - destruct H as [H|H]; [apply elem_of_nil in H; contradiction | exact H].
  - apply IH. destruct H as [H|H].
    + apply elem_of_cons in H as [->|H]; [|auto].
      right. rewrite lookup_insert_eq. eauto.
    + right. destruct (decide (b0 = b)) as [<-|Hne].
      * rewrite lookup_insert_eq. eauto.
      * rewrite lookup_insert_ne by assumption. exact H.
Qed.

Lemma create_ok (beams : list beam) (K : nat) (param : Param) (g : Rng) :
  ~ (p_duration param == 0)%Q -> scenario_ok (create beams K param g).
Proof.
  intros Hstop. split; [|exact Hstop]. simpl.
  split.
  { intros b v. simpl. rewrite !lookup_empty. split; discriminate. }
  split; [reflexivity|].
  split.
  { intros b Hb. simpl. split; apply fresh_stats_known; auto. }
  split.
  { intros b v. simpl. rewrite lookup_empty. discriminate. }
  unfold create_algorithm. simpl.
  assert (Hb : forall cls,
            policy_ok
              (PBandit cls (mab_setting (Some (p_mab_exploration_stop_time param))
                                        (Some (p_mab_speed param))
                                        (Bandit_init (p_timescale param))))
              (mkWorld ∅ ∅)).
  { intros cls. split; [apply Bandit_ok_init|].
    intros b v. simpl. rewrite lookup_empty. discriminate. }
  destruct (String.eqb (p_algo param) "random"); [exact I|].
  destruct (String.eqb (p_algo param) "bestsnr"); [exact I|].
  destruct (String.eqb (p_algo param) "mab"); [apply Hb|].
  destruct (String.eqb (p_algo param) "cmab"); [apply Hb|exact I].
Qed.

(** C1.  Every run, whatever the algorithm, the beams, the limit and the
    events delivered, goes through, and in the state it reaches: a beam of
    the scenario refers to no vehicle exactly when it is idle (it is among
    the available beams); a vehicle refers back to a beam exactly when that
    beam refers to it; and no vehicle is referred to by two beams. *)
Theorem allocation_keeps_one_to_one (beams : list beam) (K : nat)
    (param : Param) (g : Rng) (events : list (Env * Q * Event)) :
  ~ (p_duration param == 0)%Q ->
  exists sc,
    run events (create beams K param g) = Ok sc /\
    bs_beams sc = beams /\
    (forall b, b ∈ beams ->
       (serving_node (world sc) !! b = None
        <-> b ∈ available_beams (bs_beams sc) (world sc))) /\
    (forall b v,
       associated_bs (world sc) !! v = Some b
       <-> serving_node (world sc) !! b = Some v) /\
    (forall b1 b2 v,
       serving_node (world sc) !! b1 = Some v ->
       serving_node (world sc) !! b2 = Some v -> b1 = b2).
Proof.
  intros Hstop.
  destruct (run_ok events _ (create_ok beams K param g Hstop))
    as (sc & Hrun & [(H11 & _) _] & Hb).
  exists sc. split; [exact Hrun|]. split; [exact Hb|].
  split; [|split].
  - intros b Hin. rewrite available_beams_spec. rewrite Hb. simpl.
    split; [auto | intros [_ H]; exact H].
  - intros b v. symmetry. apply H11.
  - intros b1 b2 v H1 H2. apply H11 in H1, H2. congruence.
Qed.

Lemma allocation_keeps_one_to_one_witness :
  exists sc,
    run events_example (create [1; 2; 3] 2 param_example rng_example) = Ok sc /\
    bs_beams sc = [1; 2; 3] /\
    (forall b, b ∈ [1; 2; 3] ->
       (serving_node (world sc) !! b = None
        <-> b ∈ available_beams (bs_beams sc) (world sc))) /\
    (forall b v,
       associated_bs (world sc) !! v = Some b
       <-> serving_node (world sc) !! b = Some v) /\
    (forall b1 b2 v,
       serving_node (world sc) !! b1 = Some v ->
       serving_node (world sc) !! b2 = Some v -> b1 = b2).
Proof.
  apply (allocation_keeps_one_to_one [1; 2; 3] 2 param_example rng_example
           events_example).
  vm_compute. discriminate.
Defined.

(** The run of the witness, evaluated: beams 1 and 3 serve vehicles 1 and
    3, and each of their arms has one completed connection of duration 3. *)
Example run_example :
  exists sc s,
    run events_example (create [1; 2; 3] 2 param_example rng_example) = Ok sc /\
    map_to_list (serving_node (world sc)) = [(3, 3); (1, 1)] /\
    map_to_list (associated_bs (world sc)) = [(3, 3); (1, 1)] /\
    policy (my_algorithm sc) = PBandit CMAB s /\
    map_to_list (arm_total_reward s)
      = [("[BS-03; dist=near; dir=01]", 3%Q); ("[BS-01; dist=near; dir=01]", 3%Q)] /\
    map_to_list (arm_total_count s)
      = [("[BS-03; dist=near; dir=01]", 1); ("[BS-01; dist=near; dir=01]", 1)].
Proof.
  destruct (run events_example (create [1; 2; 3] 2 param_example rng_example))
    as [sc|e] eqn:E; vm_compute in E; [|discriminate E].
  injection E as <-. do 2 eexists. split; [reflexivity|].
  repeat split; vm_compute; reflexivity.
Qed.

Lemma bandit_completed_run :
  for_each (Bandit_call MAB_get_context) calls_completed
           (mab_setting None None (Bandit_init 1)) = Ok bandit_completed.
Proof. vm_compute. reflexivity. Qed.

Lemma predict_is_running_average_witness :
  get_past_reward bandit_completed "[BS-01]"
    = Ok (running_average 1 "[BS-01]" (records MAB_get_context ∅ calls_completed)) /\
  get_past_reward bandit_completed "[BS-02]" = Ok None /\
  get_past_reward bandit_completed "[BS-01]"
    = Ok (Some (sum_rewards (rewards_of "[BS-01]"
                               (records MAB_get_context ∅ calls_completed))
                / inject_Z (Z.of_nat (length (rewards_of "[BS-01]"
                               (records MAB_get_context ∅ calls_completed))))
                * 1)%Q).
Proof.
  split; [|split].
  - apply (proj1 (predict_is_running_average MAB_get_context 1 None None
                    calls_completed bandit_completed bandit_completed_run
                    "[BS-01]")).
  - apply (proj1 (proj2 (predict_is_running_average MAB_get_context 1 None None
                    calls_completed bandit_completed bandit_completed_run
                    "[BS-02]"))).
    vm_compute. reflexivity.
  - apply (proj2 (proj2 (predict_is_running_average MAB_get_context 1 None None
                    calls_completed bandit_completed bandit_completed_run
                    "[BS-01]"))).
    vm_compute. discriminate.
Defined.

(** The two completed connections, of durations 3 and 4, average to 7/2. *)
Example predict_completed :
  rewards_of "[BS-01]" (records MAB_get_context ∅ calls_completed)
    = [(5 - 2)%Q; (10 - 6)%Q] /\
  exists q,
    get_past_reward bandit_completed "[BS-01]" = Ok (Some q) /\ (q == 7 # 2)%Q.
Proof.
  split; [reflexivity|].
  destruct (get_past_reward bandit_completed "[BS-01]") as [[q|]|e] eqn:E;
    vm_compute in E; try discriminate E.
  injection E as <-. eexists. split; [reflexivity|]. reflexivity.
Qed.

Lemma MAB_is_CMAB_with_context_free_encoder_witness :
  do_pairing env_three 5 world_idle (fresh_bandit MAB) rng_example
    = bandit_choose context_free MAB env_three 5 world_idle (fresh_bandit MAB)
                    (Bandit_init 1) rng_example /\
  report_conn_confirmed env_three 5 1 1 10 (fresh_bandit MAB)
    = bandit_started context_free MAB env_three 5 1 1 10 (fresh_bandit MAB)
                     (Bandit_init 1) /\
  report_conn_lost 5 1 1 (fresh_bandit MAB)
    = bandit_ended MAB 5 1 1 (fresh_bandit MAB) (Bandit_init 1).
Proof.
  apply (proj2 (proj2 MAB_is_CMAB_with_context_free_encoder)
           env_three 5%Q world_idle rng_example 1 1 10%Q (fresh_bandit MAB)
           (Bandit_init 1)).
  reflexivity.
Defined.

(** The arm table the bookkeeping builds, from the fields as created, with a
    time unit that is not negative and calls in the order of time, has the
    same keys in its two dictionaries and no negative reward: the
    conditions under which the exploitation scan is characterised. *)
Lemma Bandit_calls_well_formed (enc : encoder) (tu : Q) (stop : option Q)
    (us : option bool) (now : Q) (calls : list call) (s : Bandit) :
  (0 <= tu)%Q ->
  calls_in_order now calls ->
  for_each (Bandit_call enc) calls (mab_setting stop us (Bandit_init tu)) = Ok s ->
  arm_sync s /\ arm_nonneg s.
Proof.
  intros Htu Ho Hrun. split.
  - apply (Bandit_calls_ok enc calls (mab_setting stop us (Bandit_init tu)) s
             (Bandit_ok_init stop us tu) Hrun).
  - apply (Bandit_calls_nonneg enc calls (mab_setting stop us (Bandit_init tu))
             s now); [| |exact Ho|exact Hrun].
    + split; [destruct stop, us; exact Htu|].
      intros k r. destruct stop, us; simpl; rewrite lookup_empty; discriminate.
    + intros v context start. destruct stop, us; simpl;
        rewrite lookup_empty; discriminate.
Qed.

(** * Further properties *)

(** ** Sequences of calls on a tracker *)

Lemma for_each_app {A S} (body : S -> A -> result S) (l1 l2 : list A) (st : S) :
  for_each body (l1 ++ l2) st
  = (do st <- for_each body l1 st; for_each body l2 st).
Proof.
  revert st. induction l1 as [|x l1 IH]; intros st; simpl; [reflexivity|].
  destruct (body st x) as [st1|e]; simpl; [apply IH|reflexivity].
Qed.

(** X1.  Connections begun and ended one after the other on a tracker all go
    through, whatever the tracker held before: the count goes up by their
    number, the cumulative duration by their durations in turn, and the
    start time kept is the begin time of the last one.  On a tracker as
    created, the average is then the sum of the durations divided by their
    number, and 0 without any connection. *)
Theorem tracker_connections (cs : list (Q * Q)) (s0 : Stats.t) :
  exists s,
    for_each tracker_step (connections_calls cs) s0 = Ok s /\
    Stats.total_conn s = Stats.total_conn s0 + length cs /\
    Stats.total_time s = fold_left Qplus (durations cs) (Stats.total_time s0) /\
    Stats.conn_start_time s
      = List.last (map (fun c : Q * Q => Some (fst c)) cs)
                  (Stats.conn_start_time s0) /\
    (s0 = Stats.init ->
     Stats.get_average_connection_time s
       = if Nat.eqb (length cs) 0 then 0%Q
         else (sum_rewards (durations cs)
               / inject_Z (Z.of_nat (length cs)))%Q).
Proof.
  revert s0. induction cs as [|[b e] cs IH] using rev_ind; intros s0.
  - exists s0. simpl. split; [reflexivity|]. split; [lia|].
    split; [reflexivity|]. split; [reflexivity|]. intros ->. reflexivity.
  - destruct (IH s0) as (s1 & Hrun & Hc & Ht & Hs & _).
    unfold connections_calls in *. rewrite flat_map_app, for_each_app, Hrun.
    simpl. eexists. split; [reflexivity|]. simpl.
    unfold durations in *. rewrite !map_app, fold_left_app, length_app.
    simpl. rewrite last_last, Hc, Ht.
    split; [lia|]. split; [reflexivity|]. split; [reflexivity|].
    intros ->. unfold Stats.get_average_connection_time. simpl.
    replace (Nat.eqb (length cs + 1) 0) with false
      by (symmetry; apply Nat.eqb_neq; lia).
    unfold sum_rewards. rewrite fold_left_app. reflexivity.
Qed.

Lemma tracker_connections_witness :
  exists s,
    for_each tracker_step (connections_calls [(2%Q, 5%Q); (6%Q, 10%Q)])
             Stats.init = Ok s /\
    Stats.total_conn s = 0 + 2 /\
    Stats.conn_start_time s = Some 6%Q /\
    Stats.get_average_connection_time s
      = (sum_rewards (durations [(2%Q, 5%Q); (6%Q, 10%Q)])
         / inject_Z (Z.of_nat 2))%Q.
Proof.
  destruct (tracker_connections [(2%Q, 5%Q); (6%Q, 10%Q)] Stats.init)
    as (s & Hrun & Hc & _ & Hs & Havg).
  exists s. split; [exact Hrun|]. split; [exact Hc|]. split; [exact Hs|].
  exact (Havg eq_refl).
Defined.

Lemma tracker_calls_started (calls : list tracker_call) :
  forall s, Stats.is_open s ->
    exists s', for_each tracker_step calls s = Ok s' /\ Stats.is_open s'.
Proof.
  induction calls as [|c calls IH]; intros s Ho; simpl; [eauto|].
  destruct c as [t|t|]; simpl.
  - apply IH. unfold Stats.is_open. simpl. congruence.
  - destruct (StatsFacts.conn_end_is_open t s Ho) as (s1 & -> & Ho1). simpl.
    apply IH, Ho1.
  - apply IH, StatsFacts.reset_is_open, Ho.
Qed.

Lemma tracker_calls_raise (calls : list tracker_call) :
  forall s e,
    Stats.conn_start_time s = None ->
    for_each tracker_step calls s = Raise e ->
    e = TypeError /\
    exists pre t post,
      calls = (pre ++ TEnd t :: post)%list /\
      forallb (fun c => negb (is_TBegin c)) pre = true.
Proof.
  induction calls as [|c calls IH]; intros s e Hs H; simpl in H;
    [discriminate|].
  destruct c as [t|t|]; simpl in H.
  - destruct (tracker_calls_started calls
                (Stats.mk (Some t) (Stats.total_time s) (Stats.total_conn s)))
      as (s' & Hrun & _); [unfold Stats.is_open; simpl; congruence|].
    rewrite Hrun in H. discriminate.
  - unfold Stats.conn_end in H. rewrite Hs in H. simpl in H.
    injection H as <-. split; [reflexivity|].
    exists [], t, calls. split; reflexivity.
  - apply IH in H as (-> & pre & t & post & -> & Hpre); [|exact Hs].
    split; [reflexivity|]. exists (TReset :: pre), t, post.
    split; [reflexivity|]. simpl. exact Hpre.
Qed.

Lemma tracker_calls_end_first (pre post : list tracker_call) (t : Q) :
  forallb (fun c => negb (is_TBegin c)) pre = true ->
  forall s, Stats.conn_start_time s = None ->
    for_each tracker_step (pre ++ TEnd t :: post) s = Raise TypeError.
Proof.
  induction pre as [|c pre IH]; intros Hpre s Hs; simpl.
  - unfold Stats.conn_end. rewrite Hs. reflexivity.
  - simpl in Hpre. apply andb_prop in Hpre as [Hc Hpre].
    destruct c as [t'|t'|]; simpl in Hc; [discriminate| |].
    + simpl. unfold Stats.conn_end. rewrite Hs. reflexivity.
    + simpl. apply IH; [exact Hpre|exact Hs].
Qed.

(** X2.  On a tracker as created, a sequence of calls fails exactly when a
    [conn_end] comes before every [conn_begin]; the failure is a
    [TypeError].  Every other sequence goes through, also one that ends a
    connection twice. *)
Theorem tracker_calls_failure (calls : list tracker_call) :
  (for_each tracker_step calls Stats.init = Raise TypeError <->
   exists pre t post,
     calls = (pre ++ TEnd t :: post)%list /\
     forallb (fun c => negb (is_TBegin c)) pre = true) /\
  (forall e, for_each tracker_step calls Stats.init = Raise e -> e = TypeError).
Proof.
  split; [split|].
  - intros H.
    apply (tracker_calls_raise calls Stats.init TypeError eq_refl H).
  - intros (pre & t & post & -> & Hpre).
    apply tracker_calls_end_first; [exact Hpre|reflexivity].
  - intros e H. apply (tracker_calls_raise calls Stats.init e eq_refl H).
Qed.

Lemma tracker_calls_failure_witness :
  for_each tracker_step [TReset; TEnd 5%Q; TBegin 6%Q] Stats.init
  = Raise TypeError.
Proof.
  apply (proj2 (proj1 (tracker_calls_failure [TReset; TEnd 5%Q; TBegin 6%Q]))).
  exists [TReset], 5%Q, [TBegin 6%Q]. split; reflexivity.
Defined.

(** A connection ended twice: the second end measures from the same begin. *)
Example tracker_end_twice :
  for_each tracker_step [TBegin 2; TEnd 5; TEnd 9] Stats.init
  = Ok (Stats.mk (Some 2%Q) (0 + (5 - 2) + (9 - 2)) 2).
Proof. reflexivity. Qed.

(** ** The averages of the report *)

Lemma tracker_sound_step (s s' : Stats.t) (c : tracker_call) :
  tracker_sound s -> tracker_step s c = Ok s' -> tracker_sound s'.
Proof.
  unfold tracker_sound. intros Hs H. destruct c as [t|t|]; simpl in H.
  - injection H as <-. exact Hs.
  - unfold Stats.conn_end in H.
    destruct (Stats.conn_start_time s); [|discriminate].
    injection H as <-. simpl. lia.
  - injection H as <-. simpl. intros _. reflexivity.
Qed.






(** ** The recording of visible beams *)

(** X4.  After [set_visible_beam] the vehicle holds the beam it was given.
    A call with the beam already held changes nothing, whatever the time;
    a call with another one (or none) appends exactly one record when a
    beam was held, of that beam and the time since it became visible, and
    the start time becomes the time of the call when a beam is given. *)
Theorem set_visible_beam_records (env : Env) (t : Q) (b : option beam)
    (s : Visible) :
  let beam := option_map (beam_id env) b in
  let s' := set_visible_beam env t b s in
  visible_beam s' = beam /\
  (visible_beam s = beam -> s' = s) /\
  (visible_beam s <> beam ->
   visible_beam_list s'
     = (visible_beam_list s
        ++ match visible_beam s with
           | Some visible => [(visible, (t - visible_beam_start s)%Q)]
           | None => []
           end)%list /\
   (beam <> None -> visible_beam_start s' = t)).
Proof.
  unfold set_visible_beam. destruct s as [vb st l]. simpl.
  destruct b as [b|]; destruct vb as [vb|]; simpl.
  - destruct (String.eqb vb (beam_id env b)) eqn:E.
    + apply String.eqb_eq in E as ->. simpl. split; [reflexivity|].
      split; [reflexivity|]. intros H. congruence.
    + apply String.eqb_neq in E. simpl. split; [reflexivity|].
      split; [intros [= ->]; congruence|]. intros _. split; reflexivity.
  - split; [reflexivity|]. split; [discriminate|]. intros _.
    rewrite app_nil_r. split; reflexivity.
  - split; [reflexivity|]. split; [discriminate|]. intros _.
    split; [reflexivity|]. congruence.
  - split; [reflexivity|]. split; [reflexivity|]. congruence.
Qed.

Lemma set_visible_beam_records_witness :
  set_visible_beam env_three 9 (Some 1) visible_example = visible_example /\
  visible_beam_list (set_visible_beam env_three 9 (Some 2) visible_example)
    = [("BS-01", (9 - 2)%Q)] /\
  visible_beam_start (set_visible_beam env_three 9 (Some 2) visible_example)
    = 9%Q.
Proof.
  split.
  - apply (proj1 (proj2 (set_visible_beam_records env_three 9 (Some 1)
                           visible_example))).
    reflexivity.
  - destruct (proj2 (proj2 (set_visible_beam_records env_three 9 (Some 2)
                              visible_example))) as [Hl Hs].
    + vm_compute. discriminate.
    + split; [exact Hl|]. apply Hs. vm_compute. discriminate.
Defined.

(** ** Keys and buckets *)

Lemma string_app_cons (c : ascii) (a b : string) :
  String c a ++ b = String c (a ++ b).
Proof. reflexivity. Qed.

Lemma string_app_nil (b : string) : "" ++ b = b.
Proof. reflexivity. Qed.

Lemma string_app_assoc (a b c : string) : (a ++ b) ++ c = a ++ (b ++ c).
Proof.
  induction a as [|x a IH]; [reflexivity|].
  rewrite !string_app_cons, IH. reflexivity.
Qed.

Lemma string_app_length (a b : string) :
  String.length (a ++ b) = String.length a + String.length b.
Proof.
  induction a as [|x a IH]; [reflexivity|].
  rewrite string_app_cons. simpl. rewrite IH. reflexivity.
Qed.

(** Two strings with tails of the same length are equal part by part. *)
Lemma string_app_inj_length (a b x y : string) :
  String.length x = String.length y ->
  a ++ x = b ++ y -> a = b /\ x = y.
Proof.
  intros Hlen. revert b. induction a as [|c a IH]; intros [|c' b] H;
    rewrite ?string_app_cons, ?string_app_nil in H.
  - auto.
  - exfalso. rewrite H in Hlen. simpl in Hlen.
    rewrite string_app_length in Hlen. lia.
  - exfalso. rewrite <- H in Hlen. simpl in Hlen.
    rewrite string_app_length in Hlen. lia.
  - injection H as -> H. destruct (IH b H) as [-> ->]. auto.
Qed.

Lemma CMAB_get_context_tail (us : bool) (env : Env) (b : beam) (v : vehicle)
    (cqi : Q) :
  (azimuth env v <= 360)%Q ->
  CMAB_get_context us env b v cqi
  = "[" ++ beam_id env b
        ++ key_tail us (speed_str (speed env v))
                    (dist_str (dist_by_timing_advance env v b))
                    (dir_group_of (azimuth env v)).
Proof.
  intros Hh. rewrite CMAB_get_context_cases. cbv zeta.
  assert (E : (if Qle_bool (azimuth env v) 90
               then context_prefix us env b v ++ "dir=01]"
               else if Qle_bool (azimuth env v) 180
               then context_prefix us env b v ++ "dir=02]"
               else if Qle_bool (azimuth env v) 270
               then context_prefix us env b v ++ "dir=03]"
               else if Qle_bool (azimuth env v) 360
               then context_prefix us env b v ++ "dir=04]"
               else context_prefix us env b v)
              = context_prefix us env b v
                  ++ "dir=" ++ fmt_02d (dir_group_of (azimuth env v)) ++ "]").
  { unfold dir_group_of.
    destruct (Qle_bool (azimuth env v) 90); [reflexivity|].
    destruct (Qle_bool (azimuth env v) 180); [reflexivity|].
    destruct (Qle_bool (azimuth env v) 270); [reflexivity|].
    rewrite (proj2 (Qle_bool_iff _ _) Hh). reflexivity. }
  rewrite E. unfold context_prefix, key_tail.
  fold (speed_str (speed env v)).
  fold (dist_str (dist_by_timing_advance env v b)).
  destruct us; rewrite ?string_app_assoc; reflexivity.
Qed.

Lemma speed_str_length (x : Q) : String.length (speed_str x) = 4.
Proof.
  unfold speed_str. destruct (Qlt_bool x 40); [reflexivity|].
  destruct (Qlt_bool x 50); reflexivity.
Qed.

Lemma dist_str_length (x : Q) : String.length (dist_str x) = 4.
Proof.
  unfold dist_str. destruct (Qlt_bool x 180); [reflexivity|].
  destruct (Qlt_bool x 360); reflexivity.
Qed.

Lemma dir_group_of_cases (h : Q) :
  dir_group_of h = 1 \/ dir_group_of h = 2 \/
  dir_group_of h = 3 \/ dir_group_of h = 4.
Proof.
  unfold dir_group_of. destruct (Qle_bool h 90); [auto|].
  destruct (Qle_bool h 180); [auto|]. destruct (Qle_bool h 270); auto.
Qed.

Lemma key_tail_length (us : bool) (S D : string) (k : nat) :
  String.length S = 4 -> String.length D = 4 ->
  k = 1 \/ k = 2 \/ k = 3 \/ k = 4 ->
  String.length (key_tail us S D k) = if us then 32 else 20.
Proof.
  intros HS HD Hk. unfold key_tail.
  assert (Hf : String.length (fmt_02d k) = 2)
    by (destruct Hk as [->|[->|[->| ->]]]; reflexivity).
  destruct us; rewrite ?string_app_length, ?HS, ?HD, ?Hf; reflexivity.
Qed.

(** Two strings with heads of the same length are equal part by part. *)
Lemma string_app_inj_head (a b x y : string) :
  String.length a = String.length b ->
  a ++ x = b ++ y -> a = b /\ x = y.
Proof.
  revert b. induction a as [|c a IH]; intros [|c' b] Hlen H;
    rewrite ?string_app_cons, ?string_app_nil in H; simpl in Hlen;
    try discriminate.
  - auto.
  - injection H as -> H. injection Hlen as Hlen.
    destruct (IH b Hlen H) as [-> ->]. auto.
Qed.

Lemma key_tail_inj (us : bool) (S D S' D' : string) (k k' : nat) :
  String.length S = String.length S' ->
  String.length D = String.length D' ->
  k = 1 \/ k = 2 \/ k = 3 \/ k = 4 ->
  k' = 1 \/ k' = 2 \/ k' = 3 \/ k' = 4 ->
  key_tail us S D k = key_tail us S' D' k' ->
  (us = true -> S = S') /\ D = D' /\ k = k'.
Proof.
  intros HS HD Hk Hk' H. unfold key_tail in H.
  apply String.app_inj in H.
  assert (HR : "dist=" ++ D ++ "; " ++ "dir=" ++ fmt_02d k ++ "]"
               = "dist=" ++ D' ++ "; " ++ "dir=" ++ fmt_02d k' ++ "]" /\
               (us = true -> S = S')).
  { destruct us.
    - rewrite !string_app_assoc in H. apply String.app_inj in H.
      apply (string_app_inj_head _ _ _ _ HS) in H as [-> H].
      apply String.app_inj in H. auto.
    - split; [exact H|discriminate]. }
  destruct HR as [HR HSS]. split; [exact HSS|].
  apply String.app_inj in HR.
  apply (string_app_inj_head _ _ _ _ HD) in HR as [-> HR].
  split; [reflexivity|].
  apply String.app_inj in HR. apply String.app_inj in HR.
  destruct Hk as [->|[->|[->| ->]]]; destruct Hk' as [->|[->|[->| ->]]];
    try reflexivity; vm_compute in HR; discriminate HR.
Qed.

(** X5.  For headings of at most 360 degrees, two situations get the same
    key from the contextual encoder exactly when the beams have the same
    identity and the vehicles fall in the same distance bucket, the same
    direction group and, when speed is used, the same speed bucket. *)
Theorem context_key_buckets (us : bool) (env env' : Env) (b b' : beam)
    (v v' : vehicle) (cqi cqi' : Q) :
  (azimuth env v <= 360)%Q ->
  (azimuth env' v' <= 360)%Q ->
  (CMAB_get_context us env b v cqi = CMAB_get_context us env' b' v' cqi' <->
   beam_id env b = beam_id env' b' /\
   (us = true -> speed_str (speed env v) = speed_str (speed env' v')) /\
   dist_str (dist_by_timing_advance env v b)
     = dist_str (dist_by_timing_advance env' v' b') /\
   dir_group_of (azimuth env v) = dir_group_of (azimuth env' v')).
Proof.
  intros Hh Hh'.
  rewrite (CMAB_get_context_tail us env b v cqi Hh),
          (CMAB_get_context_tail us env' b' v' cqi' Hh').
  split.
  - intros H. apply String.app_inj in H.
    apply string_app_inj_length in H as [Hid Htail].
    + split; [exact Hid|].
      apply (key_tail_inj us _ _ _ _ _ _) in Htail; [exact Htail| | | |].
      * rewrite !speed_str_length. reflexivity.
      * rewrite !dist_str_length. reflexivity.
      * apply dir_group_of_cases.
      * apply dir_group_of_cases.
    + rewrite !key_tail_length;
        auto using speed_str_length, dist_str_length, dir_group_of_cases.
  - intros (-> & HS & -> & ->). destruct us.
    + rewrite (HS eq_refl). reflexivity.
    + reflexivity.
Qed.

Lemma context_key_buckets_witness :
  CMAB_get_context true env_twins 1 1 7%Q
  = CMAB_get_context true env_twins 1 2 7%Q.
Proof.
  apply (proj2 (context_key_buckets true env_twins env_twins 1 1 1 2 7%Q 7%Q
                  ltac:(simpl; lra) ltac:(simpl; lra))).
  repeat split.
Defined.

(** ** The arm table only grows *)

Lemma arm_sync_confirmed (enc : encoder) (env : Env) (t : Q) (b : beam)
    (v : vehicle) (cqi : Q) (s : Bandit) :
  arm_sync s -> arm_sync (CMAB_confirmed enc env t b v cqi s).
Proof.
  intros Hsync k. unfold CMAB_confirmed.
  destruct (arm_total_reward s !! enc env b v cqi) eqn:E; simpl;
    [apply Hsync|].
  destruct (decide (enc env b v cqi = k)) as [<-|Hne].
  - rewrite !lookup_insert_eq. split; eauto.
  - rewrite !lookup_insert_ne by assumption. apply Hsync.
Qed.

Lemma arm_sync_lost (t : Q) (b : beam) (v : vehicle) (s s' : Bandit) :
  arm_sync s -> CMAB_lost t b v s = Ok s' -> arm_sync s'.
Proof.
  intros Hsync H.
  apply CMAB_lost_Ok in H as (context & start & r & c & Hi & Hr & Hc & ->).
  intros k. simpl. destruct (decide (context = k)) as [<-|Hne].
  - rewrite !lookup_insert_eq. split; eauto.
  - rewrite !lookup_insert_ne by assumption. apply Hsync.
Qed.

(** What one bookkeeping call keeps. *)
Lemma Bandit_call_grows (enc : encoder) (c : call) (s s' : Bandit) :
  arm_sync s ->
  Bandit_call enc s c = Ok s' ->
  arm_sync s' /\
  (forall k n, arm_total_count s !! k = Some n ->
     exists n', arm_total_count s' !! k = Some n' /\ n <= n') /\
  (forall k, is_Some (arm_total_reward s !! k) ->
     is_Some (arm_total_reward s' !! k)) /\
  (forall v, is_Some (arm_info s !! v) -> is_Some (arm_info s' !! v)) /\
  total_pulled s' = total_pulled s.
Proof.
  intros Hsync H. destruct c as [env t b v cqi | t b v]; simpl in H.
  - injection H as <-. split; [apply arm_sync_confirmed, Hsync|].
    destruct (CMAB_confirmed_fields enc env t b v cqi s) as (Hi & Hp & _).
    unfold CMAB_confirmed in *.
    destruct (arm_total_reward s !! enc env b v cqi) as [r0|] eqn:E;
      simpl in *.
    + split; [eauto|]. split; [auto|]. split; [|reflexivity].
      intros v' Hv'. destruct (decide (v = v')) as [<-|Hne].
      * rewrite lookup_insert_eq. eauto.
      * rewrite lookup_insert_ne by assumption. exact Hv'.
    + assert (Hc : arm_total_count s !! enc env b v cqi = None).
      { destruct (arm_total_count s !! enc env b v cqi) eqn:Ec;
          [|reflexivity].
        destruct (proj2 (Hsync (enc env b v cqi))) as [r Hr];
          [rewrite Ec; eauto|]. congruence. }
      split; [|split; [|split; [|reflexivity]]].
      * intros k n Hk. destruct (decide (enc env b v cqi = k)) as [<-|Hne];
          [congruence|].
        rewrite lookup_insert_ne by assumption. eauto.
      * intros k Hk. destruct (decide (enc env b v cqi = k)) as [<-|Hne].
        -- rewrite lookup_insert_eq. eauto.
        -- rewrite lookup_insert_ne by assumption. exact Hk.
      * intros v' Hv'. destruct (decide (v = v')) as [<-|Hne].
        -- rewrite lookup_insert_eq. eauto.
        -- rewrite lookup_insert_ne by assumption. exact Hv'.
  - split; [eapply arm_sync_lost; eassumption|].
    apply CMAB_lost_Ok in H as (context & start & r & c & Hi & Hr & Hc & ->).
    simpl. split; [|split; [|split; [auto|reflexivity]]].
    + intros k n Hk. destruct (decide (context = k)) as [<-|Hne].
      * rewrite lookup_insert_eq. exists (c + 1). split; [reflexivity|].
        assert (n = c) by congruence. lia.
      * rewrite lookup_insert_ne by assumption. eauto.
    + intros k Hk. destruct (decide (context = k)) as [<-|Hne].
      * rewrite lookup_insert_eq. eauto.
      * rewrite lookup_insert_ne by assumption. exact Hk.
Qed.

(** X6.  Through any sequence of bookkeeping calls that goes through, on an
    arm table whose two dictionaries have the same keys, no arm is
    forgotten and no count goes down: every context keeps its entry with a
    count at least as high, every pending connection stays known, and the
    counter of pulled arms is not touched. *)
Theorem arm_table_grows (enc : encoder) (calls : list call) (s s' : Bandit) :
  arm_sync s ->
  for_each (Bandit_call enc) calls s = Ok s' ->
  (forall k n, arm_total_count s !! k = Some n ->
     exists n', arm_total_count s' !! k = Some n' /\ n <= n') /\
  (forall k, is_Some (arm_total_reward s !! k) ->
     is_Some (arm_total_reward s' !! k)) /\
  (forall v, is_Some (arm_info s !! v) -> is_Some (arm_info s' !! v)) /\
  total_pulled s' = total_pulled s.
Proof.
  revert s. induction calls as [|c calls IH]; intros s Hsync Hrun;
    simpl in Hrun.
  - injection Hrun as <-. repeat split; eauto.
  - apply rbind_Ok in Hrun as (s1 & Hc & Hrun).
    destruct (Bandit_call_grows enc c s s1 Hsync Hc)
      as (Hsync1 & Hn1 & Hr1 & Hi1 & Hp1).
    destruct (IH s1 Hsync1 Hrun) as (Hn & Hr & Hi & Hp).
    split; [|split; [|split]].
    + intros k n Hk. destruct (Hn1 k n Hk) as (n1 & Hk1 & Hle1).
      destruct (Hn k n1 Hk1) as (n' & Hk' & Hle). exists n'.
      split; [exact Hk'|lia].
    + auto.
    + auto.
    + congruence.
Qed.

Lemma bandit_later_run :
  for_each (Bandit_call MAB_get_context) calls_later bandit_completed
  = Ok bandit_later.
Proof. vm_compute. reflexivity. Qed.

Lemma arm_table_grows_witness :
  arm_total_count bandit_completed !! "[BS-01]" = Some 2 /\
  arm_total_count bandit_later !! "[BS-01]" = Some 3 /\
  (exists n', arm_total_count bandit_later !! "[BS-01]" = Some n' /\ 2 <= n') /\
  is_Some (arm_total_reward bandit_later !! "[BS-01]") /\
  is_Some (arm_info bandit_completed !! 1) /\
  is_Some (arm_info bandit_later !! 1) /\
  total_pulled bandit_later = total_pulled bandit_completed.
Proof.
  assert (Hsync : arm_sync bandit_completed).
  { exact (proj1 (proj1 (Bandit_calls_ok MAB_get_context calls_completed _
                           bandit_completed (Bandit_ok_init None None 1)
                           bandit_completed_run))). }
  destruct (arm_table_grows MAB_get_context calls_later bandit_completed
              bandit_later Hsync bandit_later_run)
    as (Hcount & Hreward & Hinfo & Hpulled).
  assert (Hc : arm_total_count bandit_completed !! "[BS-01]" = Some 2)
    by (vm_compute; reflexivity).
  assert (Hi : is_Some (arm_info bandit_completed !! 1))
    by (vm_compute; eauto).
  split; [exact Hc|]. split; [vm_compute; reflexivity|].
  split; [exact (Hcount _ _ Hc)|].
  split; [apply Hreward; vm_compute; eauto|].
  split; [exact Hi|]. split; [exact (Hinfo _ Hi)|exact Hpulled].
Defined.

(** ** What the policies return *)

Lemma hello_scan_spec (env : Env) (w : World) (b : beam) (v : vehicle)
    (cqi : Q) :
  (v, cqi) ∈ hello_scan env w b <->
  exists sig,
    (Veh v, sig) ∈ broadcast env b /\
    associated_bs w !! v = None /\
    send_hello_to env (BS b) (Veh v) = Some cqi.
Proof.
  unfold hello_scan.
  assert (H : forall entries acc,
            (v, cqi) ∈ fold_left (hello_step env w b) entries acc <->
            (v, cqi) ∈ acc \/
            exists sig,
              (Veh v, sig) ∈ entries /\
              associated_bs w !! v = None /\
              send_hello_to env (BS b) (Veh v) = Some cqi).
  { induction entries as [|[n sig] entries IH]; intros acc; simpl.
    - split; [auto|]. intros [H|(sig & H & _)]; [exact H|].
      apply elem_of_nil in H. contradiction.
    - rewrite IH. unfold hello_step. simpl. split.
      + intros [Hacc|(sig' & Hin & Hv & Hh)].
        * destruct n as [b'|v1]; [auto|].
          destruct (associated_bs w !! v1) eqn:Ev; [auto|].
          destruct (send_hello_to env (BS b) (Veh v1)) as [q|] eqn:Eh; [|auto].
          apply elem_of_app in Hacc as [Hacc|Hacc]; [auto|].
          apply list_elem_of_singleton in Hacc. injection Hacc as -> ->.
          right. exists sig. split; [apply list_elem_of_here|auto].
        * right. exists sig'. split; [apply list_elem_of_further, Hin|auto].
      + intros [Hacc|(sig' & Hin & Hv & Hh)].
        * left. destruct n as [b'|v1]; [exact Hacc|].
          destruct (associated_bs w !! v1); [exact Hacc|].
          destruct (send_hello_to env (BS b) (Veh v1)); [|exact Hacc].
          apply elem_of_app. auto.
        * apply elem_of_cons in Hin as [Hin|Hin].
          -- injection Hin as <- <-. left. rewrite Hv, Hh.
             apply elem_of_app. right. apply list_elem_of_here.
          -- right. exists sig'. auto. }
  rewrite H. split.
  - intros [Hn|Hs]; [apply elem_of_nil in Hn; contradiction|exact Hs].
  - auto.
Qed.

Lemma list_remove_cases (x y : beam) (l : list beam) :
  y ∈ l -> y = x \/ y ∈ list_remove x l.
Proof.
  induction l as [|z l IH]; intros Hy; [apply elem_of_nil in Hy; contradiction|].
  simpl. destruct (Nat.eqb x z) eqn:E.
  - apply Nat.eqb_eq in E as <-.
    apply elem_of_cons in Hy as [->|Hy]; auto.
  - apply elem_of_cons in Hy as [->|Hy].
    + right. apply list_elem_of_here.
    + destruct (IH Hy) as [->|H]; [auto|].
      right. apply list_elem_of_further, H.
Qed.

Lemma RandomSelection_loop_none (env : Env) (w : World) (fuel : nat) :
  forall (avail : list beam) (g g' : Rng),
    RandomSelection_loop fuel env w avail g = Some (None, g') ->
    forall b, b ∈ avail -> hello_scan env w b = [].
Proof.
  induction fuel as [|fuel IH]; intros avail g g' H b Hb.
  - destruct avail; [apply elem_of_nil in Hb; contradiction|].
    simpl in H. discriminate.
  - destruct avail as [|b0 bs]; [apply elem_of_nil in Hb; contradiction|].
    cbn [RandomSelection_loop] in H.
    destruct (choice b0 bs g) as [b1 g1].
    destruct (hello_scan env w b1) as [|vc0 vcs] eqn:Es.
    + destruct (list_remove_cases b1 b (b0 :: bs) Hb) as [->|Hin];
        [exact Es|].
      eapply IH; eassumption.
    + destruct (choice vc0 vcs g1). discriminate.
Qed.

Lemma RandomSelection_loop_some (env : Env) (w : World) (fuel : nat) :
  forall (avail : list beam) (g g' : Rng) (b : beam) (v : vehicle) (cqi : Q),
    RandomSelection_loop fuel env w avail g = Some (Some (b, v, cqi), g') ->
    b ∈ avail /\ (v, cqi) ∈ hello_scan env w b.
Proof.
  induction fuel as [|fuel IH]; intros avail g g' b v cqi H.
  - destruct avail; simpl in H; discriminate.
  - destruct avail as [|b0 bs]; [simpl in H; discriminate|].
    cbn [RandomSelection_loop] in H.
    pose proof (choice_elem_of b0 bs g) as Hin.
    destruct (choice b0 bs g) as [b1 g1]. cbn [fst] in Hin.
    destruct (hello_scan env w b1) as [|vc0 vcs] eqn:Es.
    + apply IH in H as [Hb Hv]. split; [|exact Hv].
      eapply list_remove_subseteq, Hb.
    + pose proof (choice_elem_of vc0 vcs g1) as Hvc.
      destruct (choice vc0 vcs g1) as [[v1 cqi1] g2]. cbn [fst snd] in Hvc, H.
      injection H as <- <- <- <-. split; [exact Hin|].
      rewrite Es. exact Hvc.
Qed.

(** X7.  [RandomSelection.do_pairing] returns no pairing exactly when no
    available beam reaches a vehicle without service that answers its
    hello.  A pairing it returns is of an available beam and a vehicle the
    beam reaches, without service, with the quality its hello returned. *)
Theorem RandomSelection_finds_any (beams : list beam) (env : Env) (w : World)
    (g : Rng) :
  (fst (RandomSelection_do_pairing beams env w g) = None <->
   forall b v sig,
     b ∈ beams -> serving_node w !! b = None ->
     (Veh v, sig) ∈ broadcast env b ->
     associated_bs w !! v = None ->
     send_hello_to env (BS b) (Veh v) = None) /\
  (forall b v cqi,
     fst (RandomSelection_do_pairing beams env w g) = Some (b, v, cqi) ->
     b ∈ beams /\ serving_node w !! b = None /\
     associated_bs w !! v = None /\
     send_hello_to env (BS b) (Veh v) = Some cqi /\
     exists sig, (Veh v, sig) ∈ broadcast env b).
Proof.
  pose proof (RandomSelection_do_pairing_total beams env w g) as Ht.
  destruct (RandomSelection_do_pairing beams env w g) as [sel g'] eqn:E.
  simpl. split; [split|].
  - intros ->. intros b v sig Hb Hs Hin Hv.
    assert (Hscan : hello_scan env w b = []).
    { eapply RandomSelection_loop_none; [exact Ht|].
      apply available_beams_spec. auto. }
    destruct (send_hello_to env (BS b) (Veh v)) as [cqi|] eqn:Eh;
      [|reflexivity].
    assert (Hm : (v, cqi) ∈ hello_scan env w b)
      by (apply hello_scan_spec; eauto).
    rewrite Hscan in Hm. apply elem_of_nil in Hm. contradiction.
  - intros Hnone. destruct sel as [[[b v] cqi]|]; [|reflexivity].
    apply RandomSelection_loop_some in Ht as [Hb Hm].
    apply available_beams_spec in Hb as [Hb Hs].
    apply hello_scan_spec in Hm as (sig & Hin & Hv & Hh).
    rewrite (Hnone b v sig Hb Hs Hin Hv) in Hh. discriminate.
  - intros b v cqi ->.
    apply RandomSelection_loop_some in Ht as [Hb Hm].
    apply available_beams_spec in Hb as [Hb Hs].
    apply hello_scan_spec in Hm as (sig & Hin & Hv & Hh). eauto 10.
Qed.

Lemma RandomSelection_finds_any_witness :
  exists b v cqi,
    fst (RandomSelection_do_pairing [1; 2; 3] env_three world_idle rng_example)
      = Some (b, v, cqi) /\
    b ∈ [1; 2; 3] /\ serving_node world_idle !! b = None /\
    associated_bs world_idle !! v = None /\
    send_hello_to env_three (BS b) (Veh v) = Some cqi /\
    exists sig, (Veh v, sig) ∈ broadcast env_three b.
Proof.
  exists 1, 1, 10%Q. split; [vm_compute; reflexivity|].
  apply (proj2 (RandomSelection_finds_any [1; 2; 3] env_three world_idle
                  rng_example) 1 1 10%Q).
  vm_compute. reflexivity.
Defined.

Lemma reply_candidates_spec (env : Env) (w : World) (b b' : beam)
    (v : vehicle) (cqi : Q) :
  (b', v, cqi) ∈ reply_candidates env w b <->
  b' = b /\
  exists sig,
    (Veh v, sig) ∈ broadcast env b /\
    associated_bs w !! v = None /\
    unicast env (Veh v) (BS b) = Some cqi.
Proof.
  unfold reply_candidates. rewrite list_elem_of_In, in_flat_map. split.
  - intros ([n sig] & Hin & Hc). simpl in Hc.
    destruct n as [b1|v1]; [contradiction|].
    destruct (associated_bs w !! v1) eqn:Ev; [contradiction|].
    destruct (unicast env (Veh v1) (BS b)) eqn:Eu; [|contradiction].
    destruct Hc as [Hc|[]]. injection Hc as <- <- <-.
    split; [reflexivity|]. exists sig.
    split; [apply list_elem_of_In, Hin|auto].
  - intros (-> & sig & Hin & Hv & Hu). exists (Veh v, sig).
    split; [apply list_elem_of_In, Hin|]. simpl. rewrite Hv, Hu.
    left. reflexivity.
Qed.

Lemma candidates_spec (beams : list beam) (env : Env) (w : World) (b : beam)
    (v : vehicle) (cqi : Q) :
  (b, v, cqi) ∈ candidates beams env w <->
  b ∈ beams /\ serving_node w !! b = None /\
  exists sig,
    (Veh v, sig) ∈ broadcast env b /\
    associated_bs w !! v = None /\
    unicast env (Veh v) (BS b) = Some cqi.
Proof.
  unfold candidates. split.
  - intros H. apply list_elem_of_In, in_flat_map in H as (b1 & Hb1 & Hin).
    apply list_elem_of_In, available_beams_spec in Hb1 as [Hb1 Hs].
    apply list_elem_of_In, reply_candidates_spec in Hin as [-> Hin]. auto.
  - intros (Hb & Hs & Hin). apply list_elem_of_In, in_flat_map.
    exists b. split.
    + apply list_elem_of_In, available_beams_spec. auto.
    + apply list_elem_of_In, reply_candidates_spec. auto.
Qed.

(** The pairing the exploitation scan holds is the one it started with or a
    candidate, whether or not the scan goes through. *)
Lemma reward_scan_elem_of (enc : encoder) (s : Bandit) (env : Env)
    (w : World) (beams : list beam) :
  forall (st st' : Q * option pairing),
    for_each (fun st b =>
                for_each (reward_step enc s env w b) (broadcast env b) st)
             beams st = Ok st' ->
    snd st' = snd st \/
    exists c, snd st' = Some c /\ c ∈ flat_map (reply_candidates env w) beams.
Proof.
  assert (Hin : forall b entries st st',
            for_each (reward_step enc s env w b) entries st = Ok st' ->
            snd st' = snd st \/
            exists v cqi sig,
              snd st' = Some (b, v, cqi) /\ (Veh v, sig) ∈ entries /\
              associated_bs w !! v = None /\
              unicast env (Veh v) (BS b) = Some cqi).
  { intros b entries. induction entries as [|[n sig] entries IH];
      intros st st' H; simpl in H.
    - injection H as <-. auto.
    - apply rbind_Ok in H as (st1 & H1 & H).
      apply IH in H as [H|(v & cqi & sig' & Hs & Hm & Hv & Hu)].
      + unfold reward_step in H1. simpl in H1.
        destruct n as [b'|v]; [injection H1 as <-; auto|].
        destruct (associated_bs w !! v) eqn:Ev; [injection H1 as <-; auto|].
        destruct (unicast env (Veh v) (BS b)) as [cqi|] eqn:Eu;
          [|injection H1 as <-; auto].
        apply rbind_Ok in H1 as (p & _ & H1).
        destruct p as [p|]; [|injection H1 as <-; auto].
        destruct (Qlt_bool (fst st) p); [|injection H1 as <-; auto].
        injection H1 as <-. right. exists v, cqi, sig.
        split; [exact H|]. split; [apply list_elem_of_here|auto].
      + right. exists v, cqi, sig'. split; [exact Hs|].
        split; [apply list_elem_of_further, Hm|auto]. }
  induction beams as [|b beams IH]; intros st st' H; simpl in H.
  - injection H as <-. auto.
  - apply rbind_Ok in H as (st1 & H1 & H).
    apply IH in H as [H|(c & Hc & Hm)].
    + apply Hin in H1 as [H1|(v & cqi & sig & Hs & Hm & Hv & Hu)].
      * left. congruence.
      * right. exists (b, v, cqi). split; [rewrite H; exact Hs|].
        simpl. apply elem_of_app. left.
        apply reply_candidates_spec. eauto.
    + right. exists c. split; [exact Hc|]. simpl. apply elem_of_app. auto.
Qed.

(** X8.  Whatever the class of the algorithm and whatever it holds, a
    pairing [do_pairing] returns is of a beam of the algorithm that serves
    no vehicle and of a vehicle that beam reaches, that no beam serves, and
    whose reply the beam receives with the quality returned; and
    [do_pairing] leaves the trackers and the beams of the algorithm as they
    are. *)
Theorem do_pairing_returns_free_pair (env : Env) (t : Q) (w : World)
    (alg alg' : Algorithm) (g g' : Rng) (sel : option pairing) :
  do_pairing env t w alg g = Ok (sel, alg', g') ->
  all_beams alg' = all_beams alg /\
  stats alg' = stats alg /\ stats2 alg' = stats2 alg /\
  forall b v cqi,
    sel = Some (b, v, cqi) ->
    b ∈ all_beams alg /\ serving_node w !! b = None /\
    associated_bs w !! v = None /\
    unicast env (Veh v) (BS b) = Some cqi /\
    exists sig, (Veh v, sig) ∈ broadcast env b.
Proof.
  assert (Hrandom : forall g b v cqi,
            fst (RandomSelection_do_pairing (all_beams alg) env w g)
              = Some (b, v, cqi) ->
            b ∈ all_beams alg /\ serving_node w !! b = None /\
            associated_bs w !! v = None /\
            unicast env (Veh v) (BS b) = Some cqi /\
            exists sig, (Veh v, sig) ∈ broadcast env b).
  { intros g0 b v cqi Hsel.
    pose proof (RandomSelection_do_pairing_total (all_beams alg) env w g0) as Ht.
    destruct (RandomSelection_do_pairing (all_beams alg) env w g0)
      as [sel0 g1]. simpl in Hsel. subst sel0.
    apply RandomSelection_loop_some in Ht as [Hb Hm].
    apply available_beams_spec in Hb as [Hb Hs].
    apply hello_scan_spec in Hm as (sig & Hin & Hv & Hh).
    split; [exact Hb|]. split; [exact Hs|]. split; [exact Hv|].
    split; [|eauto]. unfold send_hello_to in Hh.
    destruct (unicast env (BS b) (Veh v)); [|discriminate].
    destruct (unicast env (Veh v) (BS b)); [exact Hh|discriminate]. }
  assert (Hcand : forall b v cqi,
            (b, v, cqi) ∈ candidates (all_beams alg) env w ->
            b ∈ all_beams alg /\ serving_node w !! b = None /\
            associated_bs w !! v = None /\
            unicast env (Veh v) (BS b) = Some cqi /\
            exists sig, (Veh v, sig) ∈ broadcast env b).
  { intros b v cqi Hc.
    apply candidates_spec in Hc as (Hb & Hs & sig & Hin & Hv & Hu). eauto 10. }
  unfold do_pairing. destruct (policy alg) as [| |cls s] eqn:Ep.
  - destruct (RandomSelection_do_pairing (all_beams alg) env w g)
      as [sel0 g0] eqn:E.
    intros [= <- <- <-]. split; [reflexivity|].
    split; [reflexivity|]. split; [reflexivity|].
    intros b v cqi ->. apply (Hrandom g). rewrite E. reflexivity.
  - intros [= <- <- <-]. split; [reflexivity|].
    split; [reflexivity|]. split; [reflexivity|].
    intros b v cqi Hsel. apply Hcand.
    destruct (HighestCQI_do_pairing_first_highest (all_beams alg) env w)
      as [Hnil Hcons].
    destruct (candidates (all_beams alg) env w) as [|c0 cs] eqn:Ec.
    + rewrite Hnil in Hsel by reflexivity. discriminate.
    + destruct Hcons as (c & Hc & Hfirst); [discriminate|].
      rewrite Hc in Hsel. injection Hsel as ->.
      eapply first_highest_elem_of, Hfirst.
  - intros H. apply rbind_Ok in H as ([[sel0 s0] g0] & Hc & H).
    injection H as <- <- <-. split; [reflexivity|].
    split; [reflexivity|]. split; [reflexivity|].
    intros b v cqi ->. unfold CMAB_do_pairing in Hc.
    destruct (Qlt_bool t (exploration_stop_time s)).
    + destruct (RandomSelection_do_pairing (all_beams alg) env w g)
        as [sel1 g1] eqn:E.
      injection Hc as -> _ _. apply (Hrandom g). rewrite E. reflexivity.
    + destruct (available_beams (all_beams alg) w) as [|b0 bs] eqn:Ea;
        [discriminate|].
      apply rbind_Ok in Hc as (st & Hscan & Hc). injection Hc as Hsel _ _.
      apply reward_scan_elem_of in Hscan as [Hs|(c & Hs & Hm)].
      * simpl in Hs. congruence.
      * apply Hcand. unfold candidates. rewrite Ea.
        assert (c = (b, v, cqi)) as <- by congruence. exact Hm.
Qed.

Lemma do_pairing_returns_free_pair_witness :
  all_beams fresh_highest = all_beams fresh_highest /\
  stats fresh_highest = stats fresh_highest /\
  stats2 fresh_highest = stats2 fresh_highest /\
  forall b v cqi,
    Some (2, 2, 25%Q) = Some (b, v, cqi) ->
    b ∈ all_beams fresh_highest /\ serving_node world_idle !! b = None /\
    associated_bs world_idle !! v = None /\
    unicast env_three (Veh v) (BS b) = Some cqi /\
    exists sig, (Veh v, sig) ∈ broadcast env_three b.
Proof.
  apply (do_pairing_returns_free_pair env_three 5 world_idle fresh_highest
           fresh_highest rng_example rng_example (Some (2, 2, 25%Q))).
  vm_compute. reflexivity.
Defined.

(** ** Invariants of a run, in general *)

Lemma check_step_cases (env : Env) (t : Q) (w w' : World)
    (alg alg' : Algorithm) (b : beam) :
  check_step env t (w, alg) b = Ok (w', alg') ->
  (w' = w /\ alg' = alg /\
   forall v, serving_node w !! b = Some v ->
             send_hello_to env (BS b) (Veh v) <> None) \/
  (exists v,
     serving_node w !! b = Some v /\
     send_hello_to env (BS b) (Veh v) = None /\
     w' = mkWorld (delete b (serving_node w)) (delete v (associated_bs w)) /\
     report_conn_lost t b v alg = Ok alg').
Proof.
  unfold check_step. destruct (serving_node w !! b) as [v|] eqn:Eb.
  - destruct (send_hello_to env (BS b) (Veh v)) as [q|] eqn:Eh.
    + intros [= <- <-]. left. split; [reflexivity|]. split; [reflexivity|].
      intros v' [= <-]. congruence.
    + rewrite (lost_vehicle_serving w b v Eb). simpl. intros H.
      apply rbind_Ok in H as (alg1 & Hl & H). injection H as <- <-.
      right. exists v. auto.
  - intros [= <- <-]. left. split; [reflexivity|]. split; [reflexivity|].
    discriminate.
Qed.

Lemma result_Ok_inj {A} (m : result A) (a b : A) :
  m = Ok a -> m = Ok b -> a = b.
Proof. congruence. Qed.

Section Invariant.

Variable beams : list beam.
Variable P : World -> Algorithm -> Prop.

Hypothesis P_release :
  forall t w alg b v alg',
    state_ok beams w alg -> P w alg ->
    serving_node w !! b = Some v ->
    report_conn_lost t b v alg = Ok alg' ->
    P (mkWorld (delete b (serving_node w)) (delete v (associated_bs w))) alg'.

Hypothesis P_pairing :
  forall env t w alg g sel alg' g',
    state_ok beams w alg -> P w alg ->
    do_pairing env t w alg g = Ok (sel, alg', g') ->
    P w alg'.

Hypothesis P_commit :
  forall env t w alg b v cqi alg',
    state_ok beams w alg -> P w alg ->
    b ∈ beams ->
    serving_node w !! b = None ->
    associated_bs w !! v = None ->
    report_conn_confirmed env t b v cqi alg = Ok alg' ->
    P (connect_vehicle b v w) alg'.

Hypothesis P_report :
  forall w alg rows b alg' rows',
    state_ok beams w alg -> P w alg ->
    b ∈ beams ->
    show_outcome_step (alg, rows) b = Ok (alg', rows') ->
    P w alg'.

Lemma check_loop_keeps (env : Env) (t : Q) (l : list beam) :
  forall w alg w' alg',
    state_ok beams w alg -> P w alg ->
    for_each (check_step env t) l (w, alg) = Ok (w', alg') ->
    state_ok beams w' alg' /\ P w' alg'.
Proof.
  induction l as [|b l IH]; intros w alg w' alg' Hok HP H; simpl in H.
  - injection H as <- <-. auto.
  - apply rbind_Ok in H as ([w1 alg1] & H1 & H).
    destruct (check_step_ok beams env t b (w, alg) Hok) as ([w1' alg1'] & H1' & Hok1).
    pose proof (result_Ok_inj _ _ _ H1' H1) as [= -> ->]. simpl in Hok1.
    apply (IH w1 alg1 w' alg' Hok1); [|exact H].
    apply check_step_cases in H1
      as [(-> & -> & _)|(v & Hb & Hh & -> & Hl)]; [exact HP|].
    eapply P_release; eassumption.
Qed.

Lemma select_loop_keeps (env : Env) (t : Q) (room : nat) :
  forall w alg g w' alg' g',
    state_ok beams w alg -> P w alg ->
    select_loop room env t w alg g = Ok (w', alg', g') ->
    state_ok beams w' alg' /\ P w' alg'.
Proof.
  induction room as [|room IH]; intros w alg g w' alg' g' Hok HP H;
    simpl in H.
  - injection H as <- <- <-. auto.
  - apply rbind_Ok in H as ([[sel alg1] g1] & Hd & H).
    destruct (do_pairing_ok beams env t w alg g Hok)
      as (sel' & alg1' & g1' & Hd' & Hok1 & Hsel).
    pose proof (result_Ok_inj _ _ _ Hd' Hd) as [= -> -> ->].
    pose proof (P_pairing _ _ _ _ _ _ _ _ Hok HP Hd) as HP1.
    destruct sel as [[[b v] cqi]|].
    + destruct (Hsel b v cqi eq_refl) as (Hin & Hb & Hv).
      apply rbind_Ok in H as (alg2 & Hc & H).
      destruct (commit_ok beams env t w alg1 b v cqi Hok1 Hin Hb Hv)
        as (alg2' & Hc' & Hok2).
      pose proof (result_Ok_inj _ _ _ Hc' Hc) as ->.
      eapply (IH _ _ _ _ _ _ Hok2); [|exact H].
      eapply P_commit; eassumption.
    + injection H as <- <- <-. auto.
Qed.

Lemma report_loop_keeps (w : World) (l : list beam) :
  (forall b, b ∈ l -> b ∈ beams) ->
  forall alg rows alg' rows',
    state_ok beams w alg -> P w alg ->
    for_each show_outcome_step l (alg, rows) = Ok (alg', rows') ->
    state_ok beams w alg' /\ P w alg'.
Proof.
  induction l as [|b l IH]; intros Hl alg rows alg' rows' Hok HP H;
    simpl in H.
  - injection H as <- <-. auto.
  - apply rbind_Ok in H as ([alg1 rows1] & H1 & H).
    assert (Hb : b ∈ beams) by apply Hl, list_elem_of_here.
    pose proof (P_report _ _ _ _ _ _ Hok HP Hb H1) as HP1.
    assert (Hok1 : state_ok beams w alg1).
    { destruct Hok as (H11 & Hbeams & Hknown & Hstarted & Hpol).
      unfold show_outcome_step in H1.
      apply rbind_Ok in H1 as (s & Hs & H1).
      apply rbind_Ok in H1 as (s2 & Hs2 & H1). injection H1 as <- _.
      apply getitem_Ok in Hs, Hs2.
      split; [exact H11|]. split; [exact Hbeams|]. split.
      - intros b' Hb'. simpl. destruct (Hknown b' Hb') as [Hk1 Hk2].
        split; [exact Hk1|]. destruct (decide (b = b')) as [<-|Hne].
        + rewrite lookup_insert_eq. eauto.
        + rewrite lookup_insert_ne by assumption. exact Hk2.
      - split; [|exact Hpol].
        intros b' v' Hd.
        destruct (Hstarted b' v' Hd) as (st & st2 & Hst & Ho & Hst2 & Ho2).
        destruct (decide (b = b')) as [<-|Hne].
        + exists st, (Stats.reset s2). simpl. rewrite lookup_insert_eq.
          assert (s2 = st2) as -> by congruence.
          split; [exact Hst|]. split; [exact Ho|]. split; [reflexivity|].
          apply StatsFacts.reset_is_open, Ho2.
        + exists st, st2. simpl. rewrite lookup_insert_ne by assumption.
          auto. }
    apply (IH (fun b' Hb' => Hl b' (list_elem_of_further _ _ _ Hb'))
              alg1 rows1 alg' rows' Hok1 HP1 H).
Qed.

Lemma show_outcome_keeps (sc sc' : Scenario) (rows : list outcome_row) :
  bs_beams sc = beams ->
  scenario_ok sc -> P (world sc) (my_algorithm sc) ->
  show_outcome sc = Ok (sc', rows) ->
  P (world sc') (my_algorithm sc').
Proof.
  intros Hb [Hok _] HP H. unfold show_outcome in H.
  apply rbind_Ok in H as ([alg rows1] & Hr & H). injection H as <- <-.
  simpl. rewrite Hb in Hok, Hr.
  eapply report_loop_keeps; [|exact Hok|exact HP|exact Hr]. auto.
Qed.

Lemma do_mobility_keeps (env : Env) (t : Q) (sc sc' : Scenario) :
  bs_beams sc = beams ->
  scenario_ok sc -> P (world sc) (my_algorithm sc) ->
  do_mobility env t sc = Ok sc' ->
  P (world sc') (my_algorithm sc').
Proof.
  intros Hb [Hok Hstop] HP H. unfold do_mobility in H.
  rewrite Hb in Hok, H.
  apply rbind_Ok in H as ([w1 alg1] & Hc & H).
  destruct (check_loop_keeps env t beams _ _ _ _ Hok HP Hc) as [Hok1 HP1].
  apply rbind_Ok in H as ([[w2 alg2] g2] & Hs & H).
  destruct (select_loop_keeps env t _ _ _ _ _ _ _ Hok1 HP1 Hs) as [Hok2 HP2].
  simpl in H.
  destruct (Qeq_bool (stop_time sc) 0); [discriminate|].
  destruct (Qlt_bool (sim_next_progress sc) (t / stop_time sc)).
  - apply rbind_Ok in H as ([sc1 rows] & Hr & H). injection H as <-. simpl.
    eapply (show_outcome_keeps (with_state sc alg2 w2 g2) sc1 rows);
      [exact Hb| |exact HP2|exact Hr].
    split; [simpl; rewrite Hb; exact Hok2|exact Hstop].
  - injection H as <-. exact HP2.
Qed.

Lemma run_keeps (events : list (Env * Q * Event)) :
  forall sc sc',
    bs_beams sc = beams ->
    scenario_ok sc -> P (world sc) (my_algorithm sc) ->
    run events sc = Ok sc' ->
    P (world sc') (my_algorithm sc').
Proof.
  unfold run. induction events as [|[[env t] e] events IH];
    intros sc sc' Hb Hok HP H; simpl in H.
  - injection H as <-. exact HP.
  - apply rbind_Ok in H as (sc1 & He & H).
    destruct (on_event_ok env t e sc Hok) as (sc1' & He' & Hok1 & Hb1).
    pose proof (result_Ok_inj _ _ _ He' He) as ->.
    apply (IH sc1 sc'); [congruence|exact Hok1| |exact H].
    destruct e; simpl in He.
    + injection He as <-. exact HP.
    + eapply do_mobility_keeps; eassumption.
    + apply rbind_Ok in He as ([sc2 rows] & Hr & He). injection He as <-.
      eapply show_outcome_keeps; eassumption.
Qed.

End Invariant.

(** ** What the operations of the algorithm change *)

Lemma report_conn_lost_Ok (t : Q) (b : beam) (v : vehicle)
    (alg alg' : Algorithm) :
  report_conn_lost t b v alg = Ok alg' ->
  exists alg1,
    VSA_report_conn_lost t b v alg = Ok alg1 /\
    match policy alg with
    | PBandit cls s =>
        exists s', CMAB_lost t b v s = Ok s' /\
                   alg' = with_policy alg1 (PBandit cls s')
    | _ => alg' = alg1
    end.
Proof.
  unfold report_conn_lost. destruct (policy alg) as [| |cls s]; intros H.
  - eauto.
  - eauto.
  - apply rbind_Ok in H as (alg1 & H1 & H).
    apply rbind_Ok in H as (s' & Hl & H). injection H as <-. eauto.
Qed.

Lemma report_conn_confirmed_Ok (env : Env) (t : Q) (b : beam) (v : vehicle)
    (cqi : Q) (alg alg' : Algorithm) :
  report_conn_confirmed env t b v cqi alg = Ok alg' ->
  exists alg1,
    VSA_report_conn_confirmed t b v cqi alg = Ok alg1 /\
    match policy alg with
    | PBandit cls s =>
        alg' = with_policy alg1
                 (PBandit cls (CMAB_confirmed (get_context cls s) env t b v cqi s))
    | _ => alg' = alg1
    end.
Proof.
  unfold report_conn_confirmed. destruct (policy alg) as [| |cls s]; intros H.
  - eauto.
  - eauto.
  - apply rbind_Ok in H as (alg1 & H1 & H). injection H as <-. eauto.
Qed.

Lemma do_pairing_frame (env : Env) (t : Q) (w : World) (alg alg' : Algorithm)
    (g g' : Rng) (sel : option pairing) :
  do_pairing env t w alg g = Ok (sel, alg', g') ->
  all_beams alg' = all_beams alg /\
  stats alg' = stats alg /\ stats2 alg' = stats2 alg /\
  match policy alg with
  | PBandit cls s =>
      exists s',
        policy alg' = PBandit cls s' /\
        arm_total_reward s' = arm_total_reward s /\
        arm_total_count s' = arm_total_count s /\
        arm_info s' = arm_info s /\
        (total_pulled s' = total_pulled s \/
         total_pulled s' = total_pulled s + 1)
  | p => policy alg' = p
  end.
Proof.
  unfold do_pairing. destruct (policy alg) as [| |cls s] eqn:Ep.
  - destruct (RandomSelection_do_pairing (all_beams alg) env w g).
    intros [= <- <- <-]. auto.
  - intros [= <- <- <-]. auto.
  - intros H. apply rbind_Ok in H as ([[sel0 s0] g0] & Hc & H).
    injection H as <- <- <-. split; [reflexivity|]. split; [reflexivity|].
    split; [reflexivity|]. exists s0. split; [reflexivity|].
    unfold CMAB_do_pairing in Hc.
    destruct (Qlt_bool t (exploration_stop_time s)).
    + destruct (RandomSelection_do_pairing (all_beams alg) env w g).
      injection Hc as _ <- _. simpl. auto.
    + destruct (available_beams (all_beams alg) w).
      * injection Hc as _ <- _. auto.
      * apply rbind_Ok in Hc as (st & _ & Hc). injection Hc as _ <- _.
        simpl. auto.
Qed.

Lemma show_outcome_step_Ok (alg alg' : Algorithm) (rows rows' : list outcome_row)
    (b : beam) :
  show_outcome_step (alg, rows) b = Ok (alg', rows') ->
  exists s s2,
    stats alg !! b = Some s /\ stats2 alg !! b = Some s2 /\
    alg' = mkAlgorithm (all_beams alg) (max_active_sector alg) (stats alg)
             (<[b := Stats.reset s2]> (stats2 alg)) (policy alg) /\
    rows' = (rows ++ [(b, Stats.get_average_connection_time s,
                       Stats.get_connection_count s,
                       Stats.get_average_connection_time s2,
                       Stats.get_connection_count s2)])%list.
Proof.
  unfold show_outcome_step. intros H.
  apply rbind_Ok in H as (s & Hs & H).
  apply rbind_Ok in H as (s2 & Hs2 & H). injection H as <- <-.
  apply getitem_Ok in Hs, Hs2. eauto 10.
Qed.

(** ** The start times of a connection agree *)

Lemma starts_agree_release (beams : list beam) (t : Q) (w : World)
    (alg : Algorithm) (b : beam) (v : vehicle) (alg' : Algorithm) :
  state_ok beams w alg -> starts_agree w alg ->
  serving_node w !! b = Some v ->
  report_conn_lost t b v alg = Ok alg' ->
  starts_agree
    (mkWorld (delete b (serving_node w)) (delete v (associated_bs w))) alg'.
Proof.
  intros _ Hs Hb H b' v' Hd. simpl in Hd.
  apply lookup_delete_Some in Hd as [Hne Hd].
  destruct (Hs b' v' Hd) as (st & st2 & start & H1 & E1 & H2 & E2 & Hp).
  apply report_conn_lost_Ok in H as (alg1 & Hv & H).
  apply VSA_report_conn_lost_Ok in Hv
    as (s1 & s2 & a1 & a2 & _ & _ & _ & _ & ->).
  exists st, st2, start.
  destruct (policy alg) as [| |cls s] eqn:Ep.
  - subst alg'. simpl. rewrite !lookup_insert_ne by assumption.
    rewrite ?Ep. auto.
  - subst alg'. simpl. rewrite !lookup_insert_ne by assumption.
    rewrite ?Ep. auto.
  - destruct H as (s' & Hl & ->). simpl.
    rewrite !lookup_insert_ne by assumption.
    apply CMAB_lost_Ok in Hl as (? & ? & ? & ? & _ & _ & _ & ->). simpl.
    auto.
Qed.

Lemma starts_agree_pairing (beams : list beam) (env : Env) (t : Q)
    (w : World) (alg : Algorithm) (g : Rng) (sel : option pairing)
    (alg' : Algorithm) (g' : Rng) :
  state_ok beams w alg -> starts_agree w alg ->
  do_pairing env t w alg g = Ok (sel, alg', g') ->
  starts_agree w alg'.
Proof.
  intros _ Hs H b v Hb.
  destruct (Hs b v Hb) as (st & st2 & start & H1 & E1 & H2 & E2 & Hp).
  apply do_pairing_frame in H as (_ & Hst & Hst2 & Hpol).
  exists st, st2, start. rewrite Hst, Hst2.
  split; [exact H1|]. split; [exact E1|]. split; [exact H2|].
  split; [exact E2|].
  destruct (policy alg) as [| |cls s].
  - rewrite Hpol. exact I.
  - rewrite Hpol. exact I.
  - destruct Hpol as (s' & -> & _ & _ & -> & _). exact Hp.
Qed.

Lemma starts_agree_commit (beams : list beam) (env : Env) (t : Q)
    (w : World) (alg : Algorithm) (b : beam) (v : vehicle) (cqi : Q)
    (alg' : Algorithm) :
  state_ok beams w alg -> starts_agree w alg ->
  b ∈ beams ->
  serving_node w !! b = None ->
  associated_bs w !! v = None ->
  report_conn_confirmed env t b v cqi alg = Ok alg' ->
  starts_agree (connect_vehicle b v w) alg'.
Proof.
  intros (H11 & _) Hs _ Hb Hv H b' v' Hd.
  apply report_conn_confirmed_Ok in H as (alg1 & Hc & H).
  apply VSA_report_conn_confirmed_Ok in Hc as (s1 & s2 & Hs1 & Hs2 & ->).
  unfold connect_vehicle, connect_bs in Hd. simpl in Hd.
  destruct (decide (b = b')) as [<-|Hne].
  - rewrite lookup_insert_eq in Hd. injection Hd as <-.
    do 2 eexists. exists t.
    destruct (policy alg) as [| |cls s] eqn:Ep.
    + subst alg'. simpl. rewrite !lookup_insert_eq, ?Ep. repeat split.
    + subst alg'. simpl. rewrite !lookup_insert_eq, ?Ep. repeat split.
    + subst alg'. simpl. rewrite !lookup_insert_eq.
      split; [reflexivity|]. split; [reflexivity|]. split; [reflexivity|].
      split; [reflexivity|].
      destruct (CMAB_confirmed_fields (get_context cls s) env t b v cqi s)
        as (-> & _). rewrite lookup_insert_eq. eauto.
  - rewrite lookup_insert_ne in Hd by assumption.
    destruct (Hs b' v' Hd) as (st & st2 & start & H1 & E1 & H2 & E2 & Hp).
    assert (Hnv : v <> v').
    { intros <-. apply H11 in Hd. congruence. }
    exists st, st2, start.
    destruct (policy alg) as [| |cls s] eqn:Ep.
    + subst alg'. simpl. rewrite !lookup_insert_ne by assumption.
      rewrite ?Ep. auto.
    + subst alg'. simpl. rewrite !lookup_insert_ne by assumption.
      rewrite ?Ep. auto.
    + subst alg'. simpl. rewrite !lookup_insert_ne by assumption.
      split; [exact H1|]. split; [exact E1|]. split; [exact H2|].
      split; [exact E2|].
      destruct (CMAB_confirmed_fields (get_context cls s) env t b v cqi s)
        as (-> & _). rewrite lookup_insert_ne by assumption. exact Hp.
Qed.

Lemma starts_agree_report (beams : list beam) (w : World) (alg : Algorithm)
    (rows : list outcome_row) (b : beam) (alg' : Algorithm)
    (rows' : list outcome_row) :
  state_ok beams w alg -> starts_agree w alg ->
  b ∈ beams ->
  show_outcome_step (alg, rows) b = Ok (alg', rows') ->
  starts_agree w alg'.
Proof.
  intros _ Hs _ H b' v' Hd.
  apply show_outcome_step_Ok in H as (s & s2 & Hst & Hst2 & -> & _).
  destruct (Hs b' v' Hd) as (st & st2 & start & H1 & E1 & H2 & E2 & Hp).
  destruct (decide (b = b')) as [<-|Hne].
  - exists st, (Stats.reset s2), start. simpl. rewrite lookup_insert_eq.
    assert (s2 = st2) as -> by congruence. auto.
  - exists st, st2, start. simpl. rewrite lookup_insert_ne by assumption.
    auto.
Qed.

Lemma starts_agree_run (beams : list beam) (K : nat) (param : Param)
    (g : Rng) (events : list (Env * Q * Event)) (sc : Scenario) :
  ~ (p_duration param == 0)%Q ->
  run events (create beams K param g) = Ok sc ->
  scenario_ok sc /\ bs_beams sc = beams /\
  starts_agree (world sc) (my_algorithm sc).
Proof.
  intros Hstop Hrun.
  pose proof (create_ok beams K param g Hstop) as Hok.
  destruct (run_ok events _ Hok) as (sc' & Hrun' & Hok' & Hb).
  pose proof (result_Ok_inj _ _ _ Hrun' Hrun) as ->.
  split; [exact Hok'|]. split; [exact Hb|].
  apply (run_keeps beams starts_agree
           (starts_agree_release beams) (starts_agree_pairing beams)
           (starts_agree_commit beams) (starts_agree_report beams)
           events (create beams K param g) sc eq_refl Hok); [|exact Hrun].
  intros b v Hd. simpl in Hd. rewrite lookup_empty in Hd. discriminate.
Qed.

Lemma scenario_example_run :
  run events_example (create [1; 2; 3] 2 param_example rng_example)
  = Ok scenario_example.
Proof. vm_compute. reflexivity. Qed.

Lemma param_example_duration : ~ (p_duration param_example == 0)%Q.
Proof. vm_compute. discriminate. Qed.

(** X9.  In the state any run reaches, the connection of a serving beam can
    be reported lost at any time, and the loss is measured once: the
    lifetime tracker and the session tracker of the beam both gain the time
    since the same start and one connection, and for a bandit the arm of
    the context pending for the vehicle gains that same duration as
    reward. *)
Theorem lost_reward_is_tracked_duration (beams : list beam) (K : nat)
    (param : Param) (g : Rng) (events : list (Env * Q * Event))
    (sc : Scenario) :
  ~ (p_duration param == 0)%Q ->
  run events (create beams K param g) = Ok sc ->
  forall (b : beam) (v : vehicle) (t : Q),
    serving_node (world sc) !! b = Some v ->
    exists start st st2 alg',
      stats (my_algorithm sc) !! b = Some st /\
      stats2 (my_algorithm sc) !! b = Some st2 /\
      report_conn_lost t b v (my_algorithm sc) = Ok alg' /\
      stats alg' !! b
        = Some (Stats.mk (Some start) (Stats.total_time st + (t - start))
                         (Stats.total_conn st + 1)) /\
      stats2 alg' !! b
        = Some (Stats.mk (Some start) (Stats.total_time st2 + (t - start))
                         (Stats.total_conn st2 + 1)) /\
      forall cls s,
        policy (my_algorithm sc) = PBandit cls s ->
        exists context r s',
          arm_info s !! v = Some (context, start) /\
          arm_total_reward s !! context = Some r /\
          policy alg' = PBandit cls s' /\
          arm_total_reward s' !! context = Some (r + (t - start))%Q.
Proof.
  intros Hstop Hrun b v t Hb.
  destruct (starts_agree_run beams K param g events sc Hstop Hrun)
    as ([Hok _] & Hbeams & Hagree).
  rewrite Hbeams in Hok.
  destruct (Hagree b v Hb) as (st & st2 & start & H1 & E1 & H2 & E2 & Hp).
  destruct (release_ok beams t _ _ b v Hok Hb) as (alg' & Hl & _).
  exists start, st, st2, alg'.
  split; [exact H1|]. split; [exact H2|]. split; [exact Hl|].
  apply report_conn_lost_Ok in Hl as (alg1 & Hv & Hl).
  apply VSA_report_conn_lost_Ok in Hv
    as (s1 & s2 & a1 & a2 & Hs1 & Hs2 & Ea1 & Ea2 & ->).
  assert (s1 = st) as -> by congruence.
  assert (s2 = st2) as -> by congruence.
  assert (a1 = start) as -> by congruence.
  assert (a2 = start) as -> by congruence.
  destruct (policy (my_algorithm sc)) as [| |cls s] eqn:Ep.
  - subst alg'. simpl. rewrite !lookup_insert_eq.
    split; [reflexivity|]. split; [reflexivity|]. discriminate.
  - subst alg'. simpl. rewrite !lookup_insert_eq.
    split; [reflexivity|]. split; [reflexivity|]. discriminate.
  - destruct Hl as (s' & Hl & ->). simpl. rewrite !lookup_insert_eq.
    split; [reflexivity|]. split; [reflexivity|].
    intros cls0 s0 [= <- <-].
    destruct Hp as [context Hi].
    destruct Hok as (_ & _ & _ & _ & Hpol). rewrite Ep in Hpol.
    destruct Hpol as [Hbok _].
    destruct (CMAB_lost_pending t b v s context start Hbok Hi)
      as (r & c & Hr & Hc & Hl').
    rewrite Hl' in Hl. injection Hl as <-.
    exists context, r. eexists. split; [exact Hi|]. split; [exact Hr|].
    split; [reflexivity|]. simpl. apply lookup_insert_eq.
Qed.

Lemma lost_reward_is_tracked_duration_witness :
  exists start st st2 alg',
    stats (my_algorithm scenario_example) !! 1 = Some st /\
    stats2 (my_algorithm scenario_example) !! 1 = Some st2 /\
    report_conn_lost 120 1 1 (my_algorithm scenario_example) = Ok alg' /\
    stats alg' !! 1
      = Some (Stats.mk (Some start) (Stats.total_time st + (120 - start))
                       (Stats.total_conn st + 1)) /\
    stats2 alg' !! 1
      = Some (Stats.mk (Some start) (Stats.total_time st2 + (120 - start))
                       (Stats.total_conn st2 + 1)) /\
    forall cls s,
      policy (my_algorithm scenario_example) = PBandit cls s ->
      exists context r s',
        arm_info s !! 1 = Some (context, start) /\
        arm_total_reward s !! context = Some r /\
        policy alg' = PBandit cls s' /\
        arm_total_reward s' !! context = Some (r + (120 - start))%Q.
Proof.
  apply (lost_reward_is_tracked_duration [1; 2; 3] 2 param_example rng_example
           events_example scenario_example param_example_duration
           scenario_example_run 1 1 120%Q).
  vm_compute. reflexivity.
Defined.

(** ** The session tracker follows the lifetime tracker *)

Lemma trackers_agree_release (beams : list beam) (t : Q) (w : World)
    (alg : Algorithm) (b : beam) (v : vehicle) (alg' : Algorithm) :
  state_ok beams w alg -> trackers_agree alg ->
  serving_node w !! b = Some v ->
  report_conn_lost t b v alg = Ok alg' ->
  trackers_agree alg'.
Proof.
  intros _ Ha _ H.
  apply report_conn_lost_Ok in H as (alg1 & Hv & H).
  apply VSA_report_conn_lost_Ok in Hv
    as (s1 & s2 & a1 & a2 & Hs1 & Hs2 & Ea1 & Ea2 & ->).
  assert (Hstats : stats alg' = <[b := Stats.mk (Some a1)
                                     (Stats.total_time s1 + (t - a1))
                                     (Stats.total_conn s1 + 1)]> (stats alg) /\
                   stats2 alg' = <[b := Stats.mk (Some a2)
                                     (Stats.total_time s2 + (t - a2))
                                     (Stats.total_conn s2 + 1)]> (stats2 alg)).
  { destruct (policy alg) as [| |cls s]; [subst alg'; auto..|].
    destruct H as (s' & _ & ->). auto. }
  destruct Hstats as [E E2]. intros b' st st2. rewrite E, E2.
  destruct (Ha b s1 s2 Hs1 Hs2) as (Hstart & Hle & _ & _).
  destruct (decide (b = b')) as [<-|Hne].
  - rewrite !lookup_insert_eq. intros [= <-] [= <-]. simpl.
    split; [congruence|]. split; [lia|].
    unfold tracker_sound. simpl. split; intros; lia.
  - rewrite !lookup_insert_ne by assumption. apply Ha.
Qed.

Lemma trackers_agree_pairing (beams : list beam) (env : Env) (t : Q)
    (w : World) (alg : Algorithm) (g : Rng) (sel : option pairing)
    (alg' : Algorithm) (g' : Rng) :
  state_ok beams w alg -> trackers_agree alg ->
  do_pairing env t w alg g = Ok (sel, alg', g') ->
  trackers_agree alg'.
Proof.
  intros _ Ha H. apply do_pairing_frame in H as (_ & E & E2 & _).
  intros b st st2. rewrite E, E2. apply Ha.
Qed.

Lemma trackers_agree_commit (beams : list beam) (env : Env) (t : Q)
    (w : World) (alg : Algorithm) (b : beam) (v : vehicle) (cqi : Q)
    (alg' : Algorithm) :
  state_ok beams w alg -> trackers_agree alg ->
  b ∈ beams ->
  serving_node w !! b = None ->
  associated_bs w !! v = None ->
  report_conn_confirmed env t b v cqi alg = Ok alg' ->
  trackers_agree alg'.
Proof.
  intros _ Ha _ _ _ H.
  apply report_conn_confirmed_Ok in H as (alg1 & Hc & H).
  apply VSA_report_conn_confirmed_Ok in Hc as (s1 & s2 & Hs1 & Hs2 & ->).
  assert (Hstats : stats alg' = <[b := Stats.mk (Some t) (Stats.total_time s1)
                                     (Stats.total_conn s1)]> (stats alg) /\
                   stats2 alg' = <[b := Stats.mk (Some t) (Stats.total_time s2)
                                     (Stats.total_conn s2)]> (stats2 alg)).
  { destruct (policy alg) as [| |cls s]; subst alg'; auto. }
  destruct Hstats as [E E2]. intros b' st st2. rewrite E, E2.
  destruct (Ha b s1 s2 Hs1 Hs2) as (_ & Hle & Hsound & Hsound2).
  destruct (decide (b = b')) as [<-|Hne].
  - rewrite !lookup_insert_eq. intros [= <-] [= <-]. simpl.
    split; [reflexivity|]. split; [exact Hle|]. split; assumption.
  - rewrite !lookup_insert_ne by assumption. apply Ha.
Qed.

Lemma trackers_agree_report (beams : list beam) (w : World) (alg : Algorithm)
    (rows : list outcome_row) (b : beam) (alg' : Algorithm)
    (rows' : list outcome_row) :
  state_ok beams w alg -> trackers_agree alg ->
  b ∈ beams ->
  show_outcome_step (alg, rows) b = Ok (alg', rows') ->
  trackers_agree alg'.
Proof.
  intros _ Ha _ H.
  apply show_outcome_step_Ok in H as (s & s2 & Hst & Hst2 & -> & _).
  intros b' st st2. simpl.
  destruct (Ha b s s2 Hst Hst2) as (Hstart & _ & Hsound & _).
  destruct (decide (b = b')) as [<-|Hne].
  - rewrite lookup_insert_eq. intros E [= <-]. simpl.
    assert (st = s) as -> by congruence.
    split; [exact Hstart|]. split; [lia|]. split; [exact Hsound|].
    unfold tracker_sound. simpl. intros _. reflexivity.
  - rewrite lookup_insert_ne by assumption. apply Ha.
Qed.

Lemma fresh_stats_lookup (beams : list beam) :
  forall (d : gmap beam Stats.t) (b : beam) (st : Stats.t),
    fold_left (fun d b => <[b := Stats.init]> d) beams d !! b = Some st ->
    st = Stats.init \/ d !! b = Some st.
Proof.
  induction beams as [|b0 beams IH]; intros d b st H; simpl in H; [auto|].
  apply IH in H as [H|H]; [auto|].
  destruct (decide (b0 = b)) as [<-|Hne].
  - rewrite lookup_insert_eq in H. injection H as <-. auto.
  - rewrite lookup_insert_ne in H by assumption. auto.
Qed.

(** X10.  In the state any run reaches, the session tracker of a beam
    holds the start time its lifetime tracker holds and counts no more
    connections, and neither holds a duration without a connection. *)
Theorem session_follows_lifetime (beams : list beam) (K : nat)
    (param : Param) (g : Rng) (events : list (Env * Q * Event))
    (sc : Scenario) :
  ~ (p_duration param == 0)%Q ->
  run events (create beams K param g) = Ok sc ->
  forall b st st2,
    stats (my_algorithm sc) !! b = Some st ->
    stats2 (my_algorithm sc) !! b = Some st2 ->
    Stats.conn_start_time st2 = Stats.conn_start_time st /\
    Stats.total_conn st2 <= Stats.total_conn st /\
    (Stats.total_conn st = 0 -> (Stats.total_time st == 0)%Q) /\
    (Stats.total_conn st2 = 0 -> (Stats.total_time st2 == 0)%Q).
Proof.
  intros Hstop Hrun.
  pose proof (create_ok beams K param g Hstop) as Hok.
  apply (run_keeps beams (fun _ alg => trackers_agree alg)
           (trackers_agree_release beams) (trackers_agree_pairing beams)
           (trackers_agree_commit beams) (trackers_agree_report beams)
           events (create beams K param g) sc eq_refl Hok); [|exact Hrun].
  intros b st st2 H1 H2. simpl in H1, H2.
  apply fresh_stats_lookup in H1 as [->|H1];
    [|rewrite lookup_empty in H1; discriminate].
  apply fresh_stats_lookup in H2 as [->|H2];
    [|rewrite lookup_empty in H2; discriminate].
  split; [reflexivity|]. split; [lia|].
  unfold tracker_sound. simpl. split; intros _; reflexivity.
Qed.

Lemma session_follows_lifetime_witness :
  exists st st2,
    stats (my_algorithm scenario_example) !! 1 = Some st /\
    stats2 (my_algorithm scenario_example) !! 1 = Some st2 /\
    Stats.conn_start_time st2 = Stats.conn_start_time st /\
    Stats.total_conn st2 <= Stats.total_conn st.
Proof.
  assert (H1 : is_Some (stats (my_algorithm scenario_example) !! 1))
    by (vm_compute; eauto).
  assert (H2 : is_Some (stats2 (my_algorithm scenario_example) !! 1))
    by (vm_compute; eauto).
  destruct H1 as [st H1], H2 as [st2 H2]. exists st, st2.
  split; [exact H1|]. split; [exact H2|].
  destruct (session_follows_lifetime [1; 2; 3] 2 param_example rng_example
              events_example scenario_example param_example_duration
              scenario_example_run 1 st st2 H1 H2) as (Ha & Hb & _).
  split; [exact Ha|exact Hb].
Defined.

(** ** The limit on active beams *)

Lemma count_active_length (bs : list beam) (w : World) :
  count_active bs w
  = length (filter (fun b => is_Some (serving_node w !! b)) bs).
Proof.
  unfold count_active.
  assert (H : forall n,
            fold_left (fun num_active_beam b =>
                         match serving_node w !! b with
                         | Some _ => num_active_beam + 1
                         | None => num_active_beam
                         end) bs n
            = n + length (filter (fun b => is_Some (serving_node w !! b)) bs)).
  { induction bs as [|b bs IH]; intros n; simpl; [lia|].
    rewrite IH. destruct (serving_node w !! b) as [v|] eqn:E.
    - rewrite filter_cons_True by (rewrite E; eauto). simpl. lia.
    - rewrite filter_cons_False by (rewrite E; intros [x Hx]; discriminate).
      reflexivity. }
  apply H.
Qed.

(** When only beams of the list serve, the count of the second loop of
    [do_mobility] is at least the number of serving beams. *)
Lemma count_active_ge_size (bs : list beam) (w : World) :
  serving_in bs w -> size (serving_node w) <= count_active bs w.
Proof.
  intros Hin. rewrite count_active_length, <- length_map_to_list.
  rewrite <- (length_fmap fst (map_to_list (serving_node w))).
  apply submseteq_length, NoDup_submseteq.
  - apply NoDup_fst_map_to_list.
  - intros b Hb. apply list_elem_of_fmap in Hb as ([b' v] & -> & Hb).
    apply elem_of_map_to_list in Hb. simpl.
    apply list_elem_of_filter. split; [rewrite Hb; eauto|].
    apply Hin. rewrite Hb. eauto.
Qed.

Lemma check_loop_shrinks (env : Env) (t : Q) (l : list beam) :
  forall w alg w' alg',
    for_each (check_step env t) l (w, alg) = Ok (w', alg') ->
    forall b v, serving_node w' !! b = Some v -> serving_node w !! b = Some v.
Proof.
  induction l as [|b0 l IH]; intros w alg w' alg' H b v Hb; simpl in H.
  - injection H as <- <-. exact Hb.
  - apply rbind_Ok in H as ([w1 alg1] & H1 & H).
    pose proof (IH _ _ _ _ H b v Hb) as Hb1.
    apply check_step_cases in H1
      as [(-> & _ & _)|(v0 & _ & _ & -> & _)]; [exact Hb1|].
    simpl in Hb1. apply lookup_delete_Some in Hb1 as [_ Hb1]. exact Hb1.
Qed.

Lemma select_loop_size (beams : list beam) (env : Env) (t : Q) (room : nat) :
  forall w alg g w' alg' g',
    state_ok beams w alg ->
    select_loop room env t w alg g = Ok (w', alg', g') ->
    size (serving_node w') <= size (serving_node w) + room.
Proof.
  induction room as [|room IH]; intros w alg g w' alg' g' Hok H; simpl in H.
  - injection H as <- <- <-. lia.
  - apply rbind_Ok in H as ([[sel alg1] g1] & Hd & H).
    destruct (do_pairing_ok beams env t w alg g Hok)
      as (sel' & alg1' & g1' & Hd' & Hok1 & Hsel).
    pose proof (result_Ok_inj _ _ _ Hd' Hd) as [= -> -> ->].
    destruct sel as [[[b v] cqi]|].
    + destruct (Hsel b v cqi eq_refl) as (Hin & Hb & Hv).
      apply rbind_Ok in H as (alg2 & Hc & H).
      destruct (commit_ok beams env t w alg1 b v cqi Hok1 Hin Hb Hv)
        as (alg2' & Hc' & Hok2).
      pose proof (result_Ok_inj _ _ _ Hc' Hc) as ->.
      apply (IH _ _ _ _ _ _ Hok2) in H.
      unfold connect_vehicle, connect_bs in H. simpl in H.
      rewrite (map_size_insert_None _ _ _ Hb) in H. lia.
    + injection H as <- <- <-. lia.
Qed.

Lemma show_outcome_world (sc sc' : Scenario) (rows : list outcome_row) :
  show_outcome sc = Ok (sc', rows) ->
  world sc' = world sc /\ bs_beams sc' = bs_beams sc /\
  max_active_beam sc' = max_active_beam sc.
Proof.
  unfold show_outcome. intros H.
  apply rbind_Ok in H as ([alg rows1] & _ & H). injection H as <- _. auto.
Qed.

Lemma serving_in_release (beams : list beam) (t : Q) (w : World)
    (alg : Algorithm) (b : beam) (v : vehicle) (alg' : Algorithm) :
  state_ok beams w alg -> serving_in beams w ->
  serving_node w !! b = Some v ->
  report_conn_lost t b v alg = Ok alg' ->
  serving_in beams
    (mkWorld (delete b (serving_node w)) (delete v (associated_bs w))).
Proof.
  intros _ Hin _ _ b' [v' Hb']. simpl in Hb'.
  apply lookup_delete_Some in Hb' as [_ Hb']. apply Hin. eauto.
Qed.

Lemma serving_in_commit (beams : list beam) (env : Env) (t : Q)
    (w : World) (alg : Algorithm) (b : beam) (v : vehicle) (cqi : Q)
    (alg' : Algorithm) :
  state_ok beams w alg -> serving_in beams w ->
  b ∈ beams ->
  serving_node w !! b = None ->
  associated_bs w !! v = None ->
  report_conn_confirmed env t b v cqi alg = Ok alg' ->
  serving_in beams (connect_vehicle b v w).
Proof.
  intros _ Hin Hb _ _ _ b' [v' Hb'].
  unfold connect_vehicle, connect_bs in Hb'. simpl in Hb'.
  destruct (decide (b = b')) as [<-|Hne]; [exact Hb|].
  rewrite lookup_insert_ne in Hb' by assumption. apply Hin. eauto.
Qed.

(** One tick keeps the limit. *)
Lemma do_mobility_capacity (env : Env) (t : Q) (sc sc' : Scenario) :
  scenario_ok sc ->
  serving_in (bs_beams sc) (world sc) ->
  size (serving_node (world sc)) <= max_active_beam sc ->
  do_mobility env t sc = Ok sc' ->
  serving_in (bs_beams sc') (world sc') /\
  size (serving_node (world sc')) <= max_active_beam sc' /\
  bs_beams sc' = bs_beams sc /\ max_active_beam sc' = max_active_beam sc.
Proof.
  intros [Hok Hstop] Hin Hsize H. unfold do_mobility in H.
  apply rbind_Ok in H as ([w1 alg1] & Hc & H).
  destruct (check_loop_keeps (bs_beams sc) (fun w _ => serving_in (bs_beams sc) w)
              (serving_in_release (bs_beams sc)) env t (bs_beams sc)
              _ _ _ _ Hok Hin Hc) as [Hok1 Hin1].
  pose proof (check_loop_shrinks env t _ _ _ _ _ Hc) as Hsub.
  assert (Hsize1 : size (serving_node w1) <= size (serving_node (world sc))).
  { apply map_subseteq_size, map_subseteq_spec. exact Hsub. }
  apply rbind_Ok in H as ([[w2 alg2] g2] & Hs & H).
  destruct (select_loop_keeps (bs_beams sc)
              (fun w _ => serving_in (bs_beams sc) w)
              (fun _ _ w _ _ _ _ _ _ HP _ => HP)
              (serving_in_commit (bs_beams sc))
              env t _ _ _ _ _ _ _ Hok1 Hin1 Hs) as [Hok2 Hin2].
  pose proof (select_loop_size (bs_beams sc) env t _ _ _ _ _ _ _ Hok1 Hs)
    as Hsize2.
  pose proof (count_active_ge_size (bs_beams sc) w1 Hin1) as Hcount.
  assert (Hfinal : size (serving_node w2) <= max_active_beam sc) by lia.
  simpl in H.
  destruct (Qeq_bool (stop_time sc) 0); [discriminate|].
  destruct (Qlt_bool (sim_next_progress sc) (t / stop_time sc)).
  - apply rbind_Ok in H as ([sc1 rows] & Hr & H). injection H as <-. simpl.
    apply show_outcome_world in Hr as (-> & -> & ->). simpl. auto.
  - injection H as <-. simpl. auto.
Qed.

Lemma run_capacity (events : list (Env * Q * Event)) :
  forall sc0 sc1,
    scenario_ok sc0 ->
    serving_in (bs_beams sc0) (world sc0) ->
    size (serving_node (world sc0)) <= max_active_beam sc0 ->
    run events sc0 = Ok sc1 ->
    scenario_ok sc1 /\
    serving_in (bs_beams sc1) (world sc1) /\
    size (serving_node (world sc1)) <= max_active_beam sc1 /\
    bs_beams sc1 = bs_beams sc0 /\
    max_active_beam sc1 = max_active_beam sc0.
Proof.
  unfold run.
  induction events as [|[[env t] e] events IH];
    intros sc0 sc1 Hok Hin Hsize H; simpl in H.
  - injection H as <-. auto.
  - apply rbind_Ok in H as (sc' & He & H).
    destruct (on_event_ok env t e sc0 Hok) as (sc'' & He' & Hok' & _).
    pose proof (result_Ok_inj _ _ _ He' He) as ->.
    assert (Hstep : serving_in (bs_beams sc') (world sc') /\
                    size (serving_node (world sc')) <= max_active_beam sc' /\
                    bs_beams sc' = bs_beams sc0 /\
                    max_active_beam sc' = max_active_beam sc0).
    { destruct e; simpl in He.
      - injection He as <-. auto.
      - eapply do_mobility_capacity; eassumption.
      - apply rbind_Ok in He as ([sc2 rows] & Hr & He). injection He as <-.
        apply show_outcome_world in Hr as (-> & -> & ->). auto. }
    destruct Hstep as (Hin' & Hsize' & Hb' & Hk').
    destruct (IH sc' sc1 Hok' Hin' Hsize' H)
      as (Hok1 & Hin1 & Hsize1 & Hb1 & Hk1).
    split; [exact Hok1|]. split; [exact Hin1|]. split; [exact Hsize1|].
    split; congruence.
Qed.

Lemma create_capacity (beams : list beam) (K : nat) (param : Param) (g : Rng)
    (events : list (Env * Q * Event)) (sc : Scenario) :
  ~ (p_duration param == 0)%Q ->
  run events (create beams K param g) = Ok sc ->
  scenario_ok sc /\
  serving_in beams (world sc) /\
  size (serving_node (world sc)) <= K /\
  bs_beams sc = beams /\ max_active_beam sc = K.
Proof.
  intros Hstop Hrun.
  pose proof (create_ok beams K param g Hstop) as Hok0.
  destruct (run_capacity events (create beams K param g) sc Hok0)
    as (Hok & Hin & Hsize & Hb & Hk); [| |exact Hrun|].
  - intros b [v Hv]. simpl in Hv. rewrite lookup_empty in Hv. discriminate.
  - simpl. rewrite map_size_empty. lia.
  - simpl in Hb, Hk. rewrite Hk in Hsize. rewrite Hb in Hin. auto.
Qed.

(** X11.  In the state any run reaches, no more beams serve than the limit
    [max_active_beam] allows, no more vehicles are served, and only beams
    of the scenario serve. *)
Theorem active_beams_within_limit (beams : list beam) (K : nat)
    (param : Param) (g : Rng) (events : list (Env * Q * Event))
    (sc : Scenario) :
  ~ (p_duration param == 0)%Q ->
  run events (create beams K param g) = Ok sc ->
  size (serving_node (world sc)) <= K /\
  size (associated_bs (world sc)) <= K /\
  forall b, is_Some (serving_node (world sc) !! b) -> b ∈ beams.
Proof.
  intros Hstop Hrun.
  destruct (create_capacity beams K param g events sc Hstop Hrun)
    as ([(H11 & _) _] & Hin & Hsize & _ & _).
  split; [exact Hsize|]. split; [|exact Hin].
  assert (Hle : size (associated_bs (world sc))
                <= size (serving_node (world sc))); [|lia].
  rewrite <- !length_map_to_list.
  rewrite <- (length_fmap snd (map_to_list (associated_bs (world sc)))),
          <- (length_fmap fst (map_to_list (serving_node (world sc)))).
  apply submseteq_length, NoDup_submseteq.
  - apply NoDup_fmap_2_strong; [|apply NoDup_map_to_list].
    intros [v1 b1] [v2 b2] H1 H2 Heq. simpl in Heq. subst b2.
    apply elem_of_map_to_list in H1, H2.
    apply H11 in H1, H2. f_equal. congruence.
  - intros b Hb0. apply list_elem_of_fmap in Hb0 as ([v b'] & -> & Hvb).
    apply elem_of_map_to_list in Hvb. simpl.
    apply H11 in Hvb. apply list_elem_of_fmap. exists (b', v).
    split; [reflexivity|]. apply elem_of_map_to_list. exact Hvb.
Qed.

Lemma active_beams_within_limit_witness :
  size (serving_node (world scenario_example)) <= 2 /\
  size (associated_bs (world scenario_example)) <= 2 /\
  forall b, is_Some (serving_node (world scenario_example) !! b) ->
            b ∈ [1; 2; 3].
Proof.
  apply (active_beams_within_limit [1; 2; 3] 2 param_example rng_example
           events_example scenario_example param_example_duration
           scenario_example_run).
Defined.

(** ** The connections of one tick *)

Lemma check_loop_live (env : Env) (t : Q) (l : list beam) :
  forall w alg w' alg',
    for_each (check_step env t) l (w, alg) = Ok (w', alg') ->
    forall b v,
      serving_node w !! b = Some v ->
      send_hello_to env (BS b) (Veh v) <> None ->
      serving_node w' !! b = Some v.
Proof.
  induction l as [|b0 l IH]; intros w alg w' alg' H b v Hb Hh; simpl in H.
  - injection H as <- <-. exact Hb.
  - apply rbind_Ok in H as ([w1 alg1] & H1 & H).
    apply (IH _ _ _ _ H b v); [|exact Hh].
    apply check_step_cases in H1
      as [(-> & _ & _)|(v0 & Hb0 & Hh0 & -> & _)]; [exact Hb|].
    simpl. destruct (decide (b0 = b)) as [->|Hne].
    + assert (v0 = v) as -> by congruence. contradiction.
    + rewrite lookup_delete_ne by assumption. exact Hb.
Qed.

Lemma check_loop_dead (env : Env) (t : Q) (l : list beam) :
  forall w alg w' alg',
    for_each (check_step env t) l (w, alg) = Ok (w', alg') ->
    forall b v,
      b ∈ l ->
      serving_node w' !! b = Some v ->
      send_hello_to env (BS b) (Veh v) <> None.
Proof.
  induction l as [|b0 l IH]; intros w alg w' alg' H b v Hin Hb; simpl in H.
  - apply elem_of_nil in Hin. contradiction.
  - apply rbind_Ok in H as ([w1 alg1] & H1 & H).
    apply elem_of_cons in Hin as [->|Hin]; [|eapply IH; eassumption].
    pose proof (check_loop_shrinks env t l _ _ _ _ H b0 v Hb) as Hb1.
    apply check_step_cases in H1
      as [(-> & _ & Hlive)|(v0 & _ & _ & -> & _)]; [apply Hlive, Hb1|].
    simpl in Hb1. rewrite lookup_delete_eq in Hb1. discriminate.
Qed.

(** A beam serving when the selection loop ends was serving when it began
    or had its tracker begun at the time of the tick. *)
Lemma select_loop_new (beams : list beam) (env : Env) (t : Q)
    (R : beam -> vehicle -> Prop) (room : nat) :
  forall w alg g w' alg' g',
    state_ok beams w alg ->
    (forall b v, serving_node w !! b = Some v ->
       R b v \/ exists st, stats alg !! b = Some st /\
                           Stats.conn_start_time st = Some t) ->
    select_loop room env t w alg g = Ok (w', alg', g') ->
    (forall b v, serving_node w !! b = Some v ->
                 serving_node w' !! b = Some v) /\
    (forall b v, serving_node w' !! b = Some v ->
       R b v \/ exists st, stats alg' !! b = Some st /\
                           Stats.conn_start_time st = Some t).
Proof.
  induction room as [|room IH]; intros w alg g w' alg' g' Hok HR H;
    simpl in H.
  - injection H as <- <- <-. auto.
  - apply rbind_Ok in H as ([[sel alg1] g1] & Hd & H).
    destruct (do_pairing_ok beams env t w alg g Hok)
      as (sel' & alg1' & g1' & Hd' & Hok1 & Hsel).
    pose proof (result_Ok_inj _ _ _ Hd' Hd) as [= -> -> ->].
    destruct (do_pairing_frame _ _ _ _ _ _ _ _ Hd) as (_ & Est & _ & _).
    destruct sel as [[[b0 v0] cqi]|].
    + destruct (Hsel b0 v0 cqi eq_refl) as (Hin & Hb & Hv).
      apply rbind_Ok in H as (alg2 & Hc & H).
      destruct (commit_ok beams env t w alg1 b0 v0 cqi Hok1 Hin Hb Hv)
        as (alg2' & Hc' & Hok2).
      pose proof (result_Ok_inj _ _ _ Hc' Hc) as ->.
      assert (Est2 : exists s1,
                stats alg1 !! b0 = Some s1 /\
                stats alg2
                = <[b0 := Stats.mk (Some t) (Stats.total_time s1)
                                   (Stats.total_conn s1)]> (stats alg1)).
      { apply report_conn_confirmed_Ok in Hc as (alg3 & Hv3 & Hc).
        apply VSA_report_conn_confirmed_Ok in Hv3
          as (s1 & s2 & Hs1 & _ & ->).
        exists s1. split; [exact Hs1|].
        destruct (policy alg1); subst alg2; reflexivity. }
      destruct Est2 as (s1 & Hs1 & Est2).
      assert (HR2 : forall b v,
                serving_node (connect_vehicle b0 v0 w) !! b = Some v ->
                R b v \/ exists st, stats alg2 !! b = Some st /\
                                    Stats.conn_start_time st = Some t).
      { intros b v Hbv. unfold connect_vehicle, connect_bs in Hbv.
        simpl in Hbv. rewrite Est2.
        destruct (decide (b0 = b)) as [<-|Hne].
        - right. rewrite lookup_insert_eq. eauto.
        - rewrite lookup_insert_ne in Hbv by assumption.
          rewrite lookup_insert_ne by assumption. rewrite Est.
          apply (HR b v Hbv). }
      destruct (IH _ _ _ _ _ _ Hok2 HR2 H) as [Hkeep Hnew].
      split; [|exact Hnew].
      intros b v Hbv. apply Hkeep.
      unfold connect_vehicle, connect_bs. simpl.
      rewrite lookup_insert_ne by congruence. exact Hbv.
    + injection H as <- <- <-. split; [auto|].
      intros b v Hbv. rewrite Est. apply (HR b v Hbv).
Qed.

Lemma show_outcome_stats (sc sc' : Scenario) (rows : list outcome_row) :
  show_outcome sc = Ok (sc', rows) ->
  stats (my_algorithm sc') = stats (my_algorithm sc) /\
  policy (my_algorithm sc') = policy (my_algorithm sc).
Proof.
  unfold show_outcome. intros H.
  apply rbind_Ok in H as ([alg rows1] & Hr & H). injection H as <- _.
  simpl. revert Hr. generalize (my_algorithm sc). generalize (@nil outcome_row).
  induction (bs_beams sc) as [|b l IH]; intros rows0 alg0 Hr; simpl in Hr.
  - injection Hr as <- _. auto.
  - apply rbind_Ok in Hr as ([alg1 rows2] & H1 & Hr).
    apply IH in Hr as [-> ->].
    apply show_outcome_step_Ok in H1 as (s & s2 & _ & _ & -> & _). auto.
Qed.

(** X12.  From the state any run reaches, a tick goes through and keeps
    every connection whose vehicle answers the hello of its beam; and every
    beam that serves after the tick either kept such a connection or was
    paired during the tick, its lifetime tracker holding the time of the
    tick as start time. *)
Theorem tick_keeps_live_connections (beams : list beam) (K : nat)
    (param : Param) (g : Rng) (events : list (Env * Q * Event))
    (sc : Scenario) (env : Env) (t : Q) :
  ~ (p_duration param == 0)%Q ->
  run events (create beams K param g) = Ok sc ->
  exists sc',
    do_mobility env t sc = Ok sc' /\
    (forall b v,
       serving_node (world sc) !! b = Some v ->
       send_hello_to env (BS b) (Veh v) <> None ->
       serving_node (world sc') !! b = Some v) /\
    (forall b v,
       serving_node (world sc') !! b = Some v ->
       (serving_node (world sc) !! b = Some v /\
        send_hello_to env (BS b) (Veh v) <> None) \/
       exists st,
         stats (my_algorithm sc') !! b = Some st /\
         Stats.conn_start_time st = Some t).
Proof.
  intros Hstop Hrun.
  destruct (create_capacity beams K param g events sc Hstop Hrun)
    as (Hsok & Hin & _ & Hb & _).
  destruct (do_mobility_ok env t sc Hsok) as (sc' & Hdo & _ & _).
  exists sc'. split; [exact Hdo|].
  destruct Hsok as [Hok _]. unfold do_mobility in Hdo.
  apply rbind_Ok in Hdo as ([w1 alg1] & Hc & Hdo).
  rewrite Hb in Hok, Hc, Hdo.
  destruct (check_loop_keeps beams (fun _ _ => True)
              (fun _ _ _ _ _ _ _ _ _ _ => I) env t beams
              _ _ _ _ Hok I Hc) as [Hok1 _].
  apply rbind_Ok in Hdo as ([[w2 alg2] g2] & Hs & Hdo).
  assert (HR : forall b v,
            serving_node w1 !! b = Some v ->
            (serving_node (world sc) !! b = Some v /\
             send_hello_to env (BS b) (Veh v) <> None) \/
            exists st, stats alg1 !! b = Some st /\
                       Stats.conn_start_time st = Some t).
  { intros b v Hbv. left.
    pose proof (check_loop_shrinks env t _ _ _ _ _ Hc b v Hbv) as Hb0.
    split; [exact Hb0|].
    eapply check_loop_dead; [exact Hc| |exact Hbv].
    apply Hin. rewrite Hb0. eauto. }
  destruct (select_loop_new beams env t
              (fun b v => serving_node (world sc) !! b = Some v /\
                          send_hello_to env (BS b) (Veh v) <> None)
              _ _ _ _ _ _ _ Hok1 HR Hs) as [Hkeep Hnew].
  assert (Hfinal : world sc' = w2 /\
                   stats (my_algorithm sc') = stats alg2).
  { simpl in Hdo.
    destruct (Qeq_bool (stop_time sc) 0); [discriminate|].
    destruct (Qlt_bool (sim_next_progress sc) (t / stop_time sc)).
    - apply rbind_Ok in Hdo as ([sc1 rows] & Hr & Hdo). injection Hdo as <-.
      simpl. destruct (show_outcome_world _ _ _ Hr) as (-> & _).
      destruct (show_outcome_stats _ _ _ Hr) as (-> & _). auto.
    - injection Hdo as <-. auto. }
  destruct Hfinal as [-> ->]. split.
  - intros b v Hbv Hh. apply Hkeep.
    eapply check_loop_live; eassumption.
  - exact Hnew.
Qed.

Lemma tick_keeps_live_connections_witness :
  exists sc',
    do_mobility env_three 120 scenario_example = Ok sc' /\
    (forall b v,
       serving_node (world scenario_example) !! b = Some v ->
       send_hello_to env_three (BS b) (Veh v) <> None ->
       serving_node (world sc') !! b = Some v) /\
    (forall b v,
       serving_node (world sc') !! b = Some v ->
       (serving_node (world scenario_example) !! b = Some v /\
        send_hello_to env_three (BS b) (Veh v) <> None) \/
       exists st,
         stats (my_algorithm sc') !! b = Some st /\
         Stats.conn_start_time st = Some 120%Q).
Proof.
  apply (tick_keeps_live_connections [1; 2; 3] 2 param_example rng_example
           events_example scenario_example env_three 120%Q
           param_example_duration scenario_example_run).
Defined.

(** ** Two reports in a row *)

Lemma show_outcome_step_clears (alg alg' : Algorithm)
    (rows rows' : list outcome_row) (b : beam) :
  show_outcome_step (alg, rows) b = Ok (alg', rows') ->
  session_clear alg' b /\
  forall b', session_clear alg b' -> session_clear alg' b'.
Proof.
  intros H.
  apply show_outcome_step_Ok in H as (s & s2 & _ & Hs2 & -> & _).
  unfold session_clear. simpl. split.
  - exists (Stats.reset s2). rewrite lookup_insert_eq. auto.
  - intros b' (s' & Hs' & Hz). destruct (decide (b = b')) as [<-|Hne].
    + exists (Stats.reset s2). rewrite lookup_insert_eq. auto.
    + exists s'. rewrite lookup_insert_ne by assumption. auto.
Qed.

Lemma show_outcome_loop_clears (l : list beam) :
  forall alg rows alg' rows',
    for_each show_outcome_step l (alg, rows) = Ok (alg', rows') ->
    (forall b, b ∈ l -> session_clear alg' b) /\
    (forall b, session_clear alg b -> session_clear alg' b).
Proof.
  induction l as [|b0 l IH]; intros alg rows alg' rows' H; simpl in H.
  - injection H as <- <-. split; [|auto].
    intros b Hb. apply elem_of_nil in Hb. contradiction.
  - apply rbind_Ok in H as ([alg1 rows1] & H1 & H).
    apply show_outcome_step_clears in H1 as [Hb0 Hkeep1].
    apply IH in H as [Hl Hkeep]. split.
    + intros b Hb. apply elem_of_cons in Hb as [->|Hb]; auto.
    + auto.
Qed.

Lemma show_outcome_loop_rows (l : list beam) :
  forall alg rows alg' rows',
    for_each show_outcome_step l (alg, rows) = Ok (alg', rows') ->
    exists r, rows' = (rows ++ r)%list /\ map row_beam r = l.
Proof.
  induction l as [|b0 l IH]; intros alg rows alg' rows' H; simpl in H.
  - injection H as <- <-. exists []. rewrite app_nil_r. auto.
  - apply rbind_Ok in H as ([alg1 rows1] & H1 & H).
    apply show_outcome_step_Ok in H1 as (s & s2 & _ & _ & _ & ->).
    apply IH in H as (r & -> & Hr). eexists (_ :: r).
    rewrite <- app_assoc. simpl. split; [reflexivity|]. rewrite Hr.
    reflexivity.
Qed.

Lemma show_outcome_loop_again (l : list beam) :
  forall alg rows alg1 rows1 algB q algB' q',
    for_each show_outcome_step l (alg, rows) = Ok (alg1, rows1) ->
    stats algB = stats alg ->
    (forall b, b ∈ l -> session_clear algB b) ->
    for_each show_outcome_step l (algB, q) = Ok (algB', q') ->
    exists r, rows1 = (rows ++ r)%list /\
              q' = (q ++ map clear_session r)%list.
Proof.
  induction l as [|b0 l IH];
    intros alg rows alg1 rows1 algB q algB' q' H Hst Hcl HB;
    simpl in H, HB.
  - injection H as <- <-. injection HB as <- <-. exists [].
    simpl. rewrite !app_nil_r. auto.
  - apply rbind_Ok in H as ([algm rowsm] & H1 & H).
    apply rbind_Ok in HB as ([algBm qm] & HB1 & HB).
    pose proof (show_outcome_step_clears _ _ _ _ _ HB1) as [_ Hkeep].
    apply show_outcome_step_Ok in H1 as (s & s2 & Hs & _ & -> & ->).
    apply show_outcome_step_Ok in HB1 as (sB & sB2 & HsB & HsB2 & -> & ->).
    rewrite Hst, Hs in HsB. injection HsB as <-.
    destruct (Hcl b0 (proj2 (elem_of_cons _ _ _) (or_introl eq_refl))) as (s2' & Hs2' & Hz).
    rewrite HsB2 in Hs2'. injection Hs2' as <-.
    assert (Hcl' : forall b, b ∈ l ->
              session_clear
                (mkAlgorithm (all_beams algB) (max_active_sector algB)
                   (stats algB) (<[b0 := Stats.reset sB2]> (stats2 algB))
                   (policy algB)) b).
    { intros b Hb. apply Hkeep, Hcl. apply elem_of_cons. right. exact Hb. }
    destruct (IH _ _ _ _
                (mkAlgorithm (all_beams algB) (max_active_sector algB)
                   (stats algB) (<[b0 := Stats.reset sB2]> (stats2 algB))
                   (policy algB)) _ _ _ H Hst Hcl' HB) as (r & -> & ->).
    eexists (_ :: r). rewrite <- !app_assoc. simpl.
    split; [reflexivity|].
    assert (Stats.get_average_connection_time sB2 = 0%Q) as ->.
    { unfold Stats.get_average_connection_time. rewrite Hz. reflexivity. }
    assert (Stats.get_connection_count sB2 = 0) as -> by exact Hz.
    reflexivity.
Qed.

Lemma final_average_cleared (l : list outcome_row) :
  session_average (map clear_session l) = 0%Q.
Proof.
  unfold session_average, get_final_average.
  assert (H : forall tot,
            exists tot',
              fold_left (fun '(the_total, the_count) '(average, count) =>
                           ((the_total + average * inject_Z (Z.of_nat count))%Q,
                            the_count + count))
                (map (fun '(_, _, _, this_average, this_count) =>
                        (this_average, this_count))
                     (map clear_session l)) (tot, 0)
              = (tot', 0)).
  { induction l as [|[[[[b a] n] a2] n2] l IH]; intros tot; simpl.
    - eauto.
    - apply IH. }
  destruct (H 0%Q) as (tot' & ->). reflexivity.
Qed.

Lemma overall_average_cleared (l : list outcome_row) :
  overall_average (map clear_session l) = overall_average l.
Proof.
  unfold overall_average. f_equal. rewrite map_map.
  apply map_ext. intros [[[[b a] n] a2] n2]. reflexivity.
Qed.

(** X13.  In the state any run reaches, the report goes through with one
    row for each beam of the scenario, in their order; and a second report
    made right after it shows the same lifetime columns with every session
    mean and session count at zero, so that its session average is zero
    and its overall average the one of the first report.  Neither report
    touches the lifetime trackers or the connections. *)
Theorem report_twice_clears_session (beams : list beam) (K : nat)
    (param : Param) (g : Rng) (events : list (Env * Q * Event))
    (sc : Scenario) :
  ~ (p_duration param == 0)%Q ->
  run events (create beams K param g) = Ok sc ->
  exists sc1 rows1 sc2 rows2,
    show_outcome sc = Ok (sc1, rows1) /\
    show_outcome sc1 = Ok (sc2, rows2) /\
    map row_beam rows1 = beams /\
    rows2 = map clear_session rows1 /\
    session_average rows2 = 0%Q /\
    overall_average rows2 = overall_average rows1 /\
    stats (my_algorithm sc2) = stats (my_algorithm sc) /\
    world sc2 = world sc.
Proof.
  intros Hstop Hrun.
  destruct (create_capacity beams K param g events sc Hstop Hrun)
    as (Hsok & _ & _ & Hb & _).
  destruct (show_outcome_ok sc Hsok)
    as (sc1 & rows1 & H1 & Hsok1 & Hb1 & _ & Hw1 & _).
  destruct (show_outcome_ok sc1 Hsok1)
    as (sc2 & rows2 & H2 & _ & _ & _ & Hw2 & _).
  exists sc1, rows1, sc2, rows2.
  split; [exact H1|]. split; [exact H2|].
  destruct (show_outcome_stats _ _ _ H1) as [Hst1 _].
  destruct (show_outcome_stats _ _ _ H2) as [Hst2 _].
  assert (Hrows : map row_beam rows1 = beams /\
                  rows2 = map clear_session rows1).
  { unfold show_outcome in H1, H2.
    apply rbind_Ok in H1 as ([alg1 r1] & Hl1 & H1).
    injection H1 as <- <-.
    apply rbind_Ok in H2 as ([alg2 r2] & Hl2 & H2).
    injection H2 as <- <-. simpl in Hl2. rewrite Hb in Hl1, Hl2.
    destruct (show_outcome_loop_rows _ _ _ _ _ Hl1) as (r & -> & Hr).
    destruct (show_outcome_loop_clears _ _ _ _ _ Hl1) as [Hcl _].
    destruct (show_outcome_loop_again _ _ _ _ _ _ _ _ _ Hl1 Hst1 Hcl Hl2)
      as (r' & Er & ->).
    simpl in Er. subst r'. simpl. auto. }
  destruct Hrows as [Hr1 ->].
  split; [exact Hr1|]. split; [reflexivity|].
  split; [apply final_average_cleared|].
  split; [apply overall_average_cleared|].
  split; congruence.
Qed.

Lemma report_twice_clears_session_witness :
  exists sc1 rows1 sc2 rows2,
    show_outcome scenario_example = Ok (sc1, rows1) /\
    show_outcome sc1 = Ok (sc2, rows2) /\
    map row_beam rows1 = [1; 2; 3] /\
    rows2 = map clear_session rows1 /\
    session_average rows2 = 0%Q /\
    overall_average rows2 = overall_average rows1 /\
    stats (my_algorithm sc2) = stats (my_algorithm scenario_example) /\
    world sc2 = world scenario_example.
Proof.
  apply (report_twice_clears_session [1; 2; 3] 2 param_example rng_example
           events_example scenario_example
           param_example_duration scenario_example_run).
Defined.

(** ** A bandit that never explores *)

Lemma reward_pick_cold (cs : list pairing) (st : Q * option pairing) :
  fold_left (reward_pick (fun _ => None)) cs st = st.
Proof. induction cs as [|c cs IH]; simpl; [reflexivity|exact IH]. Qed.

Lemma CMAB_do_pairing_cold (enc : encoder) (beams : list beam) (env : Env)
    (t : Q) (w : World) (s : Bandit) (g : Rng) :
  (exploration_stop_time s <= t)%Q ->
  arm_total_reward s = ∅ ->
  exists s',
    CMAB_do_pairing enc beams env t w s g = Ok (None, s', g) /\
    arm_total_reward s' = ∅ /\
    exploration_stop_time s' = exploration_stop_time s.
Proof.
  intros Ht Hcold.
  rewrite (CMAB_do_pairing_exploitation enc beams env t w s g
             (fun _ => None) Ht)
    by (intros; apply get_past_reward_cold, Hcold).
  rewrite reward_pick_cold. simpl.
  eexists. split; [reflexivity|].
  destruct (available_beams beams w); auto.
Qed.

Lemma check_loop_cold (env : Env) (t : Q) (l : list beam) (alg : Algorithm) :
  for_each (check_step env t) l (mkWorld ∅ ∅, alg) = Ok (mkWorld ∅ ∅, alg).
Proof.
  induction l as [|b l IH]; simpl; [reflexivity|].
  rewrite lookup_empty. simpl. exact IH.
Qed.

Lemma select_loop_cold (env : Env) (t : Q) (room : nat) (w : World)
    (alg : Algorithm) (g : Rng) (cls : BanditClass) (s : Bandit) :
  (exploration_stop_time s <= t)%Q ->
  policy alg = PBandit cls s ->
  arm_total_reward s = ∅ ->
  exists s',
    select_loop room env t w alg g
    = Ok (w, with_policy alg (PBandit cls s'), g) /\
    arm_total_reward s' = ∅ /\
    exploration_stop_time s' = exploration_stop_time s.
Proof.
  intros Ht Hp Hcold. destruct room as [|room]; simpl.
  - exists s. split; [|auto]. destruct alg. simpl in Hp. subst. reflexivity.
  - unfold do_pairing. rewrite Hp.
    destruct (CMAB_do_pairing_cold (get_context cls s) (all_beams alg)
                env t w s g Ht Hcold) as (s' & -> & Hc' & Hs').
    simpl. eauto.
Qed.

Lemma do_mobility_cold (env : Env) (t : Q) (stop : Q) (d : gmap beam Stats.t)
    (sc sc' : Scenario) :
  (stop <= t)%Q ->
  never_connected stop d sc ->
  do_mobility env t sc = Ok sc' ->
  never_connected stop d sc'.
Proof.
  intros Ht (Hw & Hd & cls & s & Hp & Hcold & Hstop) H.
  unfold do_mobility in H. rewrite Hw, check_loop_cold in H. simpl in H.
  rewrite <- Hstop in Ht.
  destruct (select_loop_cold env t
              (max_active_beam sc - count_active (bs_beams sc) (mkWorld ∅ ∅))
              (mkWorld ∅ ∅) (my_algorithm sc) (rng sc) cls s Ht Hp Hcold)
    as (s' & Hsel & Hc' & Hs').
  rewrite Hsel in H. simpl in H.
  destruct (Qeq_bool (stop_time sc) 0); [discriminate|].
  assert (Hnc : never_connected stop d
                  (with_state sc (with_policy (my_algorithm sc)
                                    (PBandit cls s'))
                     (mkWorld ∅ ∅) (rng sc))).
  { split; [reflexivity|]. split; [exact Hd|].
    exists cls, s'. simpl. split; [reflexivity|]. split; [exact Hc'|].
    congruence. }
  destruct (Qlt_bool (sim_next_progress sc) (t / stop_time sc)).
  - apply rbind_Ok in H as ([sc1 rows] & Hr & H). injection H as <-.
    destruct Hnc as (Hw1 & Hd1 & Hp1).
    destruct (show_outcome_world _ _ _ Hr) as (Ew & _).
    destruct (show_outcome_stats _ _ _ Hr) as (Es & Ep).
    split; [simpl; congruence|]. split; [simpl; congruence|].
    simpl. rewrite Ep. exact Hp1.
  - injection H as <-. exact Hnc.
Qed.

Lemma run_cold (stop : Q) (d : gmap beam Stats.t)
    (events : list (Env * Q * Event)) :
  Forall (fun ev => (stop <= snd (fst ev))%Q) events ->
  forall sc sc',
    never_connected stop d sc ->
    run events sc = Ok sc' ->
    never_connected stop d sc'.
Proof.
  unfold run. induction 1 as [|[[env t] e] events Ht _ IH];
    intros sc sc' Hnc H; simpl in H.
  - injection H as <-. exact Hnc.
  - apply rbind_Ok in H as (sc1 & He & H).
    apply (IH sc1 sc'); [|exact H]. simpl in Ht.
    destruct e; simpl in He.
    + injection He as <-. exact Hnc.
    + eapply do_mobility_cold; eassumption.
    + apply rbind_Ok in He as ([sc2 rows] & Hr & He). injection He as <-.
      destruct Hnc as (Hw1 & Hd1 & Hp1).
      destruct (show_outcome_world _ _ _ Hr) as (Ew & _).
      destruct (show_outcome_stats _ _ _ Hr) as (Es & Ep).
      split; [congruence|]. split; [congruence|].
      rewrite Ep. exact Hp1.
Qed.

(** X14.  A bandit learns only while it explores: when every event of a run
    comes at or after the exploration stop time, which is so for every run
    when that time is zero, a [MAB] or [CMAB] scenario never connects a
    vehicle, whatever the vehicles in reach, and every lifetime tracker
    stays as created. *)
Theorem bandit_without_exploration_never_connects (beams : list beam)
    (K : nat) (param : Param) (g : Rng) (events : list (Env * Q * Event))
    (sc : Scenario) :
  p_algo param = "mab" \/ p_algo param = "cmab" ->
  Forall (fun ev => (p_mab_exploration_stop_time param <= snd (fst ev))%Q)
         events ->
  run events (create beams K param g) = Ok sc ->
  serving_node (world sc) = ∅ /\
  associated_bs (world sc) = ∅ /\
  forall b st, stats (my_algorithm sc) !! b = Some st -> st = Stats.init.
Proof.
  intros Halgo Hev Hrun.
  assert (H0 : never_connected (p_mab_exploration_stop_time param)
                 (stats (my_algorithm (create beams K param g)))
                 (create beams K param g)).
  { split; [reflexivity|]. split; [reflexivity|].
    unfold create, create_algorithm. simpl.
    destruct Halgo as [-> | ->]; simpl; eauto 10. }
  destruct (run_cold _ _ events Hev _ _ H0 Hrun) as (Hw & Hd & _).
  rewrite Hw. split; [reflexivity|]. split; [reflexivity|].
  intros b st Hb. rewrite Hd in Hb. simpl in Hb.
  apply fresh_stats_lookup in Hb as [Hb|Hb]; [exact Hb|].
  rewrite lookup_empty in Hb. discriminate.
Qed.

Lemma scenario_cold_run :
  run events_example (create [1; 2; 3] 2 param_cold rng_example)
  = Ok scenario_cold.
Proof. vm_compute. reflexivity. Qed.

Lemma bandit_without_exploration_never_connects_witness :
  serving_node (world scenario_cold) = ∅ /\
  associated_bs (world scenario_cold) = ∅ /\
  forall b st,
    stats (my_algorithm scenario_cold) !! b = Some st -> st = Stats.init.
Proof.
  apply (bandit_without_exploration_never_connects [1; 2; 3] 2 param_cold
           rng_example events_example scenario_cold).
  - right. reflexivity.
  - repeat constructor; vm_compute; discriminate.
  - exact scenario_cold_run.
Defined.
